(** * go-json: value model, parser and encoder

    A shallow embedding of the Go package [json] (ordered JSON objects and
    arrays, a recursive-descent parser, and a builder with a pluggable string
    escaping policy), followed by the properties stated about it.

    Conventions of the embedding.
    - A Go [string] is represented by the sequence of runes that ranging over
      it (or reading it with [ReadRune]) yields; a [rune] is an integer.
    - A Go map is [option (gmap K V)]: [None] is the nil map, which can be
      read and deleted from but not written.
    - Methods with a pointer receiver take the receiver last and return the
      updated receiver; methods that can panic also return an [outcome], or
      answer with a [result].
    - A pointer field or an interface value that can be nil is an option:
      [None] is nil, and a dereference of it panics.
    - Errors built with [fmt.Errorf] are constructors of [error], one per
      format string. *)

From stdpp Require Import gmap strings list fin_maps.
From Stdlib Require Import ZArith Lia.
From Stdlib Require DecimalN.

Set Warnings "-register-all".
Local Open Scope Z_scope.

(** ** Runes and strings *)

Abbreviation rune := Z.
Abbreviation gostring := (list Z).

Definition rune_of_bytes (bs : list Byte.byte) : option Z :=
  match bs with
  | [b] => Some (Z.of_N (Byte.to_N b))
  | _ => None
  end.

Definition bytes_of_rune (z : Z) : option (list Byte.byte) := None.

Declare Scope rune_scope.
Delimit Scope rune_scope with rune.
String Notation Z rune_of_bytes bytes_of_rune : rune_scope.

(** Rune literals that cannot be written between quotes. *)
Abbreviation DQUOTE := (0x22) (only parsing).          (* the double quote *)
Abbreviation BACKSPACE := (0x08) (only parsing).       (* '\b' *)
Abbreviation TAB := (0x09) (only parsing).             (* '\t' *)
Abbreviation NEWLINE := (0x0a) (only parsing).         (* '\n' *)
Abbreviation FORMFEED := (0x0c) (only parsing).        (* '\f' *)
Abbreviation CARRIAGERETURN := (0x0d) (only parsing).  (* '\r' *)

(** ASCII source text, written with an apostrophe standing for the double quote. *)
Definition lit (s : string) : gostring :=
  (λ a, let c := Z.of_N (Ascii.N_of_ascii a) in if c =? 0x27 then DQUOTE else c)
    <$> String.list_ascii_of_string s.

(** ** Package [unicode] and [unicode/utf16] *)

Module unicode.
Definition ReplacementChar : rune := 0xFFFD.
Definition MaxRune : rune := 0x10FFFF.
End unicode.

Module utf16.
Definition surr1 : rune := 0xd800.
Definition surr2 : rune := 0xdc00.
Definition surr3 : rune := 0xe000.
Definition surrSelf : rune := 0x10000.

Definition IsSurrogate (r : rune) : bool :=
  (surr1 <=? r) && (r <? surr3).

Definition DecodeRune (r1 r2 : rune) : rune :=
  if (surr1 <=? r1) && (r1 <? surr2) && (surr2 <=? r2) && (r2 <? surr3)
  then Z.lor (Z.shiftl (r1 - surr1) 10) (r2 - surr2) + surrSelf
  else unicode.ReplacementChar.

Definition EncodeRune (r : rune) : rune * rune :=
  if (r <? surrSelf) || (r >? unicode.MaxRune)
  then (unicode.ReplacementChar, unicode.ReplacementChar)
  else
    let r := r - surrSelf in
    (surr1 + Z.land (Z.shiftr r 10) 0x3ff, surr2 + Z.land r 0x3ff).

Definition RuneLen (r : rune) : Z :=
  if ((0 <=? r) && (r <? surr1)) || ((surr3 <=? r) && (r <? surrSelf)) then 1
  else if (surrSelf <=? r) && (r <=? unicode.MaxRune) then 2
  else -1.
End utf16.

Module utf8.
(** [ValidRune] holds of the Unicode scalar values: the runes that the
    iteration over a Go string yields. *)
Definition ValidRune (r : rune) : bool :=
  if (0 <=? r) && (r <? 0xD800) then true
  else if (0xDFFF <? r) && (r <=? unicode.MaxRune) then true
  else false.
End utf8.

(** ** [strings.Builder] *)

Module Builder.
(** [WriteRune] stores U+FFFD for a rune that is not a Unicode scalar value. *)
Definition WriteRune (b : gostring) (r : rune) : gostring :=
  if (r <? 0) || (r >? unicode.MaxRune) || utf16.IsSurrogate r
  then b ++ [unicode.ReplacementChar]
  else b ++ [r].

Definition WriteString (b : gostring) (s : gostring) : gostring := b ++ s.

Definition Len (b : gostring) : Z := Z.of_nat (length b).
End Builder.

(** ** Package [strconv], base 10 *)

Module strconv.
Inductive NumError := ErrSyntax | ErrRange.

Fixpoint uint_runes (d : Decimal.uint) : gostring :=
  match d with
  | Decimal.Nil => []
  | Decimal.D0 d => "0"%rune :: uint_runes d
  | Decimal.D1 d => "1"%rune :: uint_runes d
  | Decimal.D2 d => "2"%rune :: uint_runes d
  | Decimal.D3 d => "3"%rune :: uint_runes d
  | Decimal.D4 d => "4"%rune :: uint_runes d
  | Decimal.D5 d => "5"%rune :: uint_runes d
  | Decimal.D6 d => "6"%rune :: uint_runes d
  | Decimal.D7 d => "7"%rune :: uint_runes d
  | Decimal.D8 d => "8"%rune :: uint_runes d
  | Decimal.D9 d => "9"%rune :: uint_runes d
  end.

(** [FormatInt(i, 10)], also [Itoa]. *)
Definition FormatInt (i : Z) : gostring :=
  if i <? 0
  then "-"%rune :: uint_runes (N.to_uint (Z.to_N (- i)))
  else uint_runes (N.to_uint (Z.to_N i)).

Definition maxUint64 : Z := 2 ^ 64 - 1.

(** The digit loop of [ParseUint]: a value and, when the loop returned
    early, the error it returned with. *)
Fixpoint ParseUint_loop (maxVal : Z) (s : gostring) (n : Z) : Z * option NumError :=
  match s with
  | [] => (n, None)
  | c :: s' =>
      if ("0"%rune <=? c) && (c <=? "9"%rune) then
        let d := c - "0"%rune in
        if n >=? maxUint64 / 10 + 1 then (maxVal, Some ErrRange)
        else
          let n := n * 10 in
          let n1 := (n + d) mod 2 ^ 64 in
          if (n1 <? n) || (n1 >? maxVal) then (maxVal, Some ErrRange)
          else ParseUint_loop maxVal s' n1
      else (0, Some ErrSyntax)
  end.

Definition ParseUint (s : gostring) (bitSize : Z) : Z * option NumError :=
  match s with
  | [] => (0, Some ErrSyntax)
  | _ => ParseUint_loop (2 ^ bitSize - 1) s 0
  end.

Definition ParseInt (s : gostring) (bitSize : Z) : Z * option NumError :=
  match s with
  | [] => (0, Some ErrSyntax)
  | c :: s' =>
      let neg := c =? "-"%rune in
      let s1 := if (c =? "+"%rune) || (c =? "-"%rune) then s' else s in
      let '(un, err) := ParseUint s1 bitSize in
      match err with
      | Some ErrSyntax => (0, Some ErrSyntax)
      | _ =>
          let cutoff := 2 ^ (bitSize - 1) in
          if negb neg && (un >=? cutoff) then (cutoff - 1, Some ErrRange)
          else if neg && (un >? cutoff) then (- cutoff, Some ErrRange)
          else (if neg then - un else un, None)
      end
  end.

Definition Atoi (s : gostring) : Z * option NumError := ParseInt s 64.
End strconv.

(** Conversion [int32(x)] of an integer that fits 64 bits. *)
Definition int32 (x : Z) : Z := (x + 2 ^ 31) mod 2 ^ 32 - 2 ^ 31.

(** [x++] on an [int]. *)
Definition incr_int (x : Z) : Z := (x + 1 + 2 ^ 63) mod 2 ^ 64 - 2 ^ 63.

(** ** Errors and results *)

Inductive error : Type :=
  | NoMatchingMember                          (* "no matching member" *)
  | FailedToGetNumber (e : error)             (* "failed to get number: %s" *)
  | FailedToParseInt (e : strconv.NumError)   (* "failed to parse int: %s" *)
  | FailedToParseInt64 (e : strconv.NumError) (* "failed to parse int64: %s" *)
  | FailedToParseInt32 (e : strconv.NumError) (* "failed to parse int32: %s" *)
  | FailedToReadRune                          (* "failed to read rune: EOF" *)
  | InvalidEncoding                           (* "invalid encoding" *)
  | InvalidCharacterEncoding                  (* "invalid character encoding" *)
  | InvalidHexEncoding                        (* "invalid hex encoding" *)
  | ExpectedHexEncoding                       (* "expected hex encoding" *)
  | InvalidCharacter                          (* "invalid character" *)
  | UnexpectedCharacter (c : rune)            (* "unexpected character %s" *)
  | UnexpectedTrailingCharacter               (* "unexpected character" *)
  | UnexpectedEscapeCharacter (c : rune)      (* "unexpected escape character %s" *)
  | UnexpectedIdentifier (s : gostring)       (* "unexpected identifier %s" *)
  | DuplicateMemberName (key : gostring)      (* "duplicate member name %s" *)
  | FailedToParseMemberName (e : error)       (* "failed to parse member name: %s" *)
  | FailedToParseObject (e : error)           (* "failed to parse object: %s" *)
  | FailedToParseArray (e : error)            (* "failed to parse array: %s" *)
  | FailedToParseString (e : error)           (* "failed to parse string: %s" *)
  | FailedToExtractNumber (e : error)         (* "failed to extract number: %s" *)
  | FailedToExtractIdentifier (e : error).    (* "failed to extract identifier: %s" *)

(** What a call does: it returns a value, returns an error, or panics.
    [OutOfFuel] is the answer of a fuelled definition that was given too
    little fuel; it is not a behaviour of the program. *)
Inductive result (A : Type) : Type :=
  | Ok (a : A)
  | Err (e : error)
  | Panic (msg : string)
  | OutOfFuel.

Arguments Ok {A} a.
Arguments Err {A} e.
Arguments Panic {A} msg.
Arguments OutOfFuel {A}.

Global Instance result_ret : MRet result := λ A a, Ok a.

Global Instance result_bind : MBind result := λ A B f x,
  match x with
  | Ok a => f a
  | Err e => Err e
  | Panic msg => Panic msg
  | OutOfFuel => OutOfFuel
  end.

(** [wrap ctx x]: on error return [fmt.Errorf("ctx: %s", err.Error())]. *)
Definition wrap {A} (ctx : error → error) (x : result A) : result A :=
  match x with
  | Err e => Err (ctx e)
  | _ => x
  end.

(** What a method without result does: it returns or panics. *)
Inductive outcome : Type :=
  | Returned
  | Panicked (msg : string).

(** ** Go maps *)

Section gomap.
Context {K : Type} `{Countable K} {V : Type}.

(** [value, ok := m[k]] *)
Definition go_get (m : option (gmap K V)) (k : K) : option V :=
  match m with
  | None => None
  | Some g => g !! k
  end.

(** [delete(m, k)] *)
Definition go_delete (m : option (gmap K V)) (k : K) : option (gmap K V) :=
  delete k <$> m.

(** [m[k] = v]; [None] when [m] is nil, where Go panics. *)
Definition go_set (m : option (gmap K V)) (k : K) (v : V) : option (gmap K V) :=
  <[k := v]> <$> m.

(** [if m == nil { m = map[K]V{} }] *)
Definition go_make_if_nil (m : option (gmap K V)) : option (gmap K V) :=
  match m with
  | None => Some ∅
  | Some g => Some g
  end.
End gomap.

Definition nil_map_write : string := "assignment to entry in nil map".

(** ** Nil pointers and nil interfaces

    A pointer or an interface value is [None] when it is nil.  Go panics
    when a nil pointer is dereferenced and when a method of the nil
    interface is called, with the same runtime error. *)

Definition nil_dereference : string := "invalid memory address or nil pointer dereference".

Definition deref {A} (p : option A) : result A :=
  match p with
  | Some a => Ok a
  | None => Panic nil_dereference
  end.

(** ** String escaping (encode.go) *)

Abbreviation BACKSLASH := (0x5c) (only parsing).

Record StringCharacterEscapingBehaviorInterface : Type := {
  UseCharacter : rune → bool;
  UseShorthandEscapeSequence : rune → bool;
}.

(** "Escapes characters only when necessary, preferring shorthand escape
    sequences." *)
Definition MinimalStringCharacterEscapingBehavior : StringCharacterEscapingBehaviorInterface :=
  {| UseCharacter := λ _, true; UseShorthandEscapeSequence := λ _, true |}.

Definition shorthandStringCharacterEscapeSequences : gmap rune gostring :=
  list_to_map
    [ (DQUOTE, [BACKSLASH; DQUOTE]);
      (BACKSLASH, [BACKSLASH; BACKSLASH]);
      ("/"%rune, [BACKSLASH; "/"%rune]);
      (BACKSPACE, [BACKSLASH; "b"%rune]);
      (FORMFEED, [BACKSLASH; "f"%rune]);
      (NEWLINE, [BACKSLASH; "n"%rune]);
      (CARRIAGERETURN, [BACKSLASH; "r"%rune]);
      (TAB, [BACKSLASH; "t"%rune]) ].

Definition hexTable : gostring := lit "0123456789abcdef".

Definition toStringHexEscapeSequence (r : rune) : gostring :=
  let hex i := default 0 (hexTable !! Z.to_nat i) in
  [ BACKSLASH; "u"%rune;
    hex (Z.land (Z.shiftr r 12) 0x0f);
    hex (Z.land (Z.shiftr r 8) 0x0f);
    hex (Z.land (Z.shiftr r 4) 0x0f);
    hex (Z.land r 0x0f) ].

(** One iteration of the loop of [encodeString]: what is written for [char]. *)
Definition encodeString_char (characterEscapingBehavior : StringCharacterEscapingBehaviorInterface)
    (b : gostring) (char : rune) : gostring :=
  let hexEscaped :=
    if utf16.RuneLen char >? 1 then
      let '(pair1, pair2) := utf16.EncodeRune char in
      Builder.WriteString
        (Builder.WriteString b (toStringHexEscapeSequence pair1))
        (toStringHexEscapeSequence pair2)
    else Builder.WriteString b (toStringHexEscapeSequence char) in
  let shorthandOrHex :=
    match shorthandStringCharacterEscapeSequences !! char with
    | Some shorthandEscapeSequence =>
        if UseShorthandEscapeSequence characterEscapingBehavior char
        then Builder.WriteString b shorthandEscapeSequence
        else hexEscaped
    | None => hexEscaped
    end in
  if (char >=? 0x0000) && (char <=? 0x001f) && negb (char =? DQUOTE) && negb (char =? BACKSLASH)
  then
    if UseCharacter characterEscapingBehavior char
    then Builder.WriteRune b char
    else shorthandOrHex
  else shorthandOrHex.

Definition encodeString (s : gostring)
    (characterEscapingBehavior : StringCharacterEscapingBehaviorInterface) : gostring :=
  let b := Builder.WriteRune [] DQUOTE in
  let b := foldl (encodeString_char characterEscapingBehavior) b s in
  Builder.WriteRune b DQUOTE.

(** [encodeString] calls a method of the policy at a control character
    and at a rune that has a shorthand escape sequence, and at no other
    rune. *)
Definition asks_policy (char : rune) : bool :=
  ((char >=? 0x0000) && (char <=? 0x001f) && negb (char =? DQUOTE) && negb (char =? BACKSLASH)) ||
  bool_decide (is_Some (shorthandStringCharacterEscapeSequences !! char)).

(** [encodeString(s, p)] where the interface value [p] may be nil.  With
    the nil interface the call panics at the first rune at which the policy
    is asked; a string without such a rune is encoded without the policy
    (see [encodeString_asks_policy]). *)
Definition encodeString_with (s : gostring)
    (characterEscapingBehavior : option StringCharacterEscapingBehaviorInterface)
    : result gostring :=
  match characterEscapingBehavior with
  | Some characterEscapingBehavior => Ok (encodeString s characterEscapingBehavior)
  | None =>
      if existsb asks_policy s then Panic nil_dereference
      else Ok (encodeString s MinimalStringCharacterEscapingBehavior)
  end.

(** ** Builders (build.go)

    A builder holds a pointer [b] to a [strings.Builder], a policy and a
    count; [NewObjectBuilder] and [NewArrayBuilder] make the
    [strings.Builder] and store the policy they are given.

    object.go makes its builder as the zero value [ObjectBuilderStruct{}],
    in which [b] is the nil pointer and the policy is the nil interface.
    The two fields of [ObjectBuilderStruct] are therefore options, and its
    methods answer with a [result]: they panic where they dereference nil.
    No code of the package makes an [ArrayBuilderStruct] other than by
    [NewArrayBuilder]: its record holds the [strings.Builder] that [b] points
    to and the policy that was given. *)

Record ObjectBuilderStruct : Type := mkObjectBuilder {
  ob_b : option gostring;
  ob_stringCharacterEscapingBehavior : option StringCharacterEscapingBehaviorInterface;
  memberCount : Z;
}.

Record ArrayBuilderStruct : Type := mkArrayBuilder {
  ab_b : gostring;
  ab_stringCharacterEscapingBehavior : StringCharacterEscapingBehaviorInterface;
  elementCount : Z;
}.

Module ObjectBuilder.
(** [ObjectBuilderStruct{}] *)
Definition zero : ObjectBuilderStruct := mkObjectBuilder None None 0.

Definition NewObjectBuilder
    (stringCharacterEscapingBehavior : StringCharacterEscapingBehaviorInterface) : ObjectBuilderStruct :=
  mkObjectBuilder (Some []) (Some stringCharacterEscapingBehavior) 0.

Definition AddJSON (name value : gostring) (objectBuilder : ObjectBuilderStruct)
    : result ObjectBuilderStruct :=
  b ← deref (ob_b objectBuilder);
  let b := if Builder.Len b =? 0 then Builder.WriteRune b "{"%rune else b in
  let b := if memberCount objectBuilder >? 0 then Builder.WriteRune b ","%rune else b in
  encodedName ← encodeString_with name (ob_stringCharacterEscapingBehavior objectBuilder);
  let b := Builder.WriteString b encodedName in
  let b := Builder.WriteRune b ":"%rune in
  let b := Builder.WriteString b value in
  Ok (mkObjectBuilder (Some b) (ob_stringCharacterEscapingBehavior objectBuilder)
        (incr_int (memberCount objectBuilder))).

Definition AddString (name value : gostring) (objectBuilder : ObjectBuilderStruct)
    : result ObjectBuilderStruct :=
  encoded ← encodeString_with value (ob_stringCharacterEscapingBehavior objectBuilder);
  AddJSON name encoded objectBuilder.

Definition AddInt (name : gostring) (value : Z) (objectBuilder : ObjectBuilderStruct)
    : result ObjectBuilderStruct :=
  let encoded := strconv.FormatInt value in
  AddJSON name encoded objectBuilder.

Definition AddInt64 (name : gostring) (value : Z) (objectBuilder : ObjectBuilderStruct)
    : result ObjectBuilderStruct :=
  let encoded := strconv.FormatInt value in
  AddJSON name encoded objectBuilder.

Definition AddInt32 (name : gostring) (value : Z) (objectBuilder : ObjectBuilderStruct)
    : result ObjectBuilderStruct :=
  AddInt64 name value objectBuilder.

Definition AddBool (name : gostring) (value : bool) (objectBuilder : ObjectBuilderStruct)
    : result ObjectBuilderStruct :=
  if value then AddJSON name (lit "true") objectBuilder
  else AddJSON name (lit "false") objectBuilder.

Definition AddNull (name : gostring) (objectBuilder : ObjectBuilderStruct)
    : result ObjectBuilderStruct :=
  AddJSON name (lit "null") objectBuilder.

Definition Done (objectBuilder : ObjectBuilderStruct) : result gostring :=
  b ← deref (ob_b objectBuilder);
  if Builder.Len b =? 0 then Ok (lit "{}")
  else Ok (Builder.WriteRune b "}"%rune).
End ObjectBuilder.

Module ArrayBuilder.
Definition NewArrayBuilder
    (stringCharacterEscapingBehavior : StringCharacterEscapingBehaviorInterface) : ArrayBuilderStruct :=
  mkArrayBuilder [] stringCharacterEscapingBehavior 0.

Definition AddJSON (value : gostring) (arrayBuilder : ArrayBuilderStruct) : ArrayBuilderStruct :=
  let b := ab_b arrayBuilder in
  let b := if Builder.Len b =? 0 then Builder.WriteRune b "["%rune else b in
  let b := if elementCount arrayBuilder >? 0 then Builder.WriteRune b ","%rune else b in
  let b := Builder.WriteString b value in
  mkArrayBuilder b (ab_stringCharacterEscapingBehavior arrayBuilder)
    (incr_int (elementCount arrayBuilder)).

Definition AddString (value : gostring) (arrayBuilder : ArrayBuilderStruct) : ArrayBuilderStruct :=
  let encoded := encodeString value (ab_stringCharacterEscapingBehavior arrayBuilder) in
  AddJSON encoded arrayBuilder.

Definition AddInt (value : Z) (arrayBuilder : ArrayBuilderStruct) : ArrayBuilderStruct :=
  AddJSON (strconv.FormatInt value) arrayBuilder.

Definition AddInt64 (value : Z) (arrayBuilder : ArrayBuilderStruct) : ArrayBuilderStruct :=
  AddJSON (strconv.FormatInt value) arrayBuilder.

Definition AddInt32 (key : gostring) (value : Z) (arrayBuilder : ArrayBuilderStruct) : ArrayBuilderStruct :=
  AddJSON (strconv.FormatInt value) arrayBuilder.

Definition AddBool (value : bool) (arrayBuilder : ArrayBuilderStruct) : ArrayBuilderStruct :=
  if value then AddJSON (lit "true") arrayBuilder
  else AddJSON (lit "false") arrayBuilder.

Definition AddNull (arrayBuilder : ArrayBuilderStruct) : ArrayBuilderStruct :=
  AddJSON (lit "null") arrayBuilder.

Definition Done (arrayBuilder : ArrayBuilderStruct) : gostring :=
  if Builder.Len (ab_b arrayBuilder) =? 0 then lit "[]"
  else Builder.WriteRune (ab_b arrayBuilder) "]"%rune.
End ArrayBuilder.

(** ** The value model (object.go, array.go)

    One map per kind of value; [o_keys] is the order of the members of an
    object, [a_length] the number of elements of an array. *)

Inductive ObjectStruct : Type := mkObject {
  o_strings : option (gmap gostring gostring);
  o_numbers : option (gmap gostring gostring);
  o_bools : option (gmap gostring bool);
  o_nulls : option (gmap gostring unit);
  o_objects : option (gmap gostring ObjectStruct);
  o_arrays : option (gmap gostring ArrayStruct);
  o_keys : list gostring;
}
with ArrayStruct : Type := mkArray {
  a_strings : option (gmap Z gostring);
  a_numbers : option (gmap Z gostring);
  a_bools : option (gmap Z bool);
  a_nulls : option (gmap Z unit);
  a_objects : option (gmap Z ObjectStruct);
  a_arrays : option (gmap Z ArrayStruct);
  a_length : Z;
}.

Module Object.
(** [ObjectStruct{}]: "the zero value is a ready-to-use empty object". *)
Definition zero : ObjectStruct := mkObject None None None None None None [].

Definition Has (key : gostring) (object : ObjectStruct) : bool :=
  match go_get (o_strings object) key with Some _ => true | None =>
  match go_get (o_numbers object) key with Some _ => true | None =>
  match go_get (o_bools object) key with Some _ => true | None =>
  match go_get (o_nulls object) key with Some _ => true | None =>
  match go_get (o_objects object) key with Some _ => true | None =>
  match go_get (o_arrays object) key with Some _ => true | None =>
  false
  end end end end end end.

Definition addKey (key : gostring) (object : ObjectStruct) : ObjectStruct :=
  let '(mkObject strings numbers bools nulls objects arrays keys) := object in
  match go_get strings key with
  | Some _ => mkObject (go_delete strings key) numbers bools nulls objects arrays keys
  | None =>
  match go_get numbers key with
  | Some _ => mkObject strings (go_delete numbers key) bools nulls objects arrays keys
  | None =>
  match go_get nulls key with
  | Some _ => mkObject strings numbers bools (go_delete nulls key) objects arrays keys
  | None =>
  match go_get bools key with
  | Some _ => mkObject strings numbers (go_delete bools key) nulls objects arrays keys
  | None =>
  match go_get objects key with
  | Some _ => mkObject strings numbers bools nulls (go_delete objects key) arrays keys
  | None =>
  match go_get arrays key with
  | Some _ => mkObject strings numbers bools nulls objects (go_delete arrays key) keys
  | None => mkObject strings numbers bools nulls objects arrays (keys ++ [key])
  end end end end end end.

Definition SetString (key value : gostring) (object : ObjectStruct) : ObjectStruct :=
  let '(mkObject strings numbers bools nulls objects arrays keys) := addKey key object in
  mkObject (go_set (go_make_if_nil strings) key value) numbers bools nulls objects arrays keys.

Definition GetString (key : gostring) (object : ObjectStruct) : result gostring :=
  match o_strings object with
  | None => Err NoMatchingMember
  | Some strings =>
      match strings !! key with
      | None => Err NoMatchingMember
      | Some value => Ok value
      end
  end.

Definition SetNumber (key value : gostring) (object : ObjectStruct) : ObjectStruct :=
  let '(mkObject strings numbers bools nulls objects arrays keys) := addKey key object in
  mkObject strings (go_set (go_make_if_nil numbers) key value) bools nulls objects arrays keys.

Definition GetNumber (key : gostring) (object : ObjectStruct) : result gostring :=
  match o_numbers object with
  | None => Err NoMatchingMember
  | Some numbers =>
      match numbers !! key with
      | None => Err NoMatchingMember
      | Some value => Ok value
      end
  end.

Definition SetInt (key : gostring) (value : Z) (object : ObjectStruct) : ObjectStruct :=
  SetNumber key (strconv.FormatInt value) object.

Definition GetInt (key : gostring) (object : ObjectStruct) : result Z :=
  match o_numbers object with
  | None => Err NoMatchingMember
  | Some numbers =>
      match numbers !! key with
      | None => Err NoMatchingMember
      | Some value =>
          match strconv.Atoi value with
          | (_, Some _) => Err NoMatchingMember
          | (parsed, None) => Ok parsed
          end
      end
  end.

Definition SetInt32 (key : gostring) (value : Z) (object : ObjectStruct) : ObjectStruct :=
  SetNumber key (strconv.FormatInt value) object.

Definition GetInt32 (key : gostring) (object : ObjectStruct) : result Z :=
  match o_numbers object with
  | None => Err NoMatchingMember
  | Some numbers =>
      match numbers !! key with
      | None => Err NoMatchingMember
      | Some value =>
          match strconv.ParseUint value 32 with
          | (_, Some _) => Err NoMatchingMember
          | (parsed, None) => Ok (int32 parsed)
          end
      end
  end.

Definition SetInt64 (key : gostring) (value : Z) (object : ObjectStruct) : ObjectStruct :=
  SetNumber key (strconv.FormatInt value) object.

Definition GetInt64 (key : gostring) (object : ObjectStruct) : result Z :=
  match o_numbers object with
  | None => Err NoMatchingMember
  | Some numbers =>
      match numbers !! key with
      | None => Err NoMatchingMember
      | Some value =>
          match strconv.ParseInt value 64 with
          | (_, Some _) => Err NoMatchingMember
          | (parsed, None) => Ok parsed
          end
      end
  end.

Definition SetBool (key : gostring) (value : bool) (object : ObjectStruct) : ObjectStruct :=
  let '(mkObject strings numbers bools nulls objects arrays keys) := addKey key object in
  mkObject strings numbers (go_set (go_make_if_nil bools) key value) nulls objects arrays keys.

Definition GetBool (key : gostring) (object : ObjectStruct) : result bool :=
  match o_bools object with
  | None => Err NoMatchingMember
  | Some bools =>
      match bools !! key with
      | None => Err NoMatchingMember
      | Some value => Ok value
      end
  end.

Definition SetJSONObject (key : gostring) (value : ObjectStruct) (object : ObjectStruct) : ObjectStruct :=
  let '(mkObject strings numbers bools nulls objects arrays keys) := addKey key object in
  mkObject strings numbers bools nulls (go_set (go_make_if_nil objects) key value) arrays keys.

Definition GetJSONObject (key : gostring) (object : ObjectStruct) : result ObjectStruct :=
  match o_objects object with
  | None => Err NoMatchingMember
  | Some objects =>
      match objects !! key with
      | None => Err NoMatchingMember
      | Some value => Ok value
      end
  end.

Definition SetJSONArray (key : gostring) (value : ArrayStruct) (object : ObjectStruct) : ObjectStruct :=
  let '(mkObject strings numbers bools nulls objects arrays keys) := addKey key object in
  mkObject strings numbers bools nulls objects (go_set (go_make_if_nil arrays) key value) keys.

Definition GetJSONArray (key : gostring) (object : ObjectStruct) : result ArrayStruct :=
  match o_arrays object with
  | None => Err NoMatchingMember
  | Some arrays =>
      match arrays !! key with
      | None => Err NoMatchingMember
      | Some value => Ok value
      end
  end.

Definition SetNull (key : gostring) (object : ObjectStruct) : ObjectStruct :=
  let '(mkObject strings numbers bools nulls objects arrays keys) := addKey key object in
  mkObject strings numbers bools (go_set (go_make_if_nil nulls) key ()) objects arrays keys.

Definition IsNull (key : gostring) (object : ObjectStruct) : result bool :=
  match go_get (o_nulls object) key with
  | None => Err NoMatchingMember
  | Some _ => Ok true
  end.

Definition ExistsAndIsNull (key : gostring) (object : ObjectStruct) : bool :=
  match go_get (o_nulls object) key with
  | None => false
  | Some _ => true
  end.
End Object.

Module Array.
(** [ArrayStruct{}] *)
Definition zero : ArrayStruct := mkArray None None None None None None 0.

Definition NewArray : ArrayStruct :=
  mkArray (Some ∅) (Some ∅) (Some ∅) (Some ∅) (Some ∅) (Some ∅) 0.

Definition Length (array : ArrayStruct) : Z := a_length array.

Definition removeElement (index : Z) (array : ArrayStruct) : ArrayStruct :=
  let '(mkArray strings numbers bools nulls objects arrays length) := array in
  mkArray (go_delete strings index) (go_delete numbers index) (go_delete bools index)
    (go_delete nulls index) (go_delete objects index) (go_delete arrays index) length.

Definition out_of_bounds : string := "out of bounds".

Definition SetString (index : Z) (value : gostring) (array : ArrayStruct) : ArrayStruct * outcome :=
  if index >=? a_length array then (array, Panicked out_of_bounds)
  else
    let array := removeElement index array in
    let '(mkArray strings numbers bools nulls objects arrays length) := array in
    match go_set strings index value with
    | None => (array, Panicked nil_map_write)
    | Some strings => (mkArray (Some strings) numbers bools nulls objects arrays length, Returned)
    end.

Definition AddString (value : gostring) (array : ArrayStruct) : ArrayStruct * outcome :=
  let '(mkArray strings numbers bools nulls objects arrays length) := array in
  match go_set strings length value with
  | None => (array, Panicked nil_map_write)
  | Some strings =>
      (mkArray (Some strings) numbers bools nulls objects arrays (incr_int length), Returned)
  end.

Definition GetString (index : Z) (array : ArrayStruct) : result gostring :=
  match go_get (a_strings array) index with
  | None => Err NoMatchingMember
  | Some value => Ok value
  end.

Definition SetNumber (index : Z) (value : gostring) (array : ArrayStruct) : ArrayStruct * outcome :=
  if index >=? a_length array then (array, Panicked out_of_bounds)
  else
    let array := removeElement index array in
    let '(mkArray strings numbers bools nulls objects arrays length) := array in
    match go_set numbers index value with
    | None => (array, Panicked nil_map_write)
    | Some numbers => (mkArray strings (Some numbers) bools nulls objects arrays length, Returned)
    end.

Definition AddNumber (value : gostring) (array : ArrayStruct) : ArrayStruct * outcome :=
  let '(mkArray strings numbers bools nulls objects arrays length) := array in
  match go_set numbers length value with
  | None => (array, Panicked nil_map_write)
  | Some numbers =>
      (mkArray strings (Some numbers) bools nulls objects arrays (incr_int length), Returned)
  end.

Definition GetNumber (key : Z) (array : ArrayStruct) : result gostring :=
  match go_get (a_numbers array) key with
  | None => Err NoMatchingMember
  | Some value => Ok value
  end.

Definition SetInt (index : Z) (value : Z) (array : ArrayStruct) : ArrayStruct * outcome :=
  SetNumber index (strconv.FormatInt value) array.

Definition AddInt (value : Z) (array : ArrayStruct) : ArrayStruct * outcome :=
  AddNumber (strconv.FormatInt value) array.

Definition GetInt (key : Z) (array : ArrayStruct) : result Z :=
  value ← wrap FailedToGetNumber (GetNumber key array);
  match strconv.Atoi value with
  | (_, Some err) => Err (FailedToParseInt err)
  | (parsed, None) => Ok parsed
  end.

Definition SetInt64 (index : Z) (value : Z) (array : ArrayStruct) : ArrayStruct * outcome :=
  SetNumber index (strconv.FormatInt value) array.

Definition AddInt64 (value : Z) (array : ArrayStruct) : ArrayStruct * outcome :=
  AddNumber (strconv.FormatInt value) array.

Definition GetInt64 (key : Z) (array : ArrayStruct) : result Z :=
  value ← wrap FailedToGetNumber (GetNumber key array);
  match strconv.ParseInt value 64 with
  | (_, Some err) => Err (FailedToParseInt64 err)
  | (parsed, None) => Ok parsed
  end.

Definition SetInt32 (index : Z) (value : Z) (array : ArrayStruct) : ArrayStruct * outcome :=
  SetNumber index (strconv.FormatInt value) array.

Definition AddInt32 (value : Z) (array : ArrayStruct) : ArrayStruct * outcome :=
  AddNumber (strconv.FormatInt value) array.

Definition GetInt32 (key : Z) (array : ArrayStruct) : result Z :=
  value ← wrap FailedToGetNumber (GetNumber key array);
  match strconv.ParseInt value 32 with
  | (_, Some err) => Err (FailedToParseInt32 err)
  | (parsed, None) => Ok (int32 parsed)
  end.

Definition SetBool (index : Z) (value : bool) (array : ArrayStruct) : ArrayStruct * outcome :=
  if index >=? a_length array then (array, Panicked out_of_bounds)
  else
    let array := removeElement index array in
    let '(mkArray strings numbers bools nulls objects arrays length) := array in
    match go_set bools index value with
    | None => (array, Panicked nil_map_write)
    | Some bools => (mkArray strings numbers (Some bools) nulls objects arrays length, Returned)
    end.

Definition AddBool (value : bool) (array : ArrayStruct) : ArrayStruct * outcome :=
  let '(mkArray strings numbers bools nulls objects arrays length) := array in
  match go_set bools length value with
  | None => (array, Panicked nil_map_write)
  | Some bools =>
      (mkArray strings numbers (Some bools) nulls objects arrays (incr_int length), Returned)
  end.

Definition GetBool (index : Z) (array : ArrayStruct) : result bool :=
  match go_get (a_bools array) index with
  | None => Err NoMatchingMember
  | Some value => Ok value
  end.

Definition SetJSONObject (index : Z) (value : ObjectStruct) (array : ArrayStruct) : ArrayStruct * outcome :=
  if index >=? a_length array then (array, Panicked out_of_bounds)
  else
    let array := removeElement index array in
    let '(mkArray strings numbers bools nulls objects arrays length) := array in
    match go_set objects index value with
    | None => (array, Panicked nil_map_write)
    | Some objects => (mkArray strings numbers bools nulls (Some objects) arrays length, Returned)
    end.

Definition AddJSONObject (value : ObjectStruct) (array : ArrayStruct) : ArrayStruct * outcome :=
  let '(mkArray strings numbers bools nulls objects arrays length) := array in
  match go_set objects length value with
  | None => (array, Panicked nil_map_write)
  | Some objects =>
      (mkArray strings numbers bools nulls (Some objects) arrays (incr_int length), Returned)
  end.

Definition GetJSONObject (index : Z) (array : ArrayStruct) : result ObjectStruct :=
  match go_get (a_objects array) index with
  | None => Err NoMatchingMember
  | Some value => Ok value
  end.

Definition SetJSONArray (index : Z) (value : ArrayStruct) (array : ArrayStruct) : ArrayStruct * outcome :=
  if index >=? a_length array then (array, Panicked out_of_bounds)
  else
    let array := removeElement index array in
    let '(mkArray strings numbers bools nulls objects arrays length) := array in
    match go_set arrays index value with
    | None => (array, Panicked nil_map_write)
    | Some arrays => (mkArray strings numbers bools nulls objects (Some arrays) length, Returned)
    end.

Definition AddJSONArray (value : ArrayStruct) (array : ArrayStruct) : ArrayStruct * outcome :=
  let '(mkArray strings numbers bools nulls objects arrays length) := array in
  match go_set arrays length value with
  | None => (array, Panicked nil_map_write)
  | Some arrays =>
      (mkArray strings numbers bools nulls objects (Some arrays) (incr_int length), Returned)
  end.

Definition GetJSONArray (index : Z) (array : ArrayStruct) : result ArrayStruct :=
  match go_get (a_arrays array) index with
  | None => Err NoMatchingMember
  | Some value => Ok value
  end.

Definition SetNull (index : Z) (array : ArrayStruct) : ArrayStruct * outcome :=
  if index >=? a_length array then (array, Panicked out_of_bounds)
  else
    let array := removeElement index array in
    let '(mkArray strings numbers bools nulls objects arrays length) := array in
    match go_set nulls index () with
    | None => (array, Panicked nil_map_write)
    | Some nulls => (mkArray strings numbers bools (Some nulls) objects arrays length, Returned)
    end.

Definition AddNull (array : ArrayStruct) : ArrayStruct * outcome :=
  let '(mkArray strings numbers bools nulls objects arrays length) := array in
  match go_set nulls length () with
  | None => (array, Panicked nil_map_write)
  | Some nulls =>
      (mkArray strings numbers bools (Some nulls) objects arrays (incr_int length), Returned)
  end.

Definition IsNull (index : Z) (array : ArrayStruct) : result bool :=
  match go_get (a_nulls array) index with
  | None => Err NoMatchingMember
  | Some _ => Ok true
  end.

Definition ExistsAndIsNull (index : Z) (array : ArrayStruct) : bool :=
  match go_get (a_nulls array) index with
  | None => false
  | Some _ => true
  end.
End Array.

(** ** Serialization ([String] of array.go and of object.go)

    [ArrayStruct.String] takes the escaping policy and hands it to the
    builder and to the nested values.  For a nested object it calls
    [value.String(stringCharacterEscapingBehavior)]; the [String] of
    object.go takes no parameter, so the method that is called there is not
    in the source, and the text that it returns is the parameter
    [objectString] here.  The nested arrays are serialized first
    ([arrayTexts]); a lookup in this map is the lookup of the nested array
    followed by its [String]. *)

Section array_String.
Variable objectString : StringCharacterEscapingBehaviorInterface → ObjectStruct → gostring.

Fixpoint ArrayStruct_String (policy : StringCharacterEscapingBehaviorInterface)
    (array : ArrayStruct) : gostring :=
  let '(mkArray strings numbers bools nulls objects arrays length) := array in
  let arrayTexts := fmap (M := option) (fmap (M := gmap Z) (ArrayStruct_String policy)) arrays in
  let element (builder : ArrayBuilderStruct) (i : Z) : ArrayBuilderStruct :=
    match go_get strings i with Some value => ArrayBuilder.AddString value builder | None =>
    match go_get numbers i with Some value => ArrayBuilder.AddJSON value builder | None =>
    match go_get bools i with Some value => ArrayBuilder.AddBool value builder | None =>
    match go_get nulls i with Some _ => ArrayBuilder.AddNull builder | None =>
    match go_get objects i with
    | Some value => ArrayBuilder.AddJSON (objectString policy value) builder
    | None =>
    match go_get arrayTexts i with Some text => ArrayBuilder.AddJSON text builder | None =>
    builder
    end end end end end end in
  ArrayBuilder.Done (foldl element (ArrayBuilder.NewArrayBuilder policy) (seqZ 0 length)).
End array_String.

(** [ObjectStruct.String] takes no parameter.  Its builder is the zero
    value [ObjectBuilderStruct{}]; it walks [keys], and a panic of a call
    ends it.  For a nested object it calls itself ([objectTexts]: the
    nested objects with their [String]); for a nested array it calls
    [value.String()] without a policy, a method that is not in the source
    either, and whose text is the parameter [arrayString].  An argument
    of [AddJSON] is evaluated before the call. *)

Section object_String.
Variable arrayString : ArrayStruct → gostring.

Fixpoint ObjectStruct_String (object : ObjectStruct) : result gostring :=
  let '(mkObject strings numbers bools nulls objects arrays keys) := object in
  let objectTexts := fmap (M := option) (fmap (M := gmap gostring) ObjectStruct_String) objects in
  let member (builder : result ObjectBuilderStruct) (key : gostring) : result ObjectBuilderStruct :=
    builder ← builder;
    match go_get strings key with Some value => ObjectBuilder.AddString key value builder | None =>
    match go_get numbers key with Some value => ObjectBuilder.AddJSON key value builder | None =>
    match go_get bools key with Some value => ObjectBuilder.AddBool key value builder | None =>
    match go_get nulls key with Some _ => ObjectBuilder.AddNull key builder | None =>
    match go_get objectTexts key with
    | Some text => text ← text; ObjectBuilder.AddJSON key text builder
    | None =>
    match go_get arrays key with
    | Some value => ObjectBuilder.AddJSON key (arrayString value) builder
    | None => Ok builder
    end end end end end end in
  builder ← foldl member (Ok ObjectBuilder.zero) keys;
  ObjectBuilder.Done builder.
End object_String.

(** ** The parser (parse.go)

    A [strings.Reader] is the list of the runes not yet read.  [ReadRune]
    takes the head of the list and fails with [io.EOF] on the empty list;
    [UnreadRune], which the parser only calls right after a successful
    [ReadRune], goes back to the list before that read. *)

Abbreviation Reader := (list Z).

Definition isIdentifierCharacter (r : rune) : bool :=
  if ("A"%rune <=? r) && (r <=? "Z"%rune) then true
  else if ("a"%rune <=? r) && (r <=? "z"%rune) then true
  else false.

Definition isDigitCharacter (r : rune) : bool :=
  ("0"%rune <=? r) && (r <=? "9"%rune).

Definition isWhitespace (char : rune) : bool :=
  (char =? TAB) || (char =? NEWLINE) || (char =? " "%rune) || (char =? CARRIAGERETURN).

Fixpoint skipWhitespace (r : Reader) : result Reader :=
  match r with
  | [] => Ok []
  | char :: r' =>
      if char =? unicode.ReplacementChar then Err InvalidEncoding
      else if isWhitespace char then skipWhitespace r'
      else Ok r
  end.

Fixpoint parseEnd (r : Reader) : result unit :=
  match r with
  | [] => Ok ()
  | char :: r' =>
      if char =? unicode.ReplacementChar then Err InvalidEncoding
      else if isWhitespace char then parseEnd r'
      else Err UnexpectedTrailingCharacter
  end.

(** The value of one digit of a [\uXXXX] escape. *)
Definition hexValue (char : rune) : option rune :=
  if ("0"%rune <=? char) && (char <=? "9"%rune) then Some (char - "0"%rune)
  else if ("A"%rune <=? char) && (char <=? "F"%rune) then Some (char - "A"%rune + 10)
  else if ("a"%rune <=? char) && (char <=? "f"%rune) then Some (char - "a"%rune + 10)
  else None.

(** The loop of [parseString], after the opening quote: [b] is the text
    decoded so far, [prevHex] the pending surrogate (0 when there is none).
    The four reads of the [\u] case are written out one after the other. *)
Fixpoint parseString_loop (r : Reader) (b : gostring) (prevHex : rune) {struct r}
    : result (gostring * Reader) :=
  match r with
  | [] => Err FailedToReadRune
  | char :: r =>
    if char =? DQUOTE then
      if prevHex >? 0 then Err (UnexpectedCharacter char) else Ok (b, r)
    else if char =? BACKSLASH then
      match r with
      | [] => Err FailedToReadRune
      | char :: r =>
        if char =? "u"%rune then
          match r with [] => Err FailedToReadRune | char0 :: r =>
          match hexValue char0 with None => Err InvalidHexEncoding | Some b0 =>
          match r with [] => Err FailedToReadRune | char1 :: r =>
          match hexValue char1 with None => Err InvalidHexEncoding | Some b1 =>
          match r with [] => Err FailedToReadRune | char2 :: r =>
          match hexValue char2 with None => Err InvalidHexEncoding | Some b2 =>
          match r with [] => Err FailedToReadRune | char3 :: r =>
          match hexValue char3 with None => Err InvalidHexEncoding | Some b3 =>
            let decoded :=
              Z.lor (Z.lor (Z.lor (Z.lor 0 (Z.shiftl b0 12)) (Z.shiftl b1 8))
                (Z.shiftl b2 4)) (Z.shiftl b3 0) in
            if prevHex >? 0 then
              let decoded := utf16.DecodeRune prevHex decoded in
              if decoded =? unicode.ReplacementChar then Err InvalidCharacterEncoding
              else parseString_loop r (Builder.WriteRune b decoded) 0
            else if utf16.IsSurrogate decoded then parseString_loop r b decoded
            else parseString_loop r (Builder.WriteRune b decoded) prevHex
          end end end end end end end end
        else if prevHex >? 0 then Err ExpectedHexEncoding
        else if (char =? DQUOTE) || (char =? BACKSLASH) || (char =? "/"%rune)
          then parseString_loop r (Builder.WriteRune b char) prevHex
        else if char =? "b"%rune then parseString_loop r (Builder.WriteRune b BACKSPACE) prevHex
        else if char =? "f"%rune then parseString_loop r (Builder.WriteRune b FORMFEED) prevHex
        else if char =? "n"%rune then parseString_loop r (Builder.WriteRune b NEWLINE) prevHex
        else if char =? "r"%rune then parseString_loop r (Builder.WriteRune b CARRIAGERETURN) prevHex
        else if char =? "t"%rune then parseString_loop r (Builder.WriteRune b TAB) prevHex
        else Err (UnexpectedEscapeCharacter char)
      end
    else if prevHex >? 0 then Err ExpectedHexEncoding
    else if (char <? 0x20) || (char >? 0x10ffff) then Err InvalidCharacter
    else parseString_loop r (Builder.WriteRune b char) prevHex
  end.

Definition parseString (r : Reader) : result (gostring * Reader) :=
  match r with
  | [] => Err FailedToReadRune
  | char :: r =>
      if char =? unicode.ReplacementChar then Err InvalidEncoding
      else if negb (char =? DQUOTE) then Err (UnexpectedCharacter char)
      else parseString_loop r [] 0
  end.

(** The three digit loops of [extractNumber]. *)
Fixpoint extractNumber_integerDigits (r : Reader) (extracted : gostring)
    : result (gostring * Reader) :=
  match r with
  | [] => Err FailedToReadRune
  | char :: r' =>
      if char =? unicode.ReplacementChar then Err InvalidCharacterEncoding
      else if negb (isDigitCharacter char) then Ok (extracted, r)
      else extractNumber_integerDigits r' (extracted ++ [char])
  end.

Fixpoint extractNumber_fractionDigits (r : Reader) (extracted : gostring)
    : result (gostring * Reader) :=
  match r with
  | [] => Err FailedToReadRune
  | char :: r' =>
      if char =? unicode.ReplacementChar then Err InvalidEncoding
      else if negb (isDigitCharacter char) then Ok (extracted, r)
      else extractNumber_fractionDigits r' (extracted ++ [char])
  end.

Fixpoint extractNumber_exponentDigits (r : Reader) (extracted : gostring)
    : result (gostring * Reader) :=
  match r with
  | [] => Ok (extracted, [])
  | char :: r' =>
      if char =? unicode.ReplacementChar then Err InvalidEncoding
      else if negb (isDigitCharacter char) then Ok (extracted, r)
      else extractNumber_exponentDigits r' (extracted ++ [char])
  end.

Definition extractNumber (r : Reader) : result (gostring * Reader) :=
  let extracted : gostring := [] in
  match r with [] => Err FailedToReadRune | char :: r' =>
  if char =? unicode.ReplacementChar then Err InvalidEncoding else
  let '(extracted, r) :=
    if char =? "-"%rune then (extracted ++ [char], r') else (extracted, r) in
  match r with [] => Err FailedToReadRune | char :: r' =>
  if char =? unicode.ReplacementChar then Err InvalidEncoding else
  '(extracted, r) ←
    (if char =? "0"%rune then Ok (extracted ++ [char], r')
     else if ("1"%rune <=? char) && (char <=? "9"%rune)
       then extractNumber_integerDigits r' (extracted ++ [char])
     else Err (UnexpectedCharacter char));
  match r with [] => Ok (extracted, []) | char :: r' =>
  if char =? unicode.ReplacementChar then Err InvalidEncoding else
  '(extracted, r) ←
    (if char =? "."%rune then extractNumber_fractionDigits r' (extracted ++ [char])
     else Ok (extracted, r));
  match r with [] => Ok (extracted, []) | char :: r' =>
  if char =? unicode.ReplacementChar then Err InvalidEncoding else
  if (char =? "E"%rune) || (char =? "e"%rune) then
    let extracted := extracted ++ [char] in
    let r := r' in
    match r with [] => Err FailedToReadRune | char :: r' =>
    if char =? unicode.ReplacementChar then Err InvalidEncoding else
    let '(extracted, r) :=
      if (char =? "-"%rune) || (char =? "+"%rune) then (extracted ++ [char], r')
      else (extracted, r) in
    match r with [] => Err FailedToReadRune | char :: r' =>
    if char =? unicode.ReplacementChar then Err InvalidEncoding else
    if negb (isDigitCharacter char) then Err (UnexpectedCharacter char) else
    extractNumber_exponentDigits r' (extracted ++ [char])
    end end
  else Ok (extracted, r)
  end end end end.

Fixpoint extractIdentifier_loop (r : Reader) (extracted : gostring)
    : result (gostring * Reader) :=
  match r with
  | [] => Ok (extracted, [])
  | char :: r' =>
      if char =? unicode.ReplacementChar then Err InvalidEncoding
      else if negb (isIdentifierCharacter char) then Ok (extracted, r)
      else extractIdentifier_loop r' (extracted ++ [char])
  end.

Definition extractIdentifier (r : Reader) : result (gostring * Reader) :=
  match r with
  | [] => Err FailedToReadRune
  | char :: r =>
      if char =? unicode.ReplacementChar then Err InvalidEncoding
      else if negb (isIdentifierCharacter char) then Err (UnexpectedCharacter char)
      else extractIdentifier_loop r [char]
  end.

(** A method of [ArrayStruct] called by the parser: a panic ends the parse. *)
Definition called (x : ArrayStruct * outcome) : result ArrayStruct :=
  match x with
  | (array, Returned) => Ok array
  | (_, Panicked msg) => Panic msg
  end.

(** [parseEmbeddedObject] and [parseEmbeddedArray] call each other and loop
    over the members; [fuel] bounds the number of calls and iterations.
    Every call and every iteration reads at least one rune, so the entry
    points below give enough fuel (see [ParseObject_fuel], [ParseArray_fuel]). *)
Fixpoint parseEmbeddedObject (fuel : nat) (r : Reader) {struct fuel}
    : result (ObjectStruct * Reader) :=
  match fuel with
  | O => OutOfFuel
  | S fuel =>
    let object := Object.zero in
    r ← skipWhitespace r;
    match r with
    | [] => Err FailedToReadRune
    | char :: r =>
      if char =? unicode.ReplacementChar then Err InvalidEncoding
      else if negb (char =? "{"%rune) then Err (UnexpectedCharacter char)
      else parseEmbeddedObject_loop fuel object r
    end
  end

with parseEmbeddedObject_loop (fuel : nat) (object : ObjectStruct) (r : Reader) {struct fuel}
    : result (ObjectStruct * Reader) :=
  match fuel with
  | O => OutOfFuel
  | S fuel =>
    r ← skipWhitespace r;
    match r with [] => Err FailedToReadRune | char :: r' =>
    if char =? unicode.ReplacementChar then Err InvalidEncoding else
    if char =? "}"%rune then Ok (object, r') else
    '(key, r) ← wrap FailedToParseMemberName (parseString r);
    if Object.Has key object then Err (DuplicateMemberName key) else
    r ← skipWhitespace r;
    match r with [] => Err FailedToReadRune | char :: r =>
    if char =? unicode.ReplacementChar then Err InvalidEncoding else
    if negb (char =? ":"%rune) then Err (UnexpectedCharacter char) else
    r ← skipWhitespace r;
    match r with [] => Err FailedToReadRune | nextChar :: _ =>
    if char =? unicode.ReplacementChar then Err InvalidEncoding else
    '(object, r) ←
      (if nextChar =? "{"%rune then
         '(value, r) ← wrap FailedToParseObject (parseEmbeddedObject fuel r);
         Ok (Object.SetJSONObject key value object, r)
       else if nextChar =? "["%rune then
         '(value, r) ← wrap FailedToParseArray (parseEmbeddedArray fuel r);
         Ok (Object.SetJSONArray key value object, r)
       else if nextChar =? DQUOTE then
         '(value, r) ← wrap FailedToParseString (parseString r);
         Ok (Object.SetString key value object, r)
       else if isDigitCharacter nextChar then
         '(value, r) ← wrap FailedToExtractNumber (extractNumber r);
         Ok (Object.SetNumber key value object, r)
       else
         '(value, r) ← wrap FailedToExtractIdentifier (extractIdentifier r);
         if decide (value = lit "true") then Ok (Object.SetBool key true object, r)
         else if decide (value = lit "false") then Ok (Object.SetBool key false object, r)
         else if decide (value = lit "null") then Ok (Object.SetNull key object, r)
         else Err (UnexpectedIdentifier value));
    r ← skipWhitespace r;
    match r with [] => Err FailedToReadRune | char :: r =>
    if char =? unicode.ReplacementChar then Err InvalidEncoding else
    if char =? "}"%rune then Ok (object, r) else
    if negb (char =? ","%rune) then Err (UnexpectedCharacter char) else
    parseEmbeddedObject_loop fuel object r
    end end end end
  end

with parseEmbeddedArray (fuel : nat) (r : Reader) {struct fuel}
    : result (ArrayStruct * Reader) :=
  match fuel with
  | O => OutOfFuel
  | S fuel =>
    let array := Array.zero in
    r ← skipWhitespace r;
    match r with
    | [] => Err FailedToReadRune
    | char :: r =>
      if char =? unicode.ReplacementChar then Err InvalidEncoding
      else if negb (char =? "["%rune) then Err (UnexpectedCharacter char)
      else parseEmbeddedArray_loop fuel array r
    end
  end

with parseEmbeddedArray_loop (fuel : nat) (array : ArrayStruct) (r : Reader) {struct fuel}
    : result (ArrayStruct * Reader) :=
  match fuel with
  | O => OutOfFuel
  | S fuel =>
    r ← skipWhitespace r;
    match r with [] => Err FailedToReadRune | char :: r' =>
    if char =? unicode.ReplacementChar then Err InvalidEncoding else
    if char =? "]"%rune then Ok (array, r') else
    match r with [] => Err FailedToReadRune | nextChar :: _ =>
    if char =? unicode.ReplacementChar then Err InvalidEncoding else
    '(array, r) ←
      (if nextChar =? "{"%rune then
         '(value, r) ← parseEmbeddedObject fuel r;
         array ← called (Array.AddJSONObject value array);
         Ok (array, r)
       else if nextChar =? "["%rune then
         '(value, r) ← parseEmbeddedArray fuel r;
         array ← called (Array.AddJSONArray value array);
         Ok (array, r)
       else if nextChar =? DQUOTE then
         '(value, r) ← parseString r;
         array ← called (Array.AddString value array);
         Ok (array, r)
       else if isDigitCharacter nextChar then
         '(value, r) ← extractNumber r;
         array ← called (Array.AddNumber value array);
         Ok (array, r)
       else
         '(value, r) ← extractIdentifier r;
         if decide (value = lit "true") then
           array ← called (Array.AddBool true array); Ok (array, r)
         else if decide (value = lit "false") then
           array ← called (Array.AddBool false array); Ok (array, r)
         else if decide (value = lit "null") then
           array ← called (Array.AddNull array); Ok (array, r)
         else Err (UnexpectedIdentifier value));
    r ← skipWhitespace r;
    match r with [] => Err FailedToReadRune | char :: r =>
    if char =? unicode.ReplacementChar then Err InvalidEncoding else
    if char =? "]"%rune then Ok (array, r) else
    if negb (char =? ","%rune) then Err (UnexpectedCharacter char) else
    parseEmbeddedArray_loop fuel array r
    end end end
  end.

(** Fuel for a text [s]: two units per rune and two more. *)
Definition fuel_for (s : gostring) : nat := 2 * length s + 2.

Definition ParseObject (s : gostring) : result ObjectStruct :=
  let r : Reader := s in
  '(parsed, r) ← parseEmbeddedObject (fuel_for s) r;
  _ ← parseEnd r;
  Ok parsed.

Definition ParseArray (s : gostring) : result ArrayStruct :=
  let r : Reader := s in
  '(parsed, r) ← parseEmbeddedArray (fuel_for s) r;
  _ ← parseEnd r;
  Ok parsed.

(** ** Calls of the mutation API

    A [Set*] or [Add*] call is described by its method and its argument. *)

Inductive value : Type :=
  | VString (value : gostring)
  | VNumber (value : gostring)
  | VInt (value : Z)
  | VInt64 (value : Z)
  | VInt32 (value : Z)
  | VBool (value : bool)
  | VJSONObject (value : ObjectStruct)
  | VJSONArray (value : ArrayStruct)
  | VNull.

(** The argument has the type of the parameter: [int], [int64] or [int32]. *)
Definition value_typed (v : value) : Prop :=
  match v with
  | VInt z | VInt64 z => - 2 ^ 63 <= z < 2 ^ 63
  | VInt32 z => - 2 ^ 31 <= z < 2 ^ 31
  | _ => True
  end.

Definition Object_Set (key : gostring) (v : value) (object : ObjectStruct) : ObjectStruct :=
  match v with
  | VString value => Object.SetString key value object
  | VNumber value => Object.SetNumber key value object
  | VInt value => Object.SetInt key value object
  | VInt64 value => Object.SetInt64 key value object
  | VInt32 value => Object.SetInt32 key value object
  | VBool value => Object.SetBool key value object
  | VJSONObject value => Object.SetJSONObject key value object
  | VJSONArray value => Object.SetJSONArray key value object
  | VNull => Object.SetNull key object
  end.

Definition Array_Set (index : Z) (v : value) (array : ArrayStruct) : ArrayStruct * outcome :=
  match v with
  | VString value => Array.SetString index value array
  | VNumber value => Array.SetNumber index value array
  | VInt value => Array.SetInt index value array
  | VInt64 value => Array.SetInt64 index value array
  | VInt32 value => Array.SetInt32 index value array
  | VBool value => Array.SetBool index value array
  | VJSONObject value => Array.SetJSONObject index value array
  | VJSONArray value => Array.SetJSONArray index value array
  | VNull => Array.SetNull index array
  end.

Definition Array_Add (v : value) (array : ArrayStruct) : ArrayStruct * outcome :=
  match v with
  | VString value => Array.AddString value array
  | VNumber value => Array.AddNumber value array
  | VInt value => Array.AddInt value array
  | VInt64 value => Array.AddInt64 value array
  | VInt32 value => Array.AddInt32 value array
  | VBool value => Array.AddBool value array
  | VJSONObject value => Array.AddJSONObject value array
  | VJSONArray value => Array.AddJSONArray value array
  | VNull => Array.AddNull array
  end.

(** The [Get*] call that goes with a [Set*] call returns the value that was set. *)
Definition Array_Get_returns (index : Z) (v : value) (array : ArrayStruct) : Prop :=
  match v with
  | VString value => Array.GetString index array = Ok value
  | VNumber value => Array.GetNumber index array = Ok value
  | VInt value => Array.GetInt index array = Ok value
  | VInt64 value => Array.GetInt64 index array = Ok value
  | VInt32 value => Array.GetInt32 index array = Ok value
  | VBool value => Array.GetBool index array = Ok value
  | VJSONObject value => Array.GetJSONObject index array = Ok value
  | VJSONArray value => Array.GetJSONArray index array = Ok value
  | VNull => Array.IsNull index array = Ok true
  end.

(** An object made by a sequence of [Set*] calls on the zero value. *)
Definition Object_of_calls (calls : list (gostring * value)) : ObjectStruct :=
  foldl (λ object call, Object_Set call.1 call.2 object) Object.zero calls.

(** The arrays a client can hold: the zero value (which is also what
    [ParseArray] starts from), [NewArray()], and what [Add*] and [Set*]
    calls leave behind, whether they return or panic. *)
Inductive Array_built : ArrayStruct → Prop :=
  | built_zero : Array_built Array.zero
  | built_NewArray : Array_built Array.NewArray
  | built_Add v array : Array_built array → Array_built (Array_Add v array).1
  | built_Set index v array : Array_built array → Array_built (Array_Set index v array).1.

(** All six maps have been made. *)
Definition Array_allocated (array : ArrayStruct) : Prop :=
  is_Some (a_strings array) ∧ is_Some (a_numbers array) ∧ is_Some (a_bools array) ∧
  is_Some (a_nulls array) ∧ is_Some (a_objects array) ∧ is_Some (a_arrays array).

(** ** Reference definitions for the statements *)

(** The distinct keys of a sequence of calls, in the order of their first occurrence. *)
Fixpoint first_occurrences (keys : list gostring) : list gostring :=
  match keys with
  | [] => []
  | key :: keys => key :: filter (λ k, k ≠ key) (first_occurrences keys)
  end.

(** The value of the last call on [key]. *)
Definition last_value (calls : list (gostring * value)) (key : gostring) : option value :=
  snd <$> last (filter (λ call, call.1 = key) calls).

(** The JSON text of a value in an array, under a policy; [objectString]
    gives the text of a nested object. *)
Definition value_text
    (objectString : StringCharacterEscapingBehaviorInterface → ObjectStruct → gostring)
    (policy : StringCharacterEscapingBehaviorInterface) (v : value) : gostring :=
  match v with
  | VString value => encodeString value policy
  | VNumber value => value
  | VInt value | VInt64 value | VInt32 value => strconv.FormatInt value
  | VBool true => lit "true"
  | VBool false => lit "false"
  | VJSONObject value => objectString policy value
  | VJSONArray value => ArrayStruct_String objectString policy value
  | VNull => lit "null"
  end.

(** The JSON text of an object with the given members, in the given order. *)
Definition members_text (policy : StringCharacterEscapingBehaviorInterface)
    (members : list (gostring * gostring)) : gostring :=
  match members with
  | [] => lit "{}"
  | first :: rest =>
      "{"%rune :: encodeString first.1 policy ++ ":"%rune :: first.2 ++
      concat ((λ m, ","%rune :: encodeString m.1 policy ++ ":"%rune :: m.2) <$> rest) ++
      ["}"%rune]
  end.

(** The number grammar of the specification as a matcher: an optional
    minus sign; an integer part, either 0 or a digit from 1 to 9 followed by
    any number of digits; an optional fraction, a point followed by one or
    more digits; an optional exponent, e or E, an optional sign, and one or
    more digits.  Each function consumes one group and returns the rest of
    the text. *)
Fixpoint grammar_digits (s : gostring) : gostring :=
  match s with
  | c :: s' => if isDigitCharacter c then grammar_digits s' else s
  | [] => []
  end.

Definition grammar_digits1 (s : gostring) : option gostring :=
  match s with
  | c :: s' => if isDigitCharacter c then Some (grammar_digits s') else None
  | [] => None
  end.

Definition grammar_sign (s : gostring) : gostring :=
  match s with
  | c :: s' => if c =? "-"%rune then s' else s
  | [] => []
  end.

Definition grammar_integer (s : gostring) : option gostring :=
  match s with
  | c :: s' =>
      if c =? "0"%rune then Some s'
      else if ("1"%rune <=? c) && (c <=? "9"%rune) then Some (grammar_digits s')
      else None
  | [] => None
  end.

Definition grammar_fraction (s : gostring) : option gostring :=
  match s with
  | c :: s' => if c =? "."%rune then grammar_digits1 s' else Some s
  | [] => Some []
  end.

Definition grammar_exponent (s : gostring) : option gostring :=
  match s with
  | c :: s' =>
      if (c =? "e"%rune) || (c =? "E"%rune) then
        match s' with
        | c' :: s'' =>
            if (c' =? "+"%rune) || (c' =? "-"%rune) then grammar_digits1 s''
            else grammar_digits1 s'
        | [] => None
        end
      else Some s
  | [] => Some []
  end.

Definition number_grammar (s : gostring) : bool :=
  match
    s ← grammar_integer (grammar_sign s); s ← grammar_fraction s; grammar_exponent s
  with
  | Some [] => true
  | _ => false
  end.

(** A policy that never keeps a character and never uses a shorthand. *)
Definition hexOnlyBehavior : StringCharacterEscapingBehaviorInterface :=
  {| UseCharacter := λ _, false; UseShorthandEscapeSequence := λ _, false |}.

(** The value of four hex digits. *)
Definition hex4 (b0 b1 b2 b3 : Z) : Z := b0 * 4096 + b1 * 256 + b2 * 16 + b3.

(** The input starts with a [\u] escape of four hex digits whose value is
    a low surrogate: that value and the input after the escape. *)
Definition low_surrogate_escape (r : Reader) : option (rune * Reader) :=
  match r with
  | c :: u :: char0 :: char1 :: char2 :: char3 :: r' =>
      if (c =? BACKSLASH) && (u =? "u"%rune) then
        b0 ← hexValue char0; b1 ← hexValue char1;
        b2 ← hexValue char2; b3 ← hexValue char3;
        let lo := hex4 b0 b1 b2 b3 in
        if (0xDC00 <=? lo) && (lo <? 0xE000) then Some (lo, r') else None
      else None
  | _ => None
  end.

(** The code point of a surrogate pair. *)
Definition surrogate_pair (hi lo : rune) : rune :=
  0x10000 + (hi - 0xD800) * 0x400 + (lo - 0xDC00).

(** The number written by a sequence of decimal digits that follows [acc]. *)
Fixpoint uint_value (d : Decimal.uint) (acc : Z) : Z :=
  match d with
  | Decimal.Nil => acc
  | Decimal.D0 d => uint_value d (acc * 10 + 0)
  | Decimal.D1 d => uint_value d (acc * 10 + 1)
  | Decimal.D2 d => uint_value d (acc * 10 + 2)
  | Decimal.D3 d => uint_value d (acc * 10 + 3)
  | Decimal.D4 d => uint_value d (acc * 10 + 4)
  | Decimal.D5 d => uint_value d (acc * 10 + 5)
  | Decimal.D6 d => uint_value d (acc * 10 + 6)
  | Decimal.D7 d => uint_value d (acc * 10 + 7)
  | Decimal.D8 d => uint_value d (acc * 10 + 8)
  | Decimal.D9 d => uint_value d (acc * 10 + 9)
  end.

(** What a member of an object or an element of an array holds: a value of
    one of the six kinds. *)
Inductive slot : Type :=
  | SString (value : gostring)
  | SNumber (value : gostring)
  | SBool (value : bool)
  | SNull
  | SObject (value : ObjectStruct)
  | SArray (value : ArrayStruct).

(** What a [Set*] or [Add*] call stores. *)
Definition slot_of (v : value) : slot :=
  match v with
  | VString value => SString value
  | VNumber value => SNumber value
  | VInt value | VInt64 value | VInt32 value => SNumber (strconv.FormatInt value)
  | VBool value => SBool value
  | VJSONObject value => SObject value
  | VJSONArray value => SArray value
  | VNull => SNull
  end.

(** The JSON text of what a slot holds. *)
Definition slot_text
    (objectString : StringCharacterEscapingBehaviorInterface → ObjectStruct → gostring)
    (policy : StringCharacterEscapingBehaviorInterface) (s : slot) : gostring :=
  match s with
  | SString value => encodeString value policy
  | SNumber value => value
  | SBool true => lit "true"
  | SBool false => lit "false"
  | SNull => lit "null"
  | SObject value => objectString policy value
  | SArray value => ArrayStruct_String objectString policy value
  end.

(** The six lookups of a key, in the order in which [String] makes them. *)
Definition Object_gets (key : gostring) (object : ObjectStruct)
    : option gostring * option gostring * option bool * option unit *
      option ObjectStruct * option ArrayStruct :=
  (go_get (o_strings object) key, go_get (o_numbers object) key,
   go_get (o_bools object) key, go_get (o_nulls object) key,
   go_get (o_objects object) key, go_get (o_arrays object) key).

(** What a key holds: the value of the first lookup that finds one. *)
Definition Object_slot (key : gostring) (object : ObjectStruct) : option slot :=
  match Object_gets key object with
  | (Some value, _, _, _, _, _) => Some (SString value)
  | (None, Some value, _, _, _, _) => Some (SNumber value)
  | (None, None, Some value, _, _, _) => Some (SBool value)
  | (None, None, None, Some _, _, _) => Some SNull
  | (None, None, None, None, Some value, _) => Some (SObject value)
  | (None, None, None, None, None, Some value) => Some (SArray value)
  | (None, None, None, None, None, None) => None
  end.

(** A key is in one map at most. *)
Definition Object_exclusive (key : gostring) (object : ObjectStruct) : Prop :=
  match Object_gets key object with
  | (Some _, None, None, None, None, None)
  | (None, Some _, None, None, None, None)
  | (None, None, Some _, None, None, None)
  | (None, None, None, Some _, None, None)
  | (None, None, None, None, Some _, None)
  | (None, None, None, None, None, Some _)
  | (None, None, None, None, None, None) => True
  | _ => False
  end.

(** The invariant of an object: a key is in one map at most, [keys] has no
    duplicate, and [keys] lists the keys that are in a map. *)
Definition Object_wf (object : ObjectStruct) : Prop :=
  (∀ key, Object_exclusive key object) ∧
  NoDup (o_keys object) ∧
  (∀ key, key ∈ o_keys object ↔ Object.Has key object = true).

(** The builder after the given members have been added. *)
Definition member_text (policy : StringCharacterEscapingBehaviorInterface)
    (m : gostring * gostring) : gostring :=
  encodeString m.1 policy ++ ":"%rune :: m.2.

Definition ObjectBuilder_after (policy : StringCharacterEscapingBehaviorInterface)
    (members : list (gostring * gostring)) : ObjectBuilderStruct :=
  mkObjectBuilder
    (Some
       match members with
       | [] => []
       | first :: rest =>
           "{"%rune :: member_text policy first ++
           concat ((λ m, ","%rune :: member_text policy m) <$> rest)
       end)
    (Some policy) (Z.of_nat (length members)).

(** The six lookups that show a slot. *)
Definition gets_of_slot (s : slot)
    : option gostring * option gostring * option bool * option unit *
      option ObjectStruct * option ArrayStruct :=
  match s with
  | SString value => (Some value, None, None, None, None, None)
  | SNumber value => (None, Some value, None, None, None, None)
  | SBool value => (None, None, Some value, None, None, None)
  | SNull => (None, None, None, Some (), None, None)
  | SObject value => (None, None, None, None, Some value, None)
  | SArray value => (None, None, None, None, None, Some value)
  end.

(** A parser applied to [r] answered [x]: it was given enough fuel, and
    when it returns a value it has read at least one rune of [r]. *)
Definition consumed {A} (r : Reader) (x : result (A * Reader)) : Prop :=
  match x with
  | Ok (_, r') => (length r' < length r)%nat
  | Err _ | Panic _ => True
  | OutOfFuel => False
  end.

(** The parts of a number text: the sign, the integer part, the digits of
    the fraction when there is a point, and the exponent when there is one
    (its letter, its sign, its digits). *)
Record number_parts : Type := mkParts {
  p_minus : bool;
  p_integer : gostring;
  p_fraction : option gostring;
  p_exponent : option (rune * gostring * gostring);
}.

Definition fraction_text (fraction : option gostring) : gostring :=
  match fraction with
  | Some digits => "."%rune :: digits
  | None => []
  end.

Definition exponent_text (exponent : option (rune * gostring * gostring)) : gostring :=
  match exponent with
  | Some (e, sign, digits) => e :: sign ++ digits
  | None => []
  end.

Definition parts_text (p : number_parts) : gostring :=
  (if p_minus p then ["-"%rune] else []) ++
  p_integer p ++ fraction_text (p_fraction p) ++ exponent_text (p_exponent p).

Definition all_digits (s : gostring) : bool := forallb isDigitCharacter s.

(** The integer part is 0, or a digit from 1 to 9 followed by digits. *)
Definition integer_ok (integer : gostring) : bool :=
  match integer with
  | c :: digits =>
      ((c =? "0"%rune) && bool_decide (digits = [])) ||
      (("1"%rune <=? c) && (c <=? "9"%rune) && all_digits digits)
  | [] => false
  end.

(** With [strict] the fraction has at least one digit, as the grammar
    asks; without it the fraction may have none. *)
Definition fraction_ok (strict : bool) (fraction : option gostring) : bool :=
  match fraction with
  | Some digits => all_digits digits && (negb strict || negb (bool_decide (digits = [])))
  | None => true
  end.

Definition exponent_ok (exponent : option (rune * gostring * gostring)) : bool :=
  match exponent with
  | Some (e, sign, digits) =>
      ((e =? "e"%rune) || (e =? "E"%rune)) &&
      bool_decide (sign = [] ∨ sign = ["+"%rune] ∨ sign = ["-"%rune]) &&
      all_digits digits && negb (bool_decide (digits = []))
  | None => true
  end.

Definition parts_ok (strict : bool) (p : number_parts) : bool :=
  integer_ok (p_integer p) && fraction_ok strict (p_fraction p) &&
  exponent_ok (p_exponent p).

(** A rune that ends a number: not a digit, not a point, not an exponent
    letter, and not the mark of an invalid encoding. *)
Definition ends_number (c : rune) : bool :=
  negb (isDigitCharacter c) && negb (c =? "."%rune) && negb (c =? "e"%rune) &&
  negb (c =? "E"%rune) && negb (c =? unicode.ReplacementChar).

(** ** Reference definitions for arrays *)

(** An array made by [NewArray()] and a sequence of [Add*] calls. *)
Definition Array_of_calls (values : list value) : ArrayStruct :=
  foldl (λ array v, (Array_Add v array).1) Array.NewArray values.

(** The six lookups of an index, in the order in which [String] makes them. *)
Definition Array_gets (index : Z) (array : ArrayStruct)
    : option gostring * option gostring * option bool * option unit *
      option ObjectStruct * option ArrayStruct :=
  (go_get (a_strings array) index, go_get (a_numbers array) index,
   go_get (a_bools array) index, go_get (a_nulls array) index,
   go_get (a_objects array) index, go_get (a_arrays array) index).

(** The value at an index of a sequence of values; none at a negative index. *)
Definition value_at (values : list value) (index : Z) : option value :=
  if 0 <=? index then values !! Z.to_nat index else None.

(** The JSON text of an array with the given elements. *)
Definition elements_text (elements : list gostring) : gostring :=
  match elements with
  | [] => lit "[]"
  | first :: rest => "["%rune :: first ++ concat ((λ e, ","%rune :: e) <$> rest) ++ ["]"%rune]
  end.

(** The builder after the given elements have been added. *)
Definition ArrayBuilder_after (policy : StringCharacterEscapingBehaviorInterface)
    (elements : list gostring) : ArrayBuilderStruct :=
  mkArrayBuilder
    match elements with
    | [] => []
    | first :: rest => "["%rune :: first ++ concat ((λ e, ","%rune :: e) <$> rest)
    end
    policy (Z.of_nat (length elements)).

(** The element that [String] writes for an index. *)
Definition Array_slot (index : Z) (array : ArrayStruct) : option slot :=
  match Array_gets index array with
  | (Some value, _, _, _, _, _) => Some (SString value)
  | (None, Some value, _, _, _, _) => Some (SNumber value)
  | (None, None, Some value, _, _, _) => Some (SBool value)
  | (None, None, None, Some _, _, _) => Some SNull
  | (None, None, None, None, Some value, _) => Some (SObject value)
  | (None, None, None, None, None, Some value) => Some (SArray value)
  | (None, None, None, None, None, None) => None
  end.

(** One iteration of the loop of [ArrayStruct.String]. *)
Definition ArrayStruct_String_element
    (objectString : StringCharacterEscapingBehaviorInterface → ObjectStruct → gostring)
    (policy : StringCharacterEscapingBehaviorInterface)
    (array : ArrayStruct) (builder : ArrayBuilderStruct) (i : Z) : ArrayBuilderStruct :=
  match Array_slot i array with
  | Some (SString value) => ArrayBuilder.AddString value builder
  | Some (SNumber value) => ArrayBuilder.AddJSON value builder
  | Some (SBool value) => ArrayBuilder.AddBool value builder
  | Some SNull => ArrayBuilder.AddNull builder
  | Some (SObject value) => ArrayBuilder.AddJSON (objectString policy value) builder
  | Some (SArray value) =>
      ArrayBuilder.AddJSON (ArrayStruct_String objectString policy value) builder
  | None => builder
  end.

(** ** Reference definitions for the texts that are read back *)

(** The policy writes the control character [char] as it is. *)
Definition writes_raw (policy : StringCharacterEscapingBehaviorInterface) (char : rune) : bool :=
  (0 <=? char) && (char <=? 0x1f) && UseCharacter policy char.

(** A string of Unicode scalar values with no control character that the
    policy writes as it is. *)
Definition readable (policy : StringCharacterEscapingBehaviorInterface) (s : gostring) : bool :=
  forallb utf8.ValidRune s && negb (existsb (writes_raw policy) s).

(** A number text of the grammar that starts with a digit. *)
Definition number_ok (N : gostring) : bool :=
  number_grammar N && match N with c :: _ => isDigitCharacter c | [] => false end.

(** The slots of a flat member: a readable string, a number text that
    starts with a digit, a boolean or null. *)
Definition flat_slot (policy : StringCharacterEscapingBehaviorInterface) (s : slot) : bool :=
  match s with
  | SString value => readable policy value
  | SNumber value => number_ok value
  | SBool _ | SNull => true
  | SObject _ | SArray _ => false
  end.

(** The value that the parser sets for a slot. *)
Definition value_of_slot (s : slot) : value :=
  match s with
  | SString value => VString value
  | SNumber value => VNumber value
  | SBool value => VBool value
  | SNull => VNull
  | SObject value => VJSONObject value
  | SArray value => VJSONArray value
  end.

(** A measure of the objects nested in an object, for induction. *)
Fixpoint Object_nesting (object : ObjectStruct) : nat :=
  let '(mkObject _ _ _ _ objects _ _) := object in
  S (from_option (map_fold (λ _ value n, Object_nesting value + n)%nat 0%nat) 0%nat objects).

(** A call of a typed method of [ObjectBuilderStruct], or of [AddJSON]
    with the text of a value: the method and its argument. *)
Inductive added : Type :=
  | AString (value : gostring)
  | AJSON (value : gostring)
  | AInt (value : Z)
  | AInt64 (value : Z)
  | AInt32 (value : Z)
  | ABool (value : bool)
  | ANull.

Definition ObjectBuilder_Add (name : gostring) (a : added) (objectBuilder : ObjectBuilderStruct)
    : result ObjectBuilderStruct :=
  match a with
  | AString value => ObjectBuilder.AddString name value objectBuilder
  | AJSON value => ObjectBuilder.AddJSON name value objectBuilder
  | AInt value => ObjectBuilder.AddInt name value objectBuilder
  | AInt64 value => ObjectBuilder.AddInt64 name value objectBuilder
  | AInt32 value => ObjectBuilder.AddInt32 name value objectBuilder
  | ABool value => ObjectBuilder.AddBool name value objectBuilder
  | ANull => ObjectBuilder.AddNull name objectBuilder
  end.

(** The text that a builder returns after the calls: a panic of a call ends
    the sequence. *)
Definition ObjectBuilder_text (policy : StringCharacterEscapingBehaviorInterface)
    (calls : list (gostring * added)) : result gostring :=
  objectBuilder ←
    foldl (λ objectBuilder call,
             objectBuilder ← objectBuilder; ObjectBuilder_Add call.1 call.2 objectBuilder)
      (Ok (ObjectBuilder.NewObjectBuilder policy)) calls;
  ObjectBuilder.Done objectBuilder.

(** The [Set*] call that stores what a call of the builder adds, where
    the text given to [AddJSON] is a number. *)
Definition value_of_added (a : added) : value :=
  match a with
  | AString value => VString value
  | AJSON value => VNumber value
  | AInt value => VInt value
  | AInt64 value => VInt64 value
  | AInt32 value => VInt32 value
  | ABool value => VBool value
  | ANull => VNull
  end.

(** The calls whose member the parser reads back: a readable string, a
    number text of the grammar that starts with a digit (for an integer, its
    decimal text: the integer is not negative), a boolean or null. *)
Definition flat_added (policy : StringCharacterEscapingBehaviorInterface) (a : added) : bool :=
  flat_slot policy (slot_of (value_of_added a)).



(** ** Reference definitions for the objects that the parser returns *)

(** A value that the parser sets: a string of Unicode scalar values, a
    number made of well-formed parts without sign (its fraction may have no
    digit), a boolean, null, an object of which [P] holds, or the zero value
    of [ArrayStruct]. *)
Inductive value_parsed (P : ObjectStruct → Prop) : value → Prop :=
  | parsed_string s : forallb utf8.ValidRune s = true → value_parsed P (VString s)
  | parsed_number N :
      (∃ p, parts_ok false p = true ∧ p_minus p = false ∧ N = parts_text p) →
      value_parsed P (VNumber N)
  | parsed_bool b : value_parsed P (VBool b)
  | parsed_null : value_parsed P VNull
  | parsed_object object : P object → value_parsed P (VJSONObject object)
  | parsed_array : value_parsed P (VJSONArray Array.zero).

(** An object made by [Set*] calls with distinct names of Unicode scalar
    values, whose values are such values, the nested objects included. *)
Inductive Object_parsed : ObjectStruct → Prop :=
  | parsed_calls calls :
      NoDup calls.*1 →
      Forall (λ call, forallb utf8.ValidRune call.1 = true ∧
                      value_parsed Object_parsed call.2) calls →
      Object_parsed (Object_of_calls calls).

(** ** The earlier [encodeString] (encode.go, one parameter)

    The file of [encodeString] also holds its earlier form, without a
    policy: the double quote and the backslash are escaped, five control
    characters get their shorthand, the runes from 0x20 are written as they
    are, and the other control characters are left out.  The runes are
    gathered in a slice; the conversion of the slice to a string writes
    U+FFFD for a rune that is not a Unicode scalar value. *)
Module v1.
Definition encodeString_char (encoded : gostring) (char : rune) : gostring :=
  if (char =? DQUOTE) || (char =? BACKSLASH) then encoded ++ [BACKSLASH; char]
  else if char =? BACKSPACE then encoded ++ [BACKSLASH; "b"%rune]
  else if char =? FORMFEED then encoded ++ [BACKSLASH; "f"%rune]
  else if char =? NEWLINE then encoded ++ [BACKSLASH; "n"%rune]
  else if char =? CARRIAGERETURN then encoded ++ [BACKSLASH; "r"%rune]
  else if char =? TAB then encoded ++ [BACKSLASH; "t"%rune]
  else if (char >=? 0x20) && (char <=? 0x10ffff) then encoded ++ [char]
  else encoded.

Definition string_of_runes (runes : gostring) : gostring :=
  (λ r, if utf8.ValidRune r then r else unicode.ReplacementChar) <$> runes.

Definition encodeString (s : gostring) : gostring :=
  let encoded := [DQUOTE] in
  let encoded := foldl encodeString_char encoded s in
  let encoded := encoded ++ [DQUOTE] in
  string_of_runes encoded.

(** The runes that this [encodeString] does not leave out. *)
Definition written (char : rune) : bool :=
  (0x20 <=? char) || (char =? BACKSPACE) || (char =? FORMFEED) || (char =? NEWLINE) ||
  (char =? CARRIAGERETURN) || (char =? TAB).
End v1.

(** * Properties *)

(** ** Lookups after a call *)

Lemma go_get_set_eq {K} `{Countable K} {V} (m : option (gmap K V)) (k : K) (v : V) :
  go_get (go_set (go_make_if_nil m) k v) k = Some v.
Proof. destruct m; simpl; apply lookup_insert_eq. Qed.

Lemma go_get_set_ne {K} `{Countable K} {V} (m : option (gmap K V)) (k k' : K) (v : V) :
  k ≠ k' → go_get (go_set (go_make_if_nil m) k v) k' = go_get m k'.
Proof.
  intros Hne. destruct m; simpl.
  - by rewrite lookup_insert_ne.
  - rewrite lookup_insert_ne; [apply lookup_empty | done].
Qed.

Lemma go_get_delete_eq {K} `{Countable K} {V} (m : option (gmap K V)) (k : K) :
  go_get (go_delete m k) k = None.
Proof. destruct m; simpl; [apply lookup_delete_eq | done]. Qed.

Lemma go_get_delete_ne {K} `{Countable K} {V} (m : option (gmap K V)) (k k' : K) :
  k ≠ k' → go_get (go_delete m k) k' = go_get m k'.
Proof. intros Hne. destruct m; simpl; [by rewrite lookup_delete_ne | done]. Qed.

Lemma addKey_numbers_make key object :
  ∃ numbers, go_make_if_nil (o_numbers (Object.addKey key object)) = Some numbers.
Proof. destruct (o_numbers (Object.addKey key object)); simpl; eauto. Qed.

Lemma GetNumber_SetNumber key value object :
  Object.GetNumber key (Object.SetNumber key value object) = Ok value.
Proof.
  unfold Object.GetNumber, Object.SetNumber.
  destruct (Object.addKey key object) as [strings numbers bools nulls objects arrays keys].
  destruct numbers; simpl; by rewrite lookup_insert_eq.
Qed.

Lemma GetInt32_SetNumber key value object :
  Object.GetInt32 key (Object.SetNumber key value object) =
  match strconv.ParseUint value 32 with
  | (_, Some _) => Err NoMatchingMember
  | (parsed, None) => Ok (int32 parsed)
  end.
Proof.
  unfold Object.GetInt32, Object.SetNumber.
  destruct (Object.addKey key object) as [strings numbers bools nulls objects arrays keys].
  destruct numbers; simpl; by rewrite lookup_insert_eq.
Qed.

(** ** C7: the escaping policy *)

(** A control character is written as it is by every policy whose
    [UseCharacter] accepts it, the minimal policy among them. *)
Lemma encodeString_char_control policy b char :
  0 <= char <= 0x1f → UseCharacter policy char = true →
  encodeString_char policy b char = b ++ [char].
Proof.
  intros Hc Huse. unfold encodeString_char.
  replace ((char >=? 0) && (char <=? 31) && negb (char =? 34) && negb (char =? 92))
    with true by lia.
  rewrite Huse. unfold Builder.WriteRune, utf16.IsSurrogate, unicode.MaxRune, utf16.surr1, utf16.surr3.
  replace ((char <? 0) || (char >? 1114111) || (55296 <=? char) && (char <? 57344))
    with false by lia.
  done.
Qed.

(** C7. The same string, a double quote followed by a newline, under two
    policies.  Under the policy that refuses both questions the output is
    the escapes u0022 and u000a, as claimed.  Under the minimal policy the
    double quote becomes its shorthand, but the newline is written as the
    raw character 0x0a, not as the shorthand backslash-n that the claim
    states. *)
Theorem C7_escaping_policy :
  encodeString [DQUOTE; NEWLINE] hexOnlyBehavior = lit "'\u0022\u000a'" ∧
  encodeString [DQUOTE; NEWLINE] MinimalStringCharacterEscapingBehavior
    = [DQUOTE; BACKSLASH; DQUOTE; NEWLINE; DQUOTE] ∧
  encodeString [DQUOTE; NEWLINE] MinimalStringCharacterEscapingBehavior
    ≠ [DQUOTE; BACKSLASH; DQUOTE; BACKSLASH; "n"%rune; DQUOTE].
Proof. split; [|split]; [vm_compute; reflexivity .. | vm_compute; discriminate]. Qed.

(** ** C9: GetInt32 *)

Lemma FormatInt_negative v : v < 0 → ∃ digits, strconv.FormatInt v = "-"%rune :: digits.
Proof. intros Hv. unfold strconv.FormatInt. replace (v <? 0) with true by lia. eauto. Qed.

Lemma ParseUint_minus digits bitSize :
  strconv.ParseUint ("-"%rune :: digits) bitSize = (0, Some strconv.ErrSyntax).
Proof. reflexivity. Qed.

(** C9. [ObjectStruct.GetInt32] parses the number text with [ParseUint]:
    after [SetInt32] with any negative value it answers "no matching
    member", the same error as for a missing key; the text 4294967295,
    which is not a 32-bit signed integer, is read as -1 without error;
    [ArrayStruct.GetInt32], which parses with [ParseInt], reads -1 back and
    reports a parse failure with an error of its own. *)
Theorem C9_GetInt32 :
  (∀ key v object, v < 0 →
     Object.GetInt32 key (Object.SetInt32 key v object) = Err NoMatchingMember) ∧
  (∀ key object,
     Object.GetInt32 key (Object.SetNumber key (lit "4294967295") object) = Ok (-1)) ∧
  (∀ key, Object.GetInt32 key Object.zero = Err NoMatchingMember) ∧
  (∀ v, (Array.AddInt32 v Array.NewArray).2 = Returned ∧
     (v = -1 → Array.GetInt32 0 (Array.AddInt32 v Array.NewArray).1 = Ok (-1)) ∧
     (v = 2 ^ 31 →
      Array.GetInt32 0 (Array.AddInt64 v Array.NewArray).1
        = Err (FailedToParseInt32 strconv.ErrRange))).
Proof.
  split; [|split; [|split]].
  - intros key v object Hv. unfold Object.SetInt32.
    destruct (FormatInt_negative v Hv) as [digits ->].
    by rewrite GetInt32_SetNumber, ParseUint_minus.
  - intros key object. by rewrite GetInt32_SetNumber.
  - done.
  - intros v. split; [done|]. split; intros ->; vm_compute; reflexivity.
Qed.

Lemma C9_GetInt32_witness :
  Object.GetInt32 (lit "k") (Object.SetInt32 (lit "k") (-1) Object.zero) = Err NoMatchingMember.
Proof. apply (proj1 C9_GetInt32). lia. Defined.

(** ** The grammar of numbers on examples *)

Example number_grammar_accepts :
  number_grammar (lit "1.50") = true ∧ number_grammar (lit "-0") = true ∧
  number_grammar (lit "0") = true ∧ number_grammar (lit "12e+5") = true ∧
  number_grammar (lit "-1.5E-10") = true.
Proof. repeat split. Qed.

Example number_grammar_rejects :
  number_grammar (lit "01") = false ∧ number_grammar (lit "1.") = false ∧
  number_grammar (lit "1e") = false ∧ number_grammar (lit "-") = false ∧
  number_grammar (lit ".5") = false ∧ number_grammar (lit "1.e5") = false ∧
  number_grammar (lit "") = false.
Proof. repeat split. Qed.

(** ** C6: surrogate pairs *)

Lemma lor_disjoint_add x y n :
  0 <= n → 0 <= y < 2 ^ n → Z.lor (x * 2 ^ n) y = x * 2 ^ n + y.
Proof.
  intros Hn Hy.
  assert (Hland : Z.land (x * 2 ^ n) y = 0).
  { apply Z.bits_inj'. intros i Hi. rewrite Z.land_spec, Z.bits_0.
    destruct (Z.lt_ge_cases i n) as [Hlt|Hge].
    - by rewrite Z.mul_pow2_bits_low.
    - destruct (decide (y = 0)) as [->|Hy0]; [by rewrite Z.bits_0, andb_false_r|].
      rewrite (Z.bits_above_log2 y i), andb_false_r; [done|lia|].
      apply Z.log2_lt_pow2; [lia|]. eapply Z.lt_le_trans; [apply Hy|].
      apply Z.pow_le_mono_r; lia. }
  rewrite <- Z.lxor_lor by done. symmetry. by apply Z.add_nocarry_lxor.
Qed.

Lemma hexValue_bounds char b : hexValue char = Some b → 0 <= b < 16.
Proof. unfold hexValue. intros Hb. repeat case_match; simplify_eq; lia. Qed.

Lemma hex_decoded b0 b1 b2 b3 :
  0 <= b0 < 16 → 0 <= b1 < 16 → 0 <= b2 < 16 → 0 <= b3 < 16 →
  Z.lor (Z.lor (Z.lor (Z.lor 0 (Z.shiftl b0 12)) (Z.shiftl b1 8)) (Z.shiftl b2 4)) (Z.shiftl b3 0)
  = hex4 b0 b1 b2 b3.
Proof.
  intros H0 H1 H2 H3. unfold hex4.
  rewrite Z.lor_0_l, !Z.shiftl_mul_pow2 by lia.
  rewrite (lor_disjoint_add b0 (b1 * 2 ^ 8) 12) by lia.
  replace (b0 * 2 ^ 12 + b1 * 2 ^ 8) with ((b0 * 16 + b1) * 2 ^ 8) by lia.
  rewrite (lor_disjoint_add _ (b2 * 2 ^ 4) 8) by lia.
  replace ((b0 * 16 + b1) * 2 ^ 8 + b2 * 2 ^ 4) with ((b0 * 256 + b1 * 16 + b2) * 2 ^ 4) by lia.
  rewrite (lor_disjoint_add _ (b3 * 2 ^ 0) 4) by lia.
  lia.
Qed.

Lemma DecodeRune_pair hi lo :
  0xD800 <= hi < 0xDC00 → 0xDC00 <= lo < 0xE000 →
  utf16.DecodeRune hi lo = surrogate_pair hi lo.
Proof.
  intros Hhi Hlo. unfold utf16.DecodeRune, surrogate_pair, utf16.surr1, utf16.surr2, utf16.surr3, utf16.surrSelf.
  replace ((55296 <=? hi) && (hi <? 56320) && (56320 <=? lo) && (lo <? 57344)) with true by lia.
  rewrite Z.shiftl_mul_pow2 by lia.
  rewrite (lor_disjoint_add (hi - 55296) (lo - 56320) 10) by lia. lia.
Qed.

Lemma DecodeRune_not_low hi lo :
  ¬ (0xDC00 <= lo < 0xE000) → utf16.DecodeRune hi lo = unicode.ReplacementChar.
Proof.
  intros Hlo. unfold utf16.DecodeRune, utf16.surr1, utf16.surr2, utf16.surr3.
  replace ((55296 <=? hi) && (hi <? 56320) && (56320 <=? lo) && (lo <? 57344)) with false by lia.
  done.
Qed.

Lemma WriteRune_valid b r :
  0 <= r <= 0x10FFFF → ¬ (0xD800 <= r < 0xE000) → Builder.WriteRune b r = b ++ [r].
Proof.
  intros Hr Hs. unfold Builder.WriteRune, utf16.IsSurrogate, unicode.MaxRune, utf16.surr1, utf16.surr3.
  replace ((r <? 0) || (r >? 1114111) || (55296 <=? r) && (r <? 57344)) with false by lia.
  done.
Qed.

(** With a high surrogate pending, the loop of [parseString] goes on only
    over the escape of a low surrogate, and then with the code point of the
    pair written; on any other input it fails. *)
Lemma parseString_loop_pending b hi r :
  0xD800 <= hi < 0xDC00 →
  match low_surrogate_escape r with
  | Some (lo, r') =>
      parseString_loop r b hi = parseString_loop r' (b ++ [surrogate_pair hi lo]) 0
  | None => ∃ e, parseString_loop r b hi = Err e
  end.
Proof.
  intros Hhi. assert (Hpos : (hi >? 0) = true) by lia.
  unfold low_surrogate_escape.
  destruct r as [|c r]; cbn [parseString_loop]; [eauto|]. rewrite !Hpos.
  destruct (c =? 34) eqn:Hq.
  { replace (c =? 92) with false by lia. simpl. repeat (case_match; simplify_eq); eauto. }
  destruct (c =? 92) eqn:Hb; simpl; [|repeat (case_match; simplify_eq); eauto].
  destruct r as [|u r]; [eauto|].
  destruct (u =? 117) eqn:Hu; [|repeat (case_match; simplify_eq); eauto].
  destruct r as [|c0 r]; [eauto|].
  destruct (hexValue c0) as [b0|] eqn:H0; simpl; [|repeat (case_match; simplify_eq); eauto].
  destruct r as [|c1 r]; [eauto|].
  destruct (hexValue c1) as [b1|] eqn:H1; simpl; [|repeat (case_match; simplify_eq); eauto].
  destruct r as [|c2 r]; [eauto|].
  destruct (hexValue c2) as [b2|] eqn:H2; simpl; [|repeat (case_match; simplify_eq); eauto].
  destruct r as [|c3 r]; [eauto|].
  destruct (hexValue c3) as [b3|] eqn:H3; simpl; [|repeat (case_match; simplify_eq); eauto].
  apply hexValue_bounds in H0, H1, H2, H3.
  rewrite (hex_decoded b0 b1 b2 b3) by done.
  set (lo := hex4 b0 b1 b2 b3).
  destruct ((56320 <=? lo) && (lo <? 57344)) eqn:Hlo.
  - rewrite DecodeRune_pair by lia.
    replace (surrogate_pair hi lo =? unicode.ReplacementChar) with false
      by (unfold surrogate_pair, unicode.ReplacementChar; lia).
    rewrite WriteRune_valid by (unfold surrogate_pair; lia). done.
  - rewrite DecodeRune_not_low by lia. eauto.
Qed.

(** The escape of a high surrogate, met with no surrogate pending, is held
    pending and nothing is written. *)
Lemma parseString_loop_high b char0 char1 char2 char3 b0 b1 b2 b3 r :
  hexValue char0 = Some b0 → hexValue char1 = Some b1 →
  hexValue char2 = Some b2 → hexValue char3 = Some b3 →
  0xD800 <= hex4 b0 b1 b2 b3 < 0xDC00 →
  parseString_loop (BACKSLASH :: "u"%rune :: char0 :: char1 :: char2 :: char3 :: r) b 0
  = parseString_loop r b (hex4 b0 b1 b2 b3).
Proof.
  intros H0 H1 H2 H3 Hhi. cbn [parseString_loop]. simpl (_ =? _). simpl (0 >? 0).
  rewrite H0, H1, H2, H3. cbv iota beta.
  rewrite (hex_decoded b0 b1 b2 b3) by eauto using hexValue_bounds.
  unfold utf16.IsSurrogate, utf16.surr1, utf16.surr3.
  replace ((55296 <=? hex4 b0 b1 b2 b3) && (hex4 b0 b1 b2 b3 <? 57344)) with true by lia.
  done.
Qed.

(** C6. The pair of escapes uD834 uDD1E is decoded to the single code point
    U+1D11E.  The escape of a high surrogate is held pending; with a high
    surrogate pending the parse goes on only over the escape of a low
    surrogate and fails on everything else: the end of the input, the
    closing quote, a raw character, an escape other than u, an escape u with
    a digit that is not hexadecimal or with a value that is not a low
    surrogate. *)
Theorem C6_surrogate_pairs :
  parseString (lit "'\uD834\uDD1E'") = Ok ([0x1D11E], []) ∧
  (o ← ParseObject (lit "{'s':'\uD834\uDD1E'}"); Object.GetString (lit "s") o)
    = Ok [0x1D11E] ∧
  (∀ b r, parseString_loop (lit "\uD834" ++ r) b 0 = parseString_loop r b 0xD834) ∧
  (∀ b hi r, 0xD800 <= hi < 0xDC00 →
     match low_surrogate_escape r with
     | Some (lo, r') =>
         parseString_loop r b hi = parseString_loop r' (b ++ [surrogate_pair hi lo]) 0
     | None => ∃ e, parseString_loop r b hi = Err e
     end) ∧
  (∀ b hi, 0xD800 <= hi < 0xDC00 → ∃ e, parseString_loop [] b hi = Err e) ∧
  (∀ b hi char r, 0xD800 <= hi < 0xDC00 → char ≠ BACKSLASH →
     ∃ e, parseString_loop (char :: r) b hi = Err e) ∧
  (∀ b hi char r, 0xD800 <= hi < 0xDC00 → char ≠ "u"%rune →
     ∃ e, parseString_loop (BACKSLASH :: char :: r) b hi = Err e) ∧
  (∀ b hi char0 char1 char2 char3 b0 b1 b2 b3 r, 0xD800 <= hi < 0xDC00 →
     hexValue char0 = Some b0 → hexValue char1 = Some b1 →
     hexValue char2 = Some b2 → hexValue char3 = Some b3 →
     ¬ (0xDC00 <= hex4 b0 b1 b2 b3 < 0xE000) →
     ∃ e, parseString_loop (BACKSLASH :: "u"%rune :: char0 :: char1 :: char2 :: char3 :: r) b hi
          = Err e).
Proof.
  split; [vm_compute; reflexivity|]. split; [vm_compute; reflexivity|].
  split; [intros b r; by apply (parseString_loop_high b _ _ _ _ 13 8 3 4)|].
  split; [apply parseString_loop_pending|].
  split; [intros b hi Hhi; apply (parseString_loop_pending b hi [] Hhi)|].
  split; [|split].
  - intros b hi char r Hhi Hc.
    pose proof (parseString_loop_pending b hi (char :: r) Hhi) as Hp.
    unfold low_surrogate_escape in Hp.
    replace (char =? 92) with false in Hp by lia.
    by repeat (case_match; simplify_eq).
  - intros b hi char r Hhi Hc.
    pose proof (parseString_loop_pending b hi (BACKSLASH :: char :: r) Hhi) as Hp.
    unfold low_surrogate_escape in Hp.
    replace (char =? 117) with false in Hp by lia.
    by repeat (case_match; simplify_eq).
  - intros b hi char0 char1 char2 char3 b0 b1 b2 b3 r Hhi H0 H1 H2 H3 Hlo.
    pose proof (parseString_loop_pending b hi
      (BACKSLASH :: "u"%rune :: char0 :: char1 :: char2 :: char3 :: r) Hhi) as Hp.
    assert (low_surrogate_escape
      (BACKSLASH :: "u"%rune :: char0 :: char1 :: char2 :: char3 :: r) = None) as Hnone.
    { unfold low_surrogate_escape. simpl. rewrite H0, H1, H2, H3. simpl.
      replace ((56320 <=? hex4 b0 b1 b2 b3) && (hex4 b0 b1 b2 b3 <? 57344)) with false by lia.
      done. }
    by rewrite Hnone in Hp.
Qed.

Lemma C6_surrogate_pairs_witness :
  ∃ e, parseString_loop (lit "'") [] 0xD834 = Err e.
Proof.
  apply (proj1 (proj2 (proj2 (proj2 (proj2 (proj2 C6_surrogate_pairs)))))); [lia|discriminate].
Defined.

(** ** C8 and C10: [Set*] on arrays *)

Lemma Array_Set_allocated index v array :
  Array_allocated array → Array_allocated (Array_Set index v array).1.
Proof.
  intros (Hs & Hn & Hb & Hu & Ho & Ha).
  destruct array as [strings numbers bools nulls objects arrays length]; simpl in *.
  destruct Hs as [? ->], Hn as [? ->], Hb as [? ->], Hu as [? ->], Ho as [? ->], Ha as [? ->].
  destruct v; simpl;
    unfold Array.SetInt, Array.SetInt64, Array.SetInt32, Array.SetString, Array.SetNumber,
      Array.SetBool, Array.SetJSONObject, Array.SetJSONArray, Array.SetNull; simpl;
    destruct (index >=? length); simpl; unfold Array_allocated; simpl; eauto 10.
Qed.

Lemma Array_Add_allocated v array :
  Array_allocated array → Array_allocated (Array_Add v array).1.
Proof.
  intros (Hs & Hn & Hb & Hu & Ho & Ha).
  destruct array as [strings numbers bools nulls objects arrays length]; simpl in *.
  destruct Hs as [? ->], Hn as [? ->], Hb as [? ->], Hu as [? ->], Ho as [? ->], Ha as [? ->].
  destruct v; simpl; unfold Array_allocated; simpl; eauto 10.
Qed.

Lemma Array_Set_zero index v : (Array_Set index v Array.zero).1 = Array.zero.
Proof.
  destruct v; simpl;
    unfold Array.SetInt, Array.SetInt64, Array.SetInt32, Array.SetString, Array.SetNumber,
      Array.SetBool, Array.SetJSONObject, Array.SetJSONArray, Array.SetNull; simpl;
    by destruct (index >=? 0).
Qed.

Lemma Array_Add_zero v : (Array_Add v Array.zero).1 = Array.zero.
Proof. by destruct v. Qed.

(** An array a client can hold is the zero value or has all its maps made. *)
Lemma Array_built_inv array :
  Array_built array → array = Array.zero ∨ Array_allocated array.
Proof.
  induction 1 as [| |v array _ [->|IH]|index v array _ [->|IH]].
  - by left.
  - right. unfold Array_allocated; simpl; eauto 10.
  - left. apply Array_Add_zero.
  - right. by apply Array_Add_allocated.
  - left. apply Array_Set_zero.
  - right. by apply Array_Set_allocated.
Qed.

Lemma Array_Set_out_of_bounds index v array :
  Array.Length array <= index →
  Array_Set index v array = (array, Panicked Array.out_of_bounds).
Proof.
  unfold Array.Length. intros Hi.
  destruct v; simpl;
    unfold Array.SetInt, Array.SetInt64, Array.SetInt32, Array.SetString, Array.SetNumber,
      Array.SetBool, Array.SetJSONObject, Array.SetJSONArray, Array.SetNull;
    by replace (index >=? a_length array) with true by lia.
Qed.

Lemma Array_Set_in_bounds index v array :
  Array_allocated array → index < Array.Length array →
  ∃ array', Array_Set index v array = (array', Returned) ∧
            Array.Length array' = Array.Length array.
Proof.
  unfold Array.Length. intros (Hs & Hn & Hb & Hu & Ho & Ha) Hi.
  destruct array as [strings numbers bools nulls objects arrays length]; simpl in *.
  destruct Hs as [? ->], Hn as [? ->], Hb as [? ->], Hu as [? ->], Ho as [? ->], Ha as [? ->].
  destruct v; simpl;
    unfold Array.SetInt, Array.SetInt64, Array.SetInt32, Array.SetString, Array.SetNumber,
      Array.SetBool, Array.SetJSONObject, Array.SetJSONArray, Array.SetNull; simpl;
    replace (index >=? length) with false by lia; simpl; eauto.
Qed.

(** C8. On every array a client can hold, a [Set*] call at an index that
    is not below the length panics with "out of bounds" and leaves the array
    as it was, length included; a [Set*] call at an index from 0 up to the
    length returns without panic and leaves the length as it was. *)
Theorem C8_set_bounds array v index :
  Array_built array →
  (Array.Length array <= index →
     Array_Set index v array = (array, Panicked Array.out_of_bounds)) ∧
  (0 <= index < Array.Length array →
     ∃ array', Array_Set index v array = (array', Returned) ∧
               Array.Length array' = Array.Length array).
Proof.
  intros Hbuilt. split.
  - apply Array_Set_out_of_bounds.
  - intros Hi. destruct (Array_built_inv array Hbuilt) as [->|Halloc].
    + simpl in Hi. lia.
    + apply Array_Set_in_bounds; [done|lia].
Qed.

Lemma C8_set_bounds_witness :
  let array := (Array.AddString (lit "b") (Array.AddString (lit "a") Array.NewArray).1).1 in
  Array.Length array = 2 ∧
  Array_Set 5 (VString (lit "x")) array = (array, Panicked Array.out_of_bounds) ∧
  ∃ array', Array_Set 1 (VString (lit "x")) array = (array', Returned) ∧
            Array.Length array' = Array.Length array.
Proof.
  intros array.
  assert (Hbuilt : Array_built array).
  { apply (built_Add (VString (lit "b"))), (built_Add (VString (lit "a"))), built_NewArray. }
  split; [reflexivity|]. split.
  - apply (proj1 (C8_set_bounds array (VString (lit "x")) 5 Hbuilt)). by vm_compute.
  - apply (proj2 (C8_set_bounds array (VString (lit "x")) 1 Hbuilt)). by vm_compute.
Defined.

(** ** Formatting and parsing integers *)

Lemma uint_value_acc d acc : uint_value d (Z.pos acc) = Z.pos (Pos.of_uint_acc d acc).
Proof.
  revert acc. induction d; intros acc; simpl; [done|..];
    rewrite <- IHd; f_equal; lia.
Qed.

Lemma uint_value_of_uint d : uint_value d 0 = Z.of_N (Pos.of_uint d).
Proof.
  induction d; simpl; [done|done|..]; by rewrite <- uint_value_acc.
Qed.

Lemma uint_value_to_uint n : uint_value (N.to_uint n) 0 = Z.of_N n.
Proof.
  rewrite uint_value_of_uint. f_equal. apply (DecimalN.Unsigned.of_to n).
Qed.

Lemma uint_value_ge d acc : 0 <= acc → acc <= uint_value d acc.
Proof.
  revert acc. induction d; intros acc Hacc; simpl; [lia|..];
    (etrans; [|apply IHd]; lia).
Qed.

Lemma ParseUint_loop_digit maxVal k s n :
  0 <= k <= 9 → 0 <= n → n * 10 + k <= maxVal → maxVal < 2 ^ 64 →
  strconv.ParseUint_loop maxVal ("0"%rune + k :: s) n
  = strconv.ParseUint_loop maxVal s (n * 10 + k).
Proof.
  intros Hk Hn Hle Hmax. cbn [strconv.ParseUint_loop].
  replace ((48 <=? 48 + k) && (48 + k <=? 57)) with true by lia.
  unfold strconv.maxUint64.
  change ((2 ^ 64 - 1) / 10 + 1) with 1844674407370955162.
  replace (n >=? 1844674407370955162) with false by lia.
  cbv zeta. replace (48 + k - 48) with k by lia.
  rewrite (Z.mod_small (n * 10 + k) (2 ^ 64)) by lia.
  by replace ((n * 10 + k <? n * 10) || (n * 10 + k >? maxVal)) with false by lia.
Qed.

Lemma ParseUint_loop_uint maxVal d n :
  0 <= n → uint_value d n <= maxVal → maxVal < 2 ^ 64 →
  strconv.ParseUint_loop maxVal (strconv.uint_runes d) n = (uint_value d n, None).
Proof.
  revert n. induction d; intros n Hn Hle Hmax; [done|..]; simpl in Hle;
    (match type of Hle with
     | uint_value d (n * 10 + ?k) <= _ =>
         pose proof (uint_value_ge d (n * 10 + k) ltac:(lia)) as Hge;
         cbn [strconv.uint_runes uint_value];
         rewrite (ParseUint_loop_digit maxVal k) by lia;
         apply IHd; lia
     end).
Qed.

Lemma uint_runes_to_uint n :
  ∃ c s, strconv.uint_runes (N.to_uint n) = c :: s ∧ c ≠ "+"%rune ∧ c ≠ "-"%rune.
Proof.
  assert (Hnil : N.to_uint n ≠ Decimal.Nil).
  { destruct n; simpl; [done|apply DecimalPos.Unsigned.to_uint_nonnil]. }
  destruct (N.to_uint n); [done|..]; simpl; eexists _, _; (split; [done|done]).
Qed.

Lemma ParseUint_FormatUint n bitSize :
  0 <= bitSize <= 64 → Z.of_N n < 2 ^ bitSize →
  strconv.ParseUint (strconv.uint_runes (N.to_uint n)) bitSize = (Z.of_N n, None).
Proof.
  intros Hb Hn. destruct (uint_runes_to_uint n) as (c & s & Hs & _).
  unfold strconv.ParseUint. rewrite Hs, <- Hs.
  assert (2 ^ bitSize <= 2 ^ 64) by (apply Z.pow_le_mono_r; lia).
  rewrite ParseUint_loop_uint; rewrite ?uint_value_to_uint; [done|lia..].
Qed.

(** What [FormatInt] writes, [ParseInt] reads back. *)
Lemma ParseInt_FormatInt z bitSize :
  1 <= bitSize <= 64 → - 2 ^ (bitSize - 1) <= z < 2 ^ (bitSize - 1) →
  strconv.ParseInt (strconv.FormatInt z) bitSize = (z, None).
Proof.
  intros Hb Hz.
  assert (Hpow : 2 ^ bitSize = 2 * 2 ^ (bitSize - 1)).
  { rewrite <- Z.pow_succ_r by lia. f_equal. lia. }
  unfold strconv.FormatInt. destruct (z <? 0) eqn:Hneg.
  - change (strconv.ParseInt ("-"%rune :: ?s) bitSize) with
      (let '(un, err) := strconv.ParseUint s bitSize in
       match err with
       | Some strconv.ErrSyntax => (0, Some strconv.ErrSyntax)
       | _ =>
           if negb true && (un >=? 2 ^ (bitSize - 1)) then (2 ^ (bitSize - 1) - 1, Some strconv.ErrRange)
           else if true && (un >? 2 ^ (bitSize - 1)) then (- 2 ^ (bitSize - 1), Some strconv.ErrRange)
           else (if true then - un else un, None)
       end).
    rewrite ParseUint_FormatUint by lia. cbv iota beta.
    rewrite Z2N.id by lia. simpl (negb _ && _).
    replace (- z >? 2 ^ (bitSize - 1)) with false by lia. simpl. f_equal. lia.
  - destruct (uint_runes_to_uint (Z.to_N z)) as (c & s & Hs & Hplus & Hminus).
    rewrite Hs. cbn [strconv.ParseInt].
    replace (c =? 43) with false by lia. replace (c =? 45) with false by lia.
    simpl (_ || _). cbv zeta. rewrite <- Hs.
    rewrite ParseUint_FormatUint by lia. cbv iota beta.
    rewrite Z2N.id by lia. simpl (negb _ && _).
    by replace (z >=? 2 ^ (bitSize - 1)) with false by lia.
Qed.

Lemma int32_id z : - 2 ^ 31 <= z < 2 ^ 31 → int32 z = z.
Proof. intros Hz. unfold int32. rewrite Z.mod_small; lia. Qed.

(** C10, amended.  On an array whose maps have been made, as [NewArray]
    makes them, and whose length is not negative, a [Set*] call at a
    negative index returns without panic, leaves the length as it was,
    and stores the value at that index: the [Get*] call of the same kind at
    the same index returns it. *)
Theorem C10_negative_index array v index :
  Array_allocated array → 0 <= Array.Length array → index < 0 → value_typed v →
  ∃ array', Array_Set index v array = (array', Returned) ∧
            Array.Length array' = Array.Length array ∧
            Array_Get_returns index v array'.
Proof.
  unfold Array.Length. intros (Hs & Hn & Hb & Hu & Ho & Ha) Hlen Hi Hv.
  destruct array as [strings numbers bools nulls objects arrays length]; simpl in *.
  destruct Hs as [? ->], Hn as [? ->], Hb as [? ->], Hu as [? ->], Ho as [? ->], Ha as [? ->].
  destruct v; simpl in *;
    unfold Array.SetInt, Array.SetInt64, Array.SetInt32, Array.SetString, Array.SetNumber,
      Array.SetBool, Array.SetJSONObject, Array.SetJSONArray, Array.SetNull; simpl;
    replace (index >=? length) with false by lia; simpl;
    eexists; (split; [reflexivity|]); (split; [reflexivity|]);
    unfold Array.GetString, Array.GetNumber, Array.GetInt, Array.GetInt64, Array.GetInt32,
      Array.GetBool, Array.GetJSONObject, Array.GetJSONArray, Array.IsNull, Array.GetNumber;
    simpl; rewrite lookup_insert_eq; simpl; try done.
  - unfold strconv.Atoi. by rewrite ParseInt_FormatInt by lia.
  - by rewrite ParseInt_FormatInt by lia.
  - rewrite ParseInt_FormatInt by lia. by rewrite int32_id.
Qed.

Lemma C10_negative_index_witness :
  ∃ array', Array.SetString (-1) (lit "v") Array.NewArray = (array', Returned) ∧
            Array.Length array' = 0 ∧
            Array.GetString (-1) array' = Ok (lit "v").
Proof.
  apply (C10_negative_index Array.NewArray (VString (lit "v")) (-1)).
  - unfold Array_allocated; simpl; eauto 10.
  - by vm_compute.
  - lia.
  - exact I.
Defined.

(** C10 as stated fails on the zero value of [ArrayStruct], which is also
    what [ParseArray] returns for an empty array: its maps are nil, and the
    store that follows the bounds check panics. *)
Lemma C10_zero_value_panics :
  ParseArray (lit "[]") = Ok Array.zero ∧
  Array_built Array.zero ∧
  Array.Length Array.zero = 0 ∧
  Array.SetString (-1) (lit "v") Array.zero = (Array.zero, Panicked nil_map_write) ∧
  Array.GetString (-1) (Array.SetString (-1) (lit "v") Array.zero).1 = Err NoMatchingMember.
Proof. split; [by vm_compute|]. split; [constructor|]. by repeat split. Qed.

(** ** C3: the order of the members *)

Ltac unfold_Object_Set :=
  unfold Object_Set, Object.SetInt, Object.SetInt64, Object.SetInt32, Object.SetString,
    Object.SetNumber, Object.SetBool, Object.SetJSONObject, Object.SetJSONArray,
    Object.SetNull.

Lemma addKey_keys key object :
  o_keys (Object.addKey key object) =
  if Object.Has key object then o_keys object else o_keys object ++ [key].
Proof.
  destruct object as [strings numbers bools nulls objects arrays keys].
  unfold Object.addKey, Object.Has; simpl.
  by repeat case_match.
Qed.

Lemma addKey_gets_ne key key' object :
  key ≠ key' → Object_gets key' (Object.addKey key object) = Object_gets key' object.
Proof.
  intros Hne. destruct object as [strings numbers bools nulls objects arrays keys].
  unfold Object.addKey, Object_gets; simpl.
  repeat case_match; simpl; by rewrite ?go_get_delete_ne.
Qed.

Lemma addKey_gets_eq key object :
  Object_exclusive key object →
  Object_gets key (Object.addKey key object) = (None, None, None, None, None, None).
Proof.
  destruct object as [strings numbers bools nulls objects arrays keys].
  unfold Object_exclusive, Object.addKey, Object_gets; simpl. intros Hex.
  repeat case_match; simplify_eq; simpl; rewrite ?go_get_delete_eq; try done;
    repeat f_equal; done.
Qed.

Lemma Object_Set_keys key v object :
  o_keys (Object_Set key v object) = o_keys (Object.addKey key object).
Proof. destruct v; unfold_Object_Set; by destruct (Object.addKey key object). Qed.

Lemma Object_Set_gets_ne key key' v object :
  key ≠ key' → Object_gets key' (Object_Set key v object) = Object_gets key' object.
Proof.
  intros Hne. rewrite <- (addKey_gets_ne key key' object Hne).
  destruct v; unfold_Object_Set;
    destruct (Object.addKey key object) as [strings numbers bools nulls objects arrays keys];
    unfold Object_gets; simpl; by rewrite go_get_set_ne.
Qed.

Lemma Object_Set_gets_eq key v object :
  Object_exclusive key object →
  Object_gets key (Object_Set key v object) = gets_of_slot (slot_of v).
Proof.
  intros Hex. pose proof (addKey_gets_eq key object Hex) as Hget.
  destruct v; unfold_Object_Set;
    destruct (Object.addKey key object) as [strings numbers bools nulls objects arrays keys];
    unfold Object_gets in *; simpl in *; simplify_eq; rewrite go_get_set_eq;
    repeat f_equal; done.
Qed.

Lemma Has_gets key object :
  Object.Has key object =
  match Object_gets key object with
  | (None, None, None, None, None, None) => false
  | _ => true
  end.
Proof. unfold Object.Has, Object_gets. by repeat case_match. Qed.

Lemma Has_slot key object :
  Object.Has key object = true ↔ is_Some (Object_slot key object).
Proof.
  rewrite Has_gets. unfold Object_slot.
  destruct (Object_gets key object) as [[[[[[?|] [?|]] [?|]] [?|]] [?|]] [?|]];
    split; intros; by eauto using is_Some_None.
Qed.

Lemma Object_Set_slot_eq key v object :
  Object_exclusive key object → Object_slot key (Object_Set key v object) = Some (slot_of v).
Proof.
  intros Hex. unfold Object_slot. rewrite Object_Set_gets_eq by done.
  by destruct v.
Qed.

Lemma Object_Set_slot_ne key key' v object :
  key ≠ key' → Object_slot key' (Object_Set key v object) = Object_slot key' object.
Proof. intros Hne. unfold Object_slot. by rewrite Object_Set_gets_ne. Qed.

Lemma Object_Set_Has key v object :
  Object_exclusive key object → Object.Has key (Object_Set key v object) = true.
Proof. intros Hex. apply Has_slot. rewrite Object_Set_slot_eq; eauto. Qed.

Lemma Object_zero_wf : Object_wf Object.zero.
Proof.
  split; [done|]. split; [constructor|].
  intros key. simpl. split; [by intros ?%elem_of_nil|done].
Qed.

Lemma Object_Set_wf key v object :
  Object_wf object → Object_wf (Object_Set key v object).
Proof.
  intros (Hex & Hnodup & Hkeys). split; [|split].
  - intros key'. destruct (decide (key = key')) as [<-|Hne].
    + unfold Object_exclusive. rewrite Object_Set_gets_eq by done. by destruct v.
    + specialize (Hex key'). unfold Object_exclusive in *. by rewrite Object_Set_gets_ne.
  - rewrite Object_Set_keys, addKey_keys.
    destruct (Object.Has key object) eqn:Hhas; [done|].
    apply NoDup_app. split; [done|]. split; [|apply NoDup_singleton].
    intros key' Hin ->%list_elem_of_singleton.
    apply Hkeys in Hin. congruence.
  - intros key'. rewrite Object_Set_keys, addKey_keys.
    destruct (decide (key = key')) as [<-|Hne].
    + rewrite Object_Set_Has by done.
      destruct (Object.Has key object) eqn:Hhas.
      * split; [done|]. intros _. by apply Hkeys.
      * split; [done|]. intros _. apply elem_of_app. right. by apply list_elem_of_singleton.
    + assert (Object.Has key' (Object_Set key v object) = Object.Has key' object) as ->.
      { by rewrite !Has_gets, Object_Set_gets_ne. }
      rewrite <- Hkeys. destruct (Object.Has key object); [done|].
      rewrite elem_of_app, list_elem_of_singleton. intuition congruence.
Qed.

Lemma Object_of_calls_snoc calls key v :
  Object_of_calls (calls ++ [(key, v)]) = Object_Set key v (Object_of_calls calls).
Proof. unfold Object_of_calls. by rewrite foldl_app. Qed.

Lemma Object_of_calls_wf calls : Object_wf (Object_of_calls calls).
Proof.
  induction calls as [|[key v] calls IH] using rev_ind; [apply Object_zero_wf|].
  rewrite Object_of_calls_snoc. by apply Object_Set_wf.
Qed.

Lemma first_occurrences_elem_of keys key :
  key ∈ first_occurrences keys ↔ key ∈ keys.
Proof.
  induction keys as [|k keys IH]; simpl; [done|].
  rewrite !elem_of_cons, list_elem_of_filter, IH.
  destruct (decide (key = k)); intuition congruence.
Qed.

Lemma first_occurrences_snoc keys key :
  first_occurrences (keys ++ [key]) =
  if decide (key ∈ keys) then first_occurrences keys else first_occurrences keys ++ [key].
Proof.
  induction keys as [|k keys IH]; simpl; [done|].
  rewrite IH. destruct (decide (key ∈ keys)) as [Hin|Hnin].
  - rewrite decide_True; [done|]. by apply elem_of_cons; right.
  - rewrite filter_app, filter_cons, filter_nil.
    repeat case_decide; simplify_eq; rewrite ?app_nil_r; try done;
      exfalso; set_solver.
Qed.

Lemma last_value_snoc calls key v key' :
  last_value (calls ++ [(key, v)]) key' =
  if decide (key = key') then Some v else last_value calls key'.
Proof.
  unfold last_value. rewrite filter_app, filter_cons, filter_nil. simpl.
  repeat case_decide; simplify_eq; [by rewrite last_snoc|by rewrite app_nil_r].
Qed.

Lemma last_value_is_Some calls key :
  is_Some (last_value calls key) ↔ key ∈ calls.*1.
Proof.
  induction calls as [|[k v] calls IH] using rev_ind.
  - split; [by intros ?%is_Some_None|by intros ?%elem_of_nil].
  - rewrite last_value_snoc, fmap_app, elem_of_app. simpl.
    rewrite list_elem_of_singleton, <- IH.
    destruct (decide (k = key)) as [->|Hne]; [by intuition eauto|].
    split; [by intros ?; left|]. by intros [?|?].
Qed.

(** The object made by a sequence of [Set*] calls: its keys are the keys
    of the calls in the order of their first occurrence, and each key holds
    what the last call on it stored. *)
Lemma Object_of_calls_model calls :
  o_keys (Object_of_calls calls) = first_occurrences calls.*1 ∧
  ∀ key, Object_slot key (Object_of_calls calls) = slot_of <$> last_value calls key.
Proof.
  induction calls as [|[key v] calls [IHkeys IHslot]] using rev_ind; [done|].
  pose proof (Object_of_calls_wf calls) as (Hex & Hnodup & Hkeys).
  rewrite Object_of_calls_snoc. split.
  - replace ((calls ++ [(key, v)]).*1) with (calls.*1 ++ [key]) by (by rewrite fmap_app).
    rewrite Object_Set_keys, addKey_keys, first_occurrences_snoc, IHkeys.
    destruct (Object.Has key (Object_of_calls calls)) eqn:Hhas.
    + apply Hkeys in Hhas. rewrite IHkeys, first_occurrences_elem_of in Hhas.
      by rewrite decide_True.
    + rewrite decide_False; [done|]. intros Hin.
      rewrite <- first_occurrences_elem_of, <- IHkeys in Hin. apply Hkeys in Hin. congruence.
  - intros key'. rewrite last_value_snoc. destruct (decide (key = key')) as [<-|Hne].
    + by rewrite Object_Set_slot_eq.
    + by rewrite Object_Set_slot_ne.
Qed.

Lemma go_get_fmap {K} `{Countable K} {A B} (f : A → B) (m : option (gmap K A)) (k : K) :
  go_get (fmap (M := option) (fmap (M := gmap K) f) m) k = f <$> go_get m k.
Proof. destruct m; simpl; [apply lookup_fmap|done]. Qed.

Lemma foldl_ext_all {A B} (f g : A → B → A) (a : A) (l : list B) :
  (∀ a b, f a b = g a b) → foldl f a l = foldl g a l.
Proof. intros Hfg. revert a. induction l as [|b l IH]; intros a; simpl; [done|]. by rewrite Hfg, IH. Qed.

Lemma incr_int_small x : - 2 ^ 63 <= x + 1 < 2 ^ 63 → incr_int x = x + 1.
Proof. intros Hx. unfold incr_int. rewrite Z.mod_small; lia. Qed.

Lemma Len_cons c b : (Builder.Len (c :: b) =? 0) = false.
Proof. unfold Builder.Len. apply Z.eqb_neq. rewrite length_cons. lia. Qed.

Lemma ObjectBuilder_AddJSON_after policy members name value :
  Z.of_nat (length members) + 1 < 2 ^ 63 →
  ObjectBuilder.AddJSON name value (ObjectBuilder_after policy members)
  = Ok (ObjectBuilder_after policy (members ++ [(name, value)])).
Proof.
  intros Hlen. unfold ObjectBuilder.AddJSON, ObjectBuilder_after.
  cbn [ob_b ob_stringCharacterEscapingBehavior memberCount deref encodeString_with
       mbind result_bind].
  rewrite incr_int_small by lia. rewrite length_app. simpl (length [_]).
  replace (Z.of_nat (length members) + 1) with (Z.of_nat (length members + 1)) by lia.
  do 3 f_equal. unfold Builder.WriteString.
  destruct members as [|first rest].
  - rewrite (WriteRune_valid _ ":"%rune) by lia.
    change (Builder.Len [] =? 0) with true. change (Z.of_nat (length []) >? 0) with false.
    cbv iota. rewrite (WriteRune_valid _ "{"%rune) by lia.
    unfold member_text. simpl. by rewrite app_nil_r, <- app_assoc.
  - cbn [length app]. rewrite Len_cons.
    rewrite (WriteRune_valid _ ":"%rune) by lia.
    replace (Z.of_nat (S (length rest)) >? 0) with true by (symmetry; apply Z.gtb_lt; lia).
    rewrite (WriteRune_valid _ ","%rune) by lia.
    rewrite fmap_app, concat_app. simpl. rewrite app_nil_r. unfold member_text. simpl.
    by rewrite <- !app_assoc.
Qed.

Lemma ObjectBuilder_Done_after policy members :
  ObjectBuilder.Done (ObjectBuilder_after policy members) = Ok (members_text policy members).
Proof.
  destruct members as [|first rest]; [done|].
  unfold ObjectBuilder.Done, ObjectBuilder_after, members_text.
  cbn [ob_b deref mbind result_bind].
  rewrite Len_cons.
  rewrite (WriteRune_valid _ "}"%rune) by lia. unfold member_text. simpl.
  by rewrite <- !app_assoc.
Qed.

(** *** [String] of an object *)

(** A string in which no rune asks the policy is encoded in the same way
    under every policy. *)
Lemma encodeString_asks_policy s policy policy' :
  existsb asks_policy s = false → encodeString s policy = encodeString s policy'.
Proof.
  intros Hasks. unfold encodeString. f_equal. generalize (Builder.WriteRune [] DQUOTE).
  induction s as [|char s IH]; intros b; [done|].
  cbn [existsb] in Hasks. apply orb_false_elim in Hasks as [Hchar Hs].
  cbn [foldl]. rewrite IH by done. f_equal.
  unfold asks_policy in Hchar. apply orb_false_elim in Hchar as [Hcontrol Hshorthand].
  apply bool_decide_eq_false in Hshorthand.
  unfold encodeString_char. rewrite Hcontrol.
  match goal with
  | |- match ?x with Some _ => _ | None => _ end = _ => destruct x as [text|] eqn:Hlookup
  end; [|done].
  exfalso. apply Hshorthand. by exists text.
Qed.


(** A call on the zero value of the builder panics: [b] is nil. *)
Lemma ObjectBuilder_zero_panics name :
  (∀ value, ObjectBuilder.AddJSON name value ObjectBuilder.zero = Panic nil_dereference) ∧
  (∀ value, ObjectBuilder.AddString name value ObjectBuilder.zero = Panic nil_dereference) ∧
  (∀ value, ObjectBuilder.AddBool name value ObjectBuilder.zero = Panic nil_dereference) ∧
  ObjectBuilder.AddNull name ObjectBuilder.zero = Panic nil_dereference ∧
  ObjectBuilder.Done ObjectBuilder.zero = Panic nil_dereference.
Proof.
  split; [done|]. split; [|split; [by intros []|done]].
  intros value. unfold ObjectBuilder.AddString, ObjectBuilder.zero, encodeString_with.
  cbn [ob_stringCharacterEscapingBehavior]. by destruct (existsb asks_policy value).
Qed.

Lemma Object_nesting_lookup object key value :
  go_get (o_objects object) key = Some value →
  (Object_nesting value < Object_nesting object)%nat.
Proof.
  destruct object as [strings numbers bools nulls [objects|] arrays keys]; [|done].
  cbn [go_get o_objects Object_nesting from_option]. intros Hlookup.
  rewrite (map_fold_delete_L _ _ key value objects); [lia| |done].
  intros. lia.
Qed.

(** [String] panics on every object.  By induction on the nesting: when
    the [String] of the nested objects panics, an iteration of the loop on
    the builder that the loop starts from leaves the builder as it is for
    a key without value and panics for a key that has one, and [Done]
    panics on the builder that is left. *)
Lemma ObjectStruct_String_panics arrayString object :
  ObjectStruct_String arrayString object = Panic nil_dereference.
Proof.
  induction (Nat.lt_wf_0_projected Object_nesting object) as [object _ IH].
  assert (∀ key value, go_get (o_objects object) key = Some value →
            ObjectStruct_String arrayString value = Panic nil_dereference) as Hnested.
  { intros key value Hlookup. apply IH. by eapply Object_nesting_lookup. }
  clear IH. destruct object as [strings numbers bools nulls objects arrays keys].
  cbn [ObjectStruct_String o_objects] in *.
  match goal with
  | |- mbind _ (foldl ?member _ _) = _ =>
      assert (∀ keys, foldl member (Ok ObjectBuilder.zero) keys = Ok ObjectBuilder.zero ∨
                      foldl member (Ok ObjectBuilder.zero) keys = Panic nil_dereference)
        as Hloop
  end.
  { clear keys. intros keys. induction keys as [|key keys IHkeys] using rev_ind; [by left|].
    rewrite foldl_app. cbn [foldl]. destruct IHkeys as [-> | ->]; [|by right].
    cbn [mbind result_bind]. rewrite go_get_fmap.
    destruct (ObjectBuilder_zero_panics key) as (Hjson & Hstring & Hbool & Hnull & _).
    destruct (go_get strings key); [by right|].
    destruct (go_get numbers key); [by right|].
    destruct (go_get bools key); [by right|].
    destruct (go_get nulls key); [by right|].
    destruct (go_get objects key) as [value|] eqn:Hvalue.
    { cbn [fmap option_fmap option_map]. rewrite (Hnested key value Hvalue). by right. }
    cbn [fmap option_fmap option_map].
    destruct (go_get arrays key); [by right|]. by left. }
  destruct (Hloop keys) as [-> | ->]; done.
Qed.

(** C3. For the object made by any sequence of [Set*] calls: [keys] is
    the sequence of the distinct keys of the calls in the order of their
    first call, without duplicate, and a further [Set*] call on a key that
    is present leaves [keys] as it is.  [String] walks [keys] in this
    order, but it returns no text: on every object it panics, because its
    builder is the zero value of [ObjectBuilderStruct], whose [b] is nil. *)
Theorem C3_order_preservation arrayString calls :
  let object := Object_of_calls calls in
  o_keys object = first_occurrences calls.*1 ∧
  NoDup (o_keys object) ∧
  (∀ key v, key ∈ o_keys object → o_keys (Object_Set key v object) = o_keys object) ∧
  (∀ object, ObjectStruct_String arrayString object = Panic nil_dereference).
Proof.
  intros object. subst object.
  pose proof (Object_of_calls_model calls) as [Hkeys Hslot].
  pose proof (Object_of_calls_wf calls) as (Hex & Hnodup & Hhas).
  split; [done|]. split; [done|]. split.
  - intros key v Hin. rewrite Object_Set_keys, addKey_keys.
    by rewrite (proj1 (Hhas key) Hin).
  - apply ObjectStruct_String_panics.
Qed.

Lemma C3_order_preservation_witness :
  let calls :=
    [ (lit "a", VString (lit "x")); (lit "b", VBool true); (lit "c", VNumber (lit "3"));
      (lit "a", VString (lit "z")) ] in
  o_keys (Object_of_calls calls) = [lit "a"; lit "b"; lit "c"] ∧
  ObjectStruct_String (λ _, lit "[]") (Object_of_calls calls) = Panic nil_dereference.
Proof.
  intros calls.
  destruct (C3_order_preservation (λ _, lit "[]") calls) as (Hkeys & _ & _ & Hpanics).
  split; [exact Hkeys|apply Hpanics].
Defined.

(** ** C4: duplicate member names *)






(** ** C1: the round trip *)

(** A string of one control character, added to a new array: the minimal
    policy writes the character as it is, and the parser rejects the text. *)
Lemma control_character_round_trip objectString c :
  0 <= c < 0x20 →
  ArrayStruct_String objectString MinimalStringCharacterEscapingBehavior
    (Array.AddString [c] Array.NewArray).1 = [ "["%rune; DQUOTE; c; DQUOTE; "]"%rune ] ∧
  ParseArray
    (ArrayStruct_String objectString MinimalStringCharacterEscapingBehavior
       (Array.AddString [c] Array.NewArray).1) = Err InvalidCharacter.
Proof.
  intros Hc. assert (Hin : c ∈ seqZ 0 32) by (apply elem_of_seqZ; lia).
  clear Hc. revert c Hin. apply Forall_forall.
  let l := eval vm_compute in (seqZ 0 32) in change (seqZ 0 32) with l.
  repeat (apply Forall_cons_2; [split; vm_compute; reflexivity|]).
  apply Forall_nil_2.
Qed.

(** C1. Arrays built with the typed calls whose text the parser does not
    read back.  A string with a control character is written with the
    character as it is, and the parse of the text fails with "invalid
    character".  A negative integer is written with its minus sign, and
    the parse fails at the sign.  The parse of the text of an array with
    one element reaches [AddString] on the zero value of [ArrayStruct],
    whose maps are nil. *)
Theorem C1_round_trip objectString :
  (∀ c, 0 <= c < 0x20 →
     ParseArray
       (ArrayStruct_String objectString MinimalStringCharacterEscapingBehavior
          (Array.AddString [c] Array.NewArray).1) = Err InvalidCharacter) ∧
  ArrayStruct_String objectString MinimalStringCharacterEscapingBehavior
    (Array.AddString [NEWLINE] Array.NewArray).1
    = [ "["%rune; DQUOTE; NEWLINE; DQUOTE; "]"%rune ] ∧
  ArrayStruct_String objectString MinimalStringCharacterEscapingBehavior
    (Array.AddInt (-5) Array.NewArray).1 = lit "[-5]" ∧
  ParseArray
    (ArrayStruct_String objectString MinimalStringCharacterEscapingBehavior
       (Array.AddInt (-5) Array.NewArray).1)
    = Err (UnexpectedCharacter "-"%rune) ∧
  ArrayStruct_String objectString MinimalStringCharacterEscapingBehavior
    (Array.AddString (lit "a") Array.NewArray).1 = lit "['\u0061']" ∧
  ParseArray
    (ArrayStruct_String objectString MinimalStringCharacterEscapingBehavior
       (Array.AddString (lit "a") Array.NewArray).1) = Panic nil_map_write.
Proof.
  split; [intros c Hc; apply (control_character_round_trip objectString c Hc)|].
  repeat split; by vm_compute.
Qed.

Lemma C1_round_trip_witness :
  ParseArray
    (ArrayStruct_String (λ _ _, lit "{}") MinimalStringCharacterEscapingBehavior
       (Array.AddString [NEWLINE] Array.NewArray).1) = Err InvalidCharacter.
Proof. apply (proj1 (C1_round_trip (λ _ _, lit "{}"))). lia. Defined.

(** ** Fuel: the parser always answers *)

Lemma consumed_mono {A} (r r' : Reader) (x : result (A * Reader)) :
  consumed r' x → (length r' <= length r)%nat → consumed r x.
Proof. destruct x as [[? ?]| | |]; simpl; [lia|done..]. Qed.

Lemma consumed_wrap {A} ctx (r : Reader) (x : result (A * Reader)) :
  consumed r x → consumed r (wrap ctx x).
Proof. by destruct x as [[? ?]| | |]. Qed.

Lemma skipWhitespace_length r :
  match skipWhitespace r with
  | Ok r' => (length r' <= length r)%nat
  | Err _ => True
  | _ => False
  end.
Proof.
  induction r as [|char r IH]; simpl; [done|].
  repeat case_match; simplify_eq; simpl in *; try done; lia.
Qed.

Lemma parseString_loop_consumed n r b prevHex :
  (length r <= n)%nat → consumed (0 :: r) (parseString_loop r b prevHex).
Proof.
  revert r b prevHex. induction n as [|n IH]; intros r b prevHex Hn.
  { destruct r; [done|simpl in Hn; lia]. }
  destruct r as [|char r]; [done|]. cbn [parseString_loop].
  repeat (case_match; simplify_eq); try done; simpl in *; try lia;
    (eapply consumed_mono; [apply IH|]; simpl; lia).
Qed.

Lemma parseString_consumed r : consumed r (parseString r).
Proof.
  destruct r as [|char r]; [done|]. unfold parseString.
  repeat case_match; try done.
  eapply consumed_mono; [by apply (parseString_loop_consumed (length r))|done].
Qed.

Lemma extractNumber_integerDigits_consumed r extracted :
  consumed (0 :: r) (extractNumber_integerDigits r extracted).
Proof.
  revert extracted. induction r as [|char r IH]; intros extracted; [done|].
  cbn [extractNumber_integerDigits]. repeat case_match; try done; simpl; try lia.
  eapply consumed_mono; [apply IH|simpl; lia].
Qed.

Lemma extractNumber_fractionDigits_consumed r extracted :
  consumed (0 :: r) (extractNumber_fractionDigits r extracted).
Proof.
  revert extracted. induction r as [|char r IH]; intros extracted; [done|].
  cbn [extractNumber_fractionDigits]. repeat case_match; try done; simpl; try lia.
  eapply consumed_mono; [apply IH|simpl; lia].
Qed.

Lemma extractNumber_exponentDigits_consumed r extracted :
  consumed (0 :: r) (extractNumber_exponentDigits r extracted).
Proof.
  revert extracted. induction r as [|char r IH]; intros extracted; [simpl; lia|].
  cbn [extractNumber_exponentDigits]. repeat case_match; try done; simpl; try lia.
  eapply consumed_mono; [apply IH|simpl; lia].
Qed.

Lemma extractIdentifier_loop_consumed r extracted :
  consumed (0 :: r) (extractIdentifier_loop r extracted).
Proof.
  revert extracted. induction r as [|char r IH]; intros extracted; [simpl; lia|].
  cbn [extractIdentifier_loop]. repeat case_match; try done; simpl; try lia.
  eapply consumed_mono; [apply IH|simpl; lia].
Qed.

Lemma extractIdentifier_consumed r : consumed r (extractIdentifier r).
Proof.
  destruct r as [|char r]; [done|]. unfold extractIdentifier.
  repeat case_match; try done. apply extractIdentifier_loop_consumed.
Qed.

(** The term that the evaluation of [e] inspects first. *)
Ltac head_scrutinee e :=
  lazymatch e with
  | match ?x with _ => _ end => head_scrutinee x
  | _ => e
  end.

Ltac consume_head x :=
  lazymatch x with
  | skipWhitespace ?r =>
      pose proof (skipWhitespace_length r); destruct (skipWhitespace r) as [?| | |]
  | extractNumber_integerDigits ?r ?e =>
      pose proof (extractNumber_integerDigits_consumed r e);
      destruct (extractNumber_integerDigits r e) as [[? ?]| | |]
  | extractNumber_fractionDigits ?r ?e =>
      pose proof (extractNumber_fractionDigits_consumed r e);
      destruct (extractNumber_fractionDigits r e) as [[? ?]| | |]
  | extractNumber_exponentDigits ?r ?e =>
      pose proof (extractNumber_exponentDigits_consumed r e);
      destruct (extractNumber_exponentDigits r e) as [[? ?]| | |]
  | parseString ?r =>
      pose proof (parseString_consumed r); destruct (parseString r) as [[? ?]| | |]
  | extractIdentifier ?r =>
      pose proof (extractIdentifier_consumed r); destruct (extractIdentifier r) as [[? ?]| | |]
  | _ => destruct x
  end.

Ltac consume_step :=
  unfold mbind, result_bind, wrap;
  lazymatch goal with
  | |- consumed _ ?e => let x := head_scrutinee e in consume_head x
  end; cbn [consumed] in *; try done.

Lemma extractNumber_consumed r : consumed r (extractNumber r).
Proof.
  unfold extractNumber. repeat consume_step; simpl length in *; lia.
Qed.

Lemma called_answers x :
  match called x with
  | Ok _ | Panic _ => True
  | _ => False
  end.
Proof. by destruct x as [array []]. Qed.

Ltac parse_head IHo IHol IHa IHal fuel x :=
  lazymatch x with
  | parseEmbeddedObject fuel ?r =>
      assert (consumed r (parseEmbeddedObject fuel r))
        by (apply IHo; simpl length in *; lia);
      destruct (parseEmbeddedObject fuel r) as [[? ?]| | |]
  | parseEmbeddedArray fuel ?r =>
      assert (consumed r (parseEmbeddedArray fuel r))
        by (apply IHa; simpl length in *; lia);
      destruct (parseEmbeddedArray fuel r) as [[? ?]| | |]
  | parseEmbeddedObject_loop fuel ?o ?r =>
      assert (consumed r (parseEmbeddedObject_loop fuel o r))
        by (apply IHol; simpl length in *; lia);
      destruct (parseEmbeddedObject_loop fuel o r) as [[? ?]| | |]
  | parseEmbeddedArray_loop fuel ?a ?r =>
      assert (consumed r (parseEmbeddedArray_loop fuel a r))
        by (apply IHal; simpl length in *; lia);
      destruct (parseEmbeddedArray_loop fuel a r) as [[? ?]| | |]
  | extractNumber ?r =>
      pose proof (extractNumber_consumed r); destruct (extractNumber r) as [[? ?]| | |]
  | called ?y =>
      pose proof (called_answers y); destruct (called y)
  | _ => consume_head x
  end.

Ltac parse_step IHo IHol IHa IHal fuel :=
  unfold mbind, result_bind, wrap;
  lazymatch goal with
  | |- consumed _ ?e =>
      let x := head_scrutinee e in parse_head IHo IHol IHa IHal fuel x
  end; cbn [consumed] in *; try done.

(** With two units of fuel per rune and one more (two more for the
    loops), the parsers do not run out of fuel, and what they return they
    return after reading at least one rune. *)
Lemma parse_fuel fuel :
  (∀ r, (2 * length r + 1 <= fuel)%nat → consumed r (parseEmbeddedObject fuel r)) ∧
  (∀ object r, (2 * length r + 2 <= fuel)%nat →
     consumed r (parseEmbeddedObject_loop fuel object r)) ∧
  (∀ r, (2 * length r + 1 <= fuel)%nat → consumed r (parseEmbeddedArray fuel r)) ∧
  (∀ array r, (2 * length r + 2 <= fuel)%nat →
     consumed r (parseEmbeddedArray_loop fuel array r)).
Proof.
  induction fuel as [|fuel (IHo & IHol & IHa & IHal)].
  { repeat split; intros; lia. }
  split; [|split; [|split]].
  - intros r Hfuel. cbn [parseEmbeddedObject].
    repeat parse_step IHo IHol IHa IHal fuel; simpl length in *; lia.
  - intros object r Hfuel. cbn [parseEmbeddedObject_loop].
    repeat parse_step IHo IHol IHa IHal fuel; simpl length in *; lia.
  - intros r Hfuel. cbn [parseEmbeddedArray].
    repeat parse_step IHo IHol IHa IHal fuel; simpl length in *; lia.
  - intros array r Hfuel. cbn [parseEmbeddedArray_loop].
    repeat parse_step IHo IHol IHa IHal fuel; simpl length in *; lia.
Qed.

Lemma parseEnd_answers r :
  match parseEnd r with
  | Ok _ | Err _ => True
  | _ => False
  end.
Proof. induction r as [|char r IH]; simpl; [done|]. by repeat case_match. Qed.

(** The entry points give enough fuel: they return a value, return an
    error, or panic. *)
Lemma ParseObject_fuel s : ParseObject s ≠ OutOfFuel.
Proof.
  unfold ParseObject.
  pose proof (proj1 (parse_fuel (fuel_for s)) s) as Hfuel.
  destruct (parseEmbeddedObject (fuel_for s) s) as [[parsed r]| | |]; simpl; [|done|done|].
  - pose proof (parseEnd_answers r). by destruct (parseEnd r).
  - exfalso. apply Hfuel. unfold fuel_for. lia.
Qed.

Lemma ParseArray_fuel s : ParseArray s ≠ OutOfFuel.
Proof.
  unfold ParseArray.
  pose proof (proj1 (proj2 (proj2 (parse_fuel (fuel_for s)))) s) as Hfuel.
  destruct (parseEmbeddedArray (fuel_for s) s) as [[parsed r]| | |]; simpl; [|done|done|].
  - pose proof (parseEnd_answers r). by destruct (parseEnd r).
  - exfalso. apply Hfuel. unfold fuel_for. lia.
Qed.

Ltac mono_call IH call :=
  let Hcall := fresh "Hcall" in
  pose proof IH as Hcall; destruct call as [[? ?]| | |];
  [rewrite Hcall by done|rewrite Hcall by done|rewrite Hcall by done|by intros []].

Ltac mono_step IHo IHol IHa IHal fuel :=
  unfold mbind, result_bind, wrap;
  lazymatch goal with
  | |- ?R ≠ OutOfFuel → _ = ?R =>
      let x := head_scrutinee R in
      lazymatch x with
      | parseEmbeddedObject fuel ?r => mono_call (IHo r) x
      | parseEmbeddedArray fuel ?r => mono_call (IHa r) x
      | parseEmbeddedObject_loop fuel ?o ?r => mono_call (IHol o r) x
      | parseEmbeddedArray_loop fuel ?a ?r => mono_call (IHal a r) x
      | _ => destruct x
      end
  end; try done.

(** An answer does not depend on the fuel, once the fuel is enough. *)
Lemma parse_fuel_mono fuel fuel' :
  (fuel <= fuel')%nat →
  (∀ r, parseEmbeddedObject fuel r ≠ OutOfFuel →
     parseEmbeddedObject fuel' r = parseEmbeddedObject fuel r) ∧
  (∀ object r, parseEmbeddedObject_loop fuel object r ≠ OutOfFuel →
     parseEmbeddedObject_loop fuel' object r = parseEmbeddedObject_loop fuel object r) ∧
  (∀ r, parseEmbeddedArray fuel r ≠ OutOfFuel →
     parseEmbeddedArray fuel' r = parseEmbeddedArray fuel r) ∧
  (∀ array r, parseEmbeddedArray_loop fuel array r ≠ OutOfFuel →
     parseEmbeddedArray_loop fuel' array r = parseEmbeddedArray_loop fuel array r).
Proof.
  revert fuel'. induction fuel as [|fuel IH]; intros fuel' Hle.
  { repeat split; intros; done. }
  destruct fuel' as [|fuel']; [lia|].
  destruct (IH fuel' ltac:(lia)) as (IHo & IHol & IHa & IHal).
  split; [|split; [|split]].
  - intros r. cbn [parseEmbeddedObject].
    repeat mono_step IHo IHol IHa IHal fuel.
  - intros object r. cbn [parseEmbeddedObject_loop].
    repeat mono_step IHo IHol IHa IHal fuel.
  - intros r. cbn [parseEmbeddedArray].
    repeat mono_step IHo IHol IHa IHal fuel.
  - intros array r. cbn [parseEmbeddedArray_loop].
    repeat mono_step IHo IHol IHa IHal fuel.
Qed.

(** Whatever the fuel, the answer of [parseEmbeddedObject] is the answer
    at the fuel that [ParseObject] gives, unless the fuel was too little. *)
Lemma parseEmbeddedObject_fuel_for fuel s :
  parseEmbeddedObject fuel s ≠ OutOfFuel →
  parseEmbeddedObject fuel s = parseEmbeddedObject (fuel_for s) s.
Proof.
  intros Hfuel. destruct (Nat.le_ge_cases fuel (fuel_for s)) as [Hle|Hge].
  - symmetry. by apply (parse_fuel_mono fuel (fuel_for s) Hle).
  - apply (parse_fuel_mono (fuel_for s) fuel Hge).
    pose proof (proj1 (parse_fuel (fuel_for s)) s) as Hc.
    intros Hout. rewrite Hout in Hc. apply Hc. unfold fuel_for. lia.
Qed.

(** ** The numbers that [extractNumber] reads *)

Lemma extractNumber_integerDigits_app digits c rest extracted :
  all_digits digits = true → isDigitCharacter c = false → c ≠ unicode.ReplacementChar →
  extractNumber_integerDigits (digits ++ c :: rest) extracted
  = Ok (extracted ++ digits, c :: rest).
Proof.
  revert extracted. induction digits as [|d digits IH]; intros extracted Hd Hc Hr.
  - cbn [app extractNumber_integerDigits]. rewrite Hc.
    replace (c =? unicode.ReplacementChar) with false by (unfold unicode.ReplacementChar in *; lia).
    by rewrite app_nil_r.
  - cbn [all_digits forallb] in Hd. apply andb_prop in Hd as [Hd1 Hd2].
    cbn [app extractNumber_integerDigits]. rewrite Hd1.
    replace (d =? unicode.ReplacementChar) with false
      by (unfold isDigitCharacter, unicode.ReplacementChar in *; lia).
    cbn [negb]. rewrite IH by done. by rewrite <- app_assoc.
Qed.

Lemma extractNumber_fractionDigits_app digits c rest extracted :
  all_digits digits = true → isDigitCharacter c = false → c ≠ unicode.ReplacementChar →
  extractNumber_fractionDigits (digits ++ c :: rest) extracted
  = Ok (extracted ++ digits, c :: rest).
Proof.
  revert extracted. induction digits as [|d digits IH]; intros extracted Hd Hc Hr.
  - cbn [app extractNumber_fractionDigits]. rewrite Hc.
    replace (c =? unicode.ReplacementChar) with false by (unfold unicode.ReplacementChar in *; lia).
    by rewrite app_nil_r.
  - cbn [all_digits forallb] in Hd. apply andb_prop in Hd as [Hd1 Hd2].
    cbn [app extractNumber_fractionDigits]. rewrite Hd1.
    replace (d =? unicode.ReplacementChar) with false
      by (unfold isDigitCharacter, unicode.ReplacementChar in *; lia).
    cbn [negb]. rewrite IH by done. by rewrite <- app_assoc.
Qed.

Lemma extractNumber_exponentDigits_app digits c rest extracted :
  all_digits digits = true → isDigitCharacter c = false → c ≠ unicode.ReplacementChar →
  extractNumber_exponentDigits (digits ++ c :: rest) extracted
  = Ok (extracted ++ digits, c :: rest).
Proof.
  revert extracted. induction digits as [|d digits IH]; intros extracted Hd Hc Hr.
  - cbn [app extractNumber_exponentDigits]. rewrite Hc.
    replace (c =? unicode.ReplacementChar) with false by (unfold unicode.ReplacementChar in *; lia).
    by rewrite app_nil_r.
  - cbn [all_digits forallb] in Hd. apply andb_prop in Hd as [Hd1 Hd2].
    cbn [app extractNumber_exponentDigits]. rewrite Hd1.
    replace (d =? unicode.ReplacementChar) with false
      by (unfold isDigitCharacter, unicode.ReplacementChar in *; lia).
    cbn [negb]. rewrite IH by done. by rewrite <- app_assoc.
Qed.

Ltac split_bools :=
  repeat match goal with
  | H : _ && _ = true |- _ => apply andb_prop in H as [? ?]
  | H : negb _ = true |- _ => apply negb_true_iff in H
  | H : bool_decide _ = true |- _ => apply bool_decide_eq_true in H
  | H : bool_decide _ = false |- _ => apply bool_decide_eq_false in H
  | H : all_digits (_ :: _) = true |- _ => cbn [all_digits forallb] in H
  end.

Ltac number_side :=
  first [assumption | done
        | unfold isDigitCharacter, unicode.ReplacementChar in *; lia ].

Ltac number_step :=
  unfold mbind, result_bind; cbn [app];
  lazymatch goal with
  | |- ?X = _ =>
      let x := head_scrutinee X in
      lazymatch x with
      | extractNumber_integerDigits (?ds ++ ?c :: ?rest) ?acc =>
          rewrite (extractNumber_integerDigits_app ds c rest acc) by number_side
      | extractNumber_fractionDigits (?ds ++ ?c :: ?rest) ?acc =>
          rewrite (extractNumber_fractionDigits_app ds c rest acc) by number_side
      | extractNumber_exponentDigits (?ds ++ ?c :: ?rest) ?acc =>
          rewrite (extractNumber_exponentDigits_app ds c rest acc) by number_side
      | extractNumber_integerDigits (?c :: ?rest) ?acc =>
          rewrite (extractNumber_integerDigits_app [] c rest acc) by number_side
      | extractNumber_fractionDigits (?c :: ?rest) ?acc =>
          rewrite (extractNumber_fractionDigits_app [] c rest acc) by number_side
      | extractNumber_exponentDigits (?c :: ?rest) ?acc =>
          rewrite (extractNumber_exponentDigits_app [] c rest acc) by number_side
      | Ok _ => fail
      | (_, _) => cbv iota beta
      | _ :: _ => cbv iota beta
      | true => cbv iota beta
      | false => cbv iota beta
      | _ => let E := fresh "E" in destruct x eqn:E;
             try (exfalso; unfold isDigitCharacter, unicode.ReplacementChar in *; lia)
      end
  end.

(** [extractNumber] reads a text made of well-formed parts, a fraction
    without digit included, up to the rune that ends the number. *)
Lemma extractNumber_parts p c rest :
  parts_ok false p = true → ends_number c = true →
  extractNumber (parts_text p ++ c :: rest) = Ok (parts_text p, c :: rest).
Proof.
  destruct p as [minus int frac exp].
  unfold parts_ok, integer_ok, fraction_ok, exponent_ok, parts_text, fraction_text,
    exponent_text, ends_number.
  cbn [p_minus p_integer p_fraction p_exponent negb orb]. intros Hok Hc.
  destruct int as [|d ds]; [done|]. split_bools.
  match goal with H : _ || _ = true |- _ => apply orb_prop in H as [H|H] end; split_bools; simplify_eq.
  all: destruct minus, frac as [fs|], exp as [[[e sg] xs]|]; split_bools.
  all: try match goal with H : _ ∨ _ ∨ _ |- _ => destruct H as [->|[->| ->]] end.
  all: try match goal with H : ?xs ≠ [] |- _ => destruct xs as [|x xs]; [done|] end.
  all: split_bools.
  all: rewrite <- ?app_assoc; cbn [app]; rewrite <- ?app_assoc; cbn [app].
  all: unfold extractNumber.
  all: repeat number_step.
  all: f_equal; f_equal; cbn [app]; rewrite <- ?app_assoc; cbn [app]; by rewrite ?app_nil_r.
Qed.

(** ** The grammar and the parts of a number *)

Lemma grammar_digits_split s :
  ∃ digits, s = digits ++ grammar_digits s ∧ all_digits digits = true.
Proof.
  induction s as [|c s [digits [Hs Hdigits]]]; [by exists []|].
  cbn [grammar_digits]. destruct (isDigitCharacter c) eqn:Hc; [|by exists []].
  exists (c :: digits). cbn [all_digits forallb app]. rewrite Hc.
  split; [by rewrite <- Hs|done].
Qed.

Lemma grammar_digits1_split s s' :
  grammar_digits1 s = Some s' →
  ∃ digits, s = digits ++ s' ∧ all_digits digits = true ∧ digits ≠ [].
Proof.
  destruct s as [|c s]; [done|]. cbn [grammar_digits1].
  destruct (isDigitCharacter c) eqn:Hc; [|done]. intros [= <-].
  destruct (grammar_digits_split s) as [digits [Hs Hdigits]].
  exists (c :: digits). cbn [all_digits forallb app]. rewrite Hc.
  split; [by rewrite <- Hs|done].
Qed.

Lemma grammar_integer_parts s s' :
  grammar_integer s = Some s' → ∃ integer, s = integer ++ s' ∧ integer_ok integer = true.
Proof.
  destruct s as [|c s]; [done|]. cbn [grammar_integer].
  destruct (c =? "0"%rune) eqn:Hzero.
  { intros [= <-]. exists [c]. split; [done|]. cbn [integer_ok]. by rewrite Hzero. }
  destruct (("1"%rune <=? c) && (c <=? "9"%rune)) eqn:Hc; [|done]. intros [= <-].
  destruct (grammar_digits_split s) as [digits [Hs Hdigits]].
  exists (c :: digits). split; [cbn [app]; by rewrite <- Hs|].
  cbn [integer_ok]. rewrite Hc, Hdigits. apply orb_true_r.
Qed.

Lemma grammar_fraction_parts s s' :
  grammar_fraction s = Some s' →
  ∃ fraction, s = fraction_text fraction ++ s' ∧ fraction_ok true fraction = true.
Proof.
  destruct s as [|c s]; [intros [= <-]; by exists None|]. cbn [grammar_fraction].
  destruct (c =? "."%rune) eqn:Hc; [|intros [= <-]; by exists None].
  apply Z.eqb_eq in Hc as ->. intros (digits & -> & Hdigits & Hne)%grammar_digits1_split.
  exists (Some digits). split; [done|]. cbn [fraction_ok negb orb].
  rewrite Hdigits. by rewrite bool_decide_eq_false_2.
Qed.

Lemma grammar_exponent_parts s :
  grammar_exponent s = Some [] →
  ∃ exponent, s = exponent_text exponent ∧ exponent_ok exponent = true.
Proof.
  destruct s as [|e s]; [by exists None|]. cbn [grammar_exponent].
  destruct ((e =? "e"%rune) || (e =? "E"%rune)) eqn:He; [|done].
  destruct s as [|c s]; [done|].
  destruct ((c =? "+"%rune) || (c =? "-"%rune)) eqn:Hc.
  - intros (digits & -> & Hdigits & Hne)%grammar_digits1_split.
    exists (Some (e, [c], digits)). split; [by rewrite app_nil_r|].
    cbn [exponent_ok]. rewrite He, Hdigits, (bool_decide_eq_false_2 _ Hne).
    rewrite bool_decide_eq_true_2; [done|].
    apply orb_prop in Hc as [->%Z.eqb_eq| ->%Z.eqb_eq]; auto.
  - intros (digits & Hs & Hdigits & Hne)%grammar_digits1_split.
    exists (Some (e, [], digits)). split; [by rewrite Hs, app_nil_r|].
    cbn [exponent_ok]. rewrite He, Hdigits, (bool_decide_eq_false_2 _ Hne).
    rewrite bool_decide_eq_true_2; auto.
Qed.

(** A text that the grammar matches is made of the four parts. *)
Lemma number_grammar_parts N :
  number_grammar N = true → ∃ p, parts_ok true p = true ∧ N = parts_text p.
Proof.
  unfold number_grammar. intros HN.
  destruct (grammar_integer (grammar_sign N)) as [s1|] eqn:Hinteger; [|done].
  cbn in HN. destruct (grammar_fraction s1) as [s2|] eqn:Hfraction; [|done].
  cbn in HN. destruct (grammar_exponent s2) as [[|? ?]|] eqn:Hexponent; [|done..].
  apply grammar_integer_parts in Hinteger as (integer & Hsign & Hinteger).
  apply grammar_fraction_parts in Hfraction as (fraction & -> & Hfraction).
  apply grammar_exponent_parts in Hexponent as (exponent & -> & Hexponent).
  assert (∃ minus : bool, N = (if minus then ["-"%rune] else []) ++ grammar_sign N)
    as [minus Hminus].
  { destruct N as [|c N]; [by exists false|]. cbn [grammar_sign].
    destruct (c =? "-"%rune) eqn:Hc; [|by exists false].
    apply Z.eqb_eq in Hc as ->. by exists true. }
  exists {| p_minus := minus; p_integer := integer; p_fraction := fraction;
            p_exponent := exponent |}.
  unfold parts_ok, parts_text. cbn [p_minus p_integer p_fraction p_exponent].
  rewrite Hinteger, Hfraction, Hexponent. split; [done|].
  rewrite Hminus at 1. by rewrite Hsign.
Qed.

Lemma parts_ok_strict p : parts_ok true p = true → parts_ok false p = true.
Proof.
  unfold parts_ok. destruct (p_fraction p) as [digits|]; [|done].
  unfold fraction_ok. cbn [negb orb]. intros H. split_bools.
  repeat (apply andb_true_intro; split); done.
Qed.

(** A number without minus sign starts with a digit. *)
Lemma parts_text_head p :
  parts_ok false p = true → p_minus p = false →
  ∃ c tail, parts_text p = c :: tail ∧ isDigitCharacter c = true.
Proof.
  unfold parts_ok, parts_text. intros Hok ->. split_bools.
  destruct (p_integer p) as [|c digits]; [done|]. exists c. eexists. split; [done|].
  unfold integer_ok in *.
  match goal with H : _ || _ = true |- _ => apply orb_prop in H as [H|H] end; split_bools;
    unfold isDigitCharacter; lia.
Qed.

(** ** Numbers that the parser stores as they are written *)

(** The member x of an object whose text has the well-formed parts [p],
    without minus sign, after the name x: its number is the text of the
    parts, rune for rune. *)
Lemma ParseObject_number_parts p :
  parts_ok false p = true → p_minus p = false →
  (o ← ParseObject (lit "{'x':" ++ parts_text p ++ lit "}"); Object.GetNumber (lit "x") o)
  = Ok (parts_text p).
Proof.
  intros Hok Hminus.
  destruct (parts_text_head p Hok Hminus) as (c & tail & Htext & Hc).
  pose proof (extractNumber_parts p "}"%rune [] Hok eq_refl) as Hnumber.
  unfold ParseObject.
  match goal with |- context [fuel_for ?s] =>
    assert (2 <= fuel_for s)%nat as Hfuel by (unfold fuel_for; simpl; lia);
    destruct (fuel_for s) as [|[|fuel]]; [lia..|clear Hfuel]
  end.
  change (lit "}") with ["}"%rune]. rewrite Htext in *.
  match goal with |- context [lit "{'x':" ++ ?t] =>
    change (lit "{'x':" ++ t) with ("{"%rune :: DQUOTE :: "x"%rune :: DQUOTE :: ":"%rune :: t)
  end.
  assert (c ≠ 65533 ∧ c ≠ 9 ∧ c ≠ 10 ∧ c ≠ 32 ∧ c ≠ 13 ∧ c ≠ 123 ∧ c ≠ 91 ∧ c ≠ 34)
    as (? & ? & ? & ? & ? & ? & ? & ?) by (unfold isDigitCharacter in Hc; lia).
  cbn [lit app parseEmbeddedObject parseEmbeddedObject_loop skipWhitespace
       mbind result_bind wrap negb andb orb isWhitespace
       Z.eqb Z.leb Z.ltb Z.gtb Z.geb Z.compare Pos.eqb Pos.compare Pos.compare_cont
       CompOpp unicode.ReplacementChar].
  change (parseString (DQUOTE :: "x"%rune :: DQUOTE :: ":"%rune :: c :: tail ++ ["}"%rune]))
    with (@Ok (gostring * Reader) (lit "x", ":"%rune :: c :: tail ++ ["}"%rune])).
  cbn [lit app parseEmbeddedObject parseEmbeddedObject_loop skipWhitespace
       mbind result_bind wrap negb andb orb isWhitespace
       Z.eqb Z.leb Z.ltb Z.gtb Z.geb Z.compare Pos.eqb Pos.compare Pos.compare_cont
       CompOpp unicode.ReplacementChar].
  change (Object.Has (lit "x") Object.zero) with false. cbv iota.
  cbn [skipWhitespace isWhitespace unicode.ReplacementChar mbind result_bind].
  rewrite !(proj2 (Z.eqb_neq c _)) by done.
  assert (isWhitespace c = false) as ->
    by (unfold isWhitespace; rewrite !(proj2 (Z.eqb_neq c _)) by done; done).
  cbn [mbind result_bind]. rewrite !(proj2 (Z.eqb_neq c _)) by done.
  rewrite Hc. cbn [app] in Hnumber. rewrite Hnumber.
  cbn [wrap mbind result_bind skipWhitespace isWhitespace unicode.ReplacementChar
       Z.eqb Pos.eqb orb parseEnd].
  apply GetNumber_SetNumber.
Qed.

(** Every text that the grammar matches and that does not start with a
    minus sign is stored as it is written. *)
Lemma ParseObject_number_grammar N :
  number_grammar N = true → head N ≠ Some "-"%rune →
  (o ← ParseObject (lit "{'x':" ++ N ++ lit "}"); Object.GetNumber (lit "x") o) = Ok N.
Proof.
  intros (p & Hok & ->)%number_grammar_parts Hsign.
  apply ParseObject_number_parts; [by apply parts_ok_strict|].
  destruct (p_minus p) eqn:Hminus; [|done]. exfalso.
  unfold parts_text in Hsign. by rewrite Hminus in Hsign.
Qed.

(** ** The parts of a number and the grammar *)

Lemma grammar_digits_app digits s :
  all_digits digits = true → grammar_digits (digits ++ s) = grammar_digits s.
Proof.
  induction digits as [|d digits IH]; [done|]. cbn [all_digits forallb app grammar_digits].
  intros [-> Hdigits]%andb_prop. by apply IH.
Qed.

Lemma grammar_integer_app integer s :
  integer_ok integer = true → grammar_digits s = s →
  grammar_integer (integer ++ s) = Some s.
Proof.
  destruct integer as [|c digits]; [done|]. cbn [integer_ok app grammar_integer].
  intros [[Hc ->%bool_decide_eq_true]%andb_prop|[Hc Hdigits]%andb_prop]%orb_prop Hs.
  - by rewrite Hc.
  - rewrite Hc. destruct (c =? "0"%rune) eqn:Hzero; [lia|].
    by rewrite grammar_digits_app, Hs.
Qed.

Lemma grammar_fraction_app fraction s :
  fraction_ok true fraction = true → grammar_digits s = s → head s ≠ Some "."%rune →
  grammar_fraction (fraction_text fraction ++ s) = Some s.
Proof.
  destruct fraction as [digits|]; cbn [fraction_ok fraction_text app negb orb].
  - intros [Hdigits Hne%negb_true_iff%bool_decide_eq_false]%andb_prop Hs _.
    destruct digits as [|d digits]; [done|]. cbn [all_digits forallb] in Hdigits.
    apply andb_prop in Hdigits as [Hd Hdigits].
    cbn [grammar_fraction app grammar_digits1 Z.eqb Pos.eqb]. rewrite Hd.
    by rewrite grammar_digits_app, Hs.
  - intros _ _ Hhead. destruct s as [|c s]; [done|]. cbn [grammar_fraction].
    destruct (c =? "."%rune) eqn:Hc; [|done]. apply Z.eqb_eq in Hc as ->. done.
Qed.

Lemma grammar_exponent_text exponent :
  exponent_ok exponent = true → grammar_exponent (exponent_text exponent) = Some [].
Proof.
  destruct exponent as [[[e sign] digits]|]; [|done]. cbn [exponent_ok exponent_text].
  intros Hok. split_bools. destruct digits as [|d digits]; [done|]. split_bools.
  assert (grammar_digits1 (d :: digits) = Some []) as Hdigits.
  { cbn [grammar_digits1].
    match goal with H : isDigitCharacter d = true |- _ => rewrite H end.
    rewrite <- (app_nil_r digits), grammar_digits_app by done. done. }
  cbn [grammar_exponent].
  match goal with H : _ || _ = true |- _ => rewrite H end.
  match goal with H : _ ∨ _ ∨ _ |- _ => destruct H as [->|[->| ->]] end.
  - cbn [app]. rewrite Hdigits.
    replace ((d =? "+"%rune) || (d =? "-"%rune)) with false; [done|].
    unfold isDigitCharacter in *. lia.
  - done.
  - done.
Qed.

Lemma exponent_text_head exponent :
  exponent_ok exponent = true →
  grammar_digits (exponent_text exponent) = exponent_text exponent ∧
  head (exponent_text exponent) ≠ Some "."%rune ∧
  grammar_digits1 (exponent_text exponent) = None.
Proof.
  destruct exponent as [[[e sign] digits]|]; [|done]. cbn [exponent_ok exponent_text].
  intros Hok. split_bools.
  assert (isDigitCharacter e = false) as He by (unfold isDigitCharacter; lia).
  cbn [grammar_digits grammar_digits1 head]. rewrite He.
  repeat split. intros [= ->]. done.
Qed.

(** The parts with a fraction of at least one digit are the texts that the
    grammar matches. *)
Lemma parts_number_grammar p :
  parts_ok true p = true → number_grammar (parts_text p) = true.
Proof.
  unfold parts_ok, parts_text, number_grammar. intros Hok. split_bools.
  destruct (exponent_text_head (p_exponent p)) as (Hdigits & Hhead & _); [done|].
  assert (grammar_sign ((if p_minus p then ["-"%rune] else []) ++ p_integer p ++
            fraction_text (p_fraction p) ++ exponent_text (p_exponent p))
          = p_integer p ++ fraction_text (p_fraction p) ++ exponent_text (p_exponent p))
    as ->.
  { destruct (p_minus p); [done|]. destruct (p_integer p) as [|c digits]; [done|].
    cbn [app grammar_sign]. destruct (c =? "-"%rune) eqn:Hc; [|done].
    unfold integer_ok in *. exfalso.
    match goal with H : _ || _ = true |- _ => apply orb_prop in H as [H|H] end; split_bools; lia. }
  rewrite grammar_integer_app; [|done|].
  - cbn [mbind option_bind]. rewrite grammar_fraction_app by done.
    cbn [mbind option_bind]. by rewrite grammar_exponent_text.
  - destruct (p_fraction p); [done|]. done.
Qed.

(** A fraction without digit is outside the grammar. *)
Lemma parts_empty_fraction p :
  parts_ok false p = true → p_fraction p = Some [] →
  number_grammar (parts_text p) = false.
Proof.
  unfold parts_ok, parts_text, number_grammar. intros Hok Hfraction. split_bools.
  rewrite Hfraction in *.
  destruct (exponent_text_head (p_exponent p)) as (_ & _ & Hdigits); [done|].
  assert (grammar_sign ((if p_minus p then ["-"%rune] else []) ++ p_integer p ++
            fraction_text (Some []) ++ exponent_text (p_exponent p))
          = p_integer p ++ fraction_text (Some []) ++ exponent_text (p_exponent p))
    as ->.
  { destruct (p_minus p); [done|]. destruct (p_integer p) as [|c digits]; [done|].
    cbn [app grammar_sign]. destruct (c =? "-"%rune) eqn:Hc; [|done].
    unfold integer_ok in *. exfalso.
    match goal with H : _ || _ = true |- _ => apply orb_prop in H as [H|H] end; split_bools; lia. }
  rewrite grammar_integer_app; [|done|done].
  cbn [mbind option_bind fraction_text app grammar_fraction Z.eqb Pos.eqb].
  by rewrite Hdigits.
Qed.

Lemma extractNumber_integerDigits_inv r extracted N r' :
  extractNumber_integerDigits r extracted = Ok (N, r') →
  ∃ digits, N = extracted ++ digits ∧ r = digits ++ r' ∧ all_digits digits = true.
Proof.
  revert extracted. induction r as [|c r IH]; intros extracted; [done|].
  cbn [extractNumber_integerDigits].
  destruct (c =? unicode.ReplacementChar); [done|].
  destruct (isDigitCharacter c) eqn:Hc; cbn [negb].
  - intros (digits & -> & -> & Hdigits)%IH. exists (c :: digits).
    rewrite <- app_assoc. cbn [all_digits forallb app]. by rewrite Hc.
  - intros [= <- <-]. exists []. by rewrite app_nil_r.
Qed.

Lemma extractNumber_fractionDigits_inv r extracted N r' :
  extractNumber_fractionDigits r extracted = Ok (N, r') →
  ∃ digits, N = extracted ++ digits ∧ r = digits ++ r' ∧ all_digits digits = true.
Proof.
  revert extracted. induction r as [|c r IH]; intros extracted; [done|].
  cbn [extractNumber_fractionDigits].
  destruct (c =? unicode.ReplacementChar); [done|].
  destruct (isDigitCharacter c) eqn:Hc; cbn [negb].
  - intros (digits & -> & -> & Hdigits)%IH. exists (c :: digits).
    rewrite <- app_assoc. cbn [all_digits forallb app]. by rewrite Hc.
  - intros [= <- <-]. exists []. by rewrite app_nil_r.
Qed.

Lemma extractNumber_exponentDigits_inv r extracted N r' :
  extractNumber_exponentDigits r extracted = Ok (N, r') →
  ∃ digits, N = extracted ++ digits ∧ r = digits ++ r' ∧ all_digits digits = true.
Proof.
  revert extracted. induction r as [|c r IH]; intros extracted.
  { intros [= <- <-]. exists []. by rewrite app_nil_r. }
  cbn [extractNumber_exponentDigits].
  destruct (c =? unicode.ReplacementChar); [done|].
  destruct (isDigitCharacter c) eqn:Hc; cbn [negb].
  - intros (digits & -> & -> & Hdigits)%IH. exists (c :: digits).
    rewrite <- app_assoc. cbn [all_digits forallb app]. by rewrite Hc.
  - intros [= <- <-]. exists []. by rewrite app_nil_r.
Qed.

Ltac invert_step H :=
  unfold mbind, result_bind in H;
  lazymatch type of H with
  | ?X = Ok _ =>
      let x := head_scrutinee X in
      lazymatch x with
      | extractNumber_integerDigits ?r ?e =>
          let E := fresh "E" in
          destruct x as [[? ?]| | |] eqn:E; [|discriminate H..];
          apply extractNumber_integerDigits_inv in E as (? & -> & -> & ?)
      | extractNumber_fractionDigits ?r ?e =>
          let E := fresh "E" in
          destruct x as [[? ?]| | |] eqn:E; [|discriminate H..];
          apply extractNumber_fractionDigits_inv in E as (? & -> & -> & ?)
      | extractNumber_exponentDigits ?r ?e =>
          let E := fresh "E" in
          destruct x as [[? ?]| | |] eqn:E; [|discriminate H..];
          apply extractNumber_exponentDigits_inv in E as (? & -> & -> & ?)
      | Ok _ => fail
      | (_, _) => cbv iota beta in H
      | _ :: _ => cbv iota beta in H
      | [] => cbv iota beta in H
      | _ => let E := fresh "E" in destruct x eqn:E; try discriminate H
      end
  end.

Ltac number_facts :=
  repeat match goal with
  | H : (_ =? _) = true |- _ => apply Z.eqb_eq in H; subst
  | H : _ || _ = true |- _ => apply orb_prop in H as [H|H]
  | H : negb _ = false |- _ => apply negb_false_iff in H
  | H : negb _ = true |- _ => apply negb_true_iff in H
  end.

Ltac list_norm := repeat (rewrite <- ?app_assoc; cbn [app]); rewrite ?app_nil_r.

Ltac parts_ok_solve :=
  unfold parts_ok, integer_ok, fraction_ok, exponent_ok, all_digits in *;
  cbn [p_minus p_integer p_fraction p_exponent forallb negb orb];
  repeat match goal with
  | H : ?b = true |- context [?b] => rewrite H
  | H : ?b = false |- context [?b] => rewrite H
  end;
  rewrite ?orb_true_r; reflexivity.

Ltac number_leaf minus integer fraction exponent :=
  exists {| p_minus := minus; p_integer := integer; p_fraction := fraction;
            p_exponent := exponent |};
  split;
  [|split;
    [cbn [parts_text fraction_text exponent_text p_minus p_integer p_fraction p_exponent app];
     rewrite ?app_nil_r; reflexivity
    |reflexivity]];
  solve [parts_ok_solve].

Ltac number_leaf_exponent minus integer fraction :=
  first [ number_leaf minus integer fraction open_constr:(None)
        | number_leaf minus integer fraction open_constr:(Some (_, [], _ :: _))
        | number_leaf minus integer fraction open_constr:(Some (_, [_], _ :: _)) ].

Ltac number_leaf_fraction minus integer :=
  first [ number_leaf_exponent minus integer open_constr:(None)
        | number_leaf_exponent minus integer open_constr:(Some _) ].

Ltac number_leaf_integer minus :=
  first [ number_leaf_fraction minus open_constr:([_])
        | number_leaf_fraction minus open_constr:(_ :: _) ].

Ltac number_leaf_any :=
  first [ number_leaf_integer open_constr:(false) | number_leaf_integer open_constr:(true) ].

(** What [extractNumber] returns is made of well-formed parts, with a
    fraction that may have no digit, and is the text that was read. *)
Lemma extractNumber_sound r N r' :
  extractNumber r = Ok (N, r') →
  ∃ p, parts_ok false p = true ∧ N = parts_text p ∧ r = N ++ r'.
Proof.
  unfold extractNumber. intros H.
  repeat invert_step H.
  all: injection H as <- <-.
  all: number_facts.
  all: list_norm.
  all: number_leaf_any.
Qed.

Lemma parts_ok_fraction p :
  parts_ok false p = true → p_fraction p ≠ Some [] → parts_ok true p = true.
Proof.
  unfold parts_ok. destruct (p_fraction p) as [digits|]; [|done].
  unfold fraction_ok. cbn [negb orb]. intros H Hne. split_bools.
  repeat (apply andb_true_intro; split); try done.
  apply negb_true_iff, bool_decide_eq_false_2. by intros ->.
Qed.

(** ** C2: the text of a number *)

(** C2. A number that the grammar matches and that does not start with a
    minus sign is stored as it is written: for 1.50 the parser stores the
    four runes 1.50.  But a value that starts with a minus sign never
    reaches [extractNumber], which would read it: the value is dispatched
    on [isDigitCharacter nextChar], the minus sign is not a digit, and the
    parse fails in [extractIdentifier], whatever follows the sign. *)
Theorem C2_number_fidelity :
  (∀ N, number_grammar N = true → head N ≠ Some "-"%rune →
     (o ← ParseObject (lit "{'x':" ++ N ++ lit "}"); Object.GetNumber (lit "x") o) = Ok N) ∧
  (o ← ParseObject (lit "{'x':1.50}"); Object.GetNumber (lit "x") o) = Ok (lit "1.50") ∧
  (∀ rest, ParseObject (lit "{'x':-" ++ rest)
     = Err (FailedToExtractIdentifier (UnexpectedCharacter "-"%rune))) ∧
  number_grammar (lit "-1") = true ∧
  extractNumber (lit "-1}") = Ok (lit "-1", lit "}") ∧
  ParseObject (lit "{'x':-1}") = Err (FailedToExtractIdentifier (UnexpectedCharacter "-"%rune)).
Proof.
  split; [apply ParseObject_number_grammar|].
  split; [vm_compute; reflexivity|]. split; [|repeat split; vm_compute; reflexivity].
  intros rest. unfold ParseObject, fuel_for. rewrite length_app.
  change (length (lit "{'x':-")) with 6%nat.
  replace (2 * (6 + length rest) + 2)%nat with (S (S (2 * length rest + 12)))%nat by lia.
  reflexivity.
Qed.

Lemma C2_number_fidelity_witness :
  (o ← ParseObject (lit "{'x':" ++ lit "1.50" ++ lit "}"); Object.GetNumber (lit "x") o)
  = Ok (lit "1.50").
Proof.
  apply (proj1 C2_number_fidelity (lit "1.50")); [reflexivity|discriminate].
Defined.

(** ** C5: the grammar of numbers *)

(** C5. What [extractNumber] returns is the text that it read, made of a
    sign, an integer part, a fraction and an exponent that are well formed,
    except that the fraction may have no digit: the loop that reads the
    digits of the fraction may read none.  Such a text is outside the
    grammar, and every text of this form is accepted when a rune that ends
    a number follows.  So the member 1. is stored as the two runes 1 and
    point.  The two other malformed numbers of the claim are rejected. *)
Theorem C5_number_grammar :
  (∀ r N r', extractNumber r = Ok (N, r') →
     r = N ++ r' ∧
     ∃ p, parts_ok false p = true ∧ N = parts_text p ∧
          (number_grammar N = true ↔ p_fraction p ≠ Some [])) ∧
  (∀ p c rest, parts_ok false p = true → ends_number c = true →
     extractNumber (parts_text p ++ c :: rest) = Ok (parts_text p, c :: rest)) ∧
  (o ← ParseObject (lit "{'x':1.}"); Object.GetNumber (lit "x") o) = Ok (lit "1.") ∧
  number_grammar (lit "1.") = false ∧
  (o ← ParseObject (lit "{'x':1.e5}"); Object.GetNumber (lit "x") o) = Ok (lit "1.e5") ∧
  number_grammar (lit "1.e5") = false ∧
  ParseObject (lit "{'x':01}") = Err (UnexpectedCharacter "1"%rune) ∧
  ParseObject (lit "{'x':1e}") = Err (FailedToExtractNumber (UnexpectedCharacter "}"%rune)).
Proof.
  split; [|split; [apply extractNumber_parts|repeat split; vm_compute; reflexivity]].
  intros r N r' (p & Hok & -> & ->)%extractNumber_sound. split; [done|].
  exists p. split; [done|]. split; [done|]. split.
  - intros Hgrammar Hfraction.
    by rewrite (parts_empty_fraction p Hok Hfraction) in Hgrammar.
  - intros Hfraction. by apply parts_number_grammar, parts_ok_fraction.
Qed.

Lemma C5_number_grammar_witness :
  extractNumber (lit "1.}") = Ok (lit "1.", lit "}").
Proof.
  apply (proj1 (proj2 C5_number_grammar)
           {| p_minus := false; p_integer := lit "1"; p_fraction := Some [];
              p_exponent := None |} "}"%rune []); reflexivity.
Defined.

(** * Further properties *)

(** ** Strings: what [encodeString] writes, [parseString] reads back *)

Lemma hexTable_hexValue n :
  0 <= n < 16 → hexValue (default 0 (hexTable !! Z.to_nat n)) = Some n.
Proof.
  intros Hn.
  assert (n ∈ seqZ 0 16) as Hin by (apply elem_of_seqZ; lia).
  clear Hn. revert n Hin. apply Forall_forall.
  let l := eval vm_compute in (seqZ 0 16) in change (seqZ 0 16) with l.
  repeat (apply Forall_cons_2; [vm_compute; reflexivity|]).
  apply Forall_nil_2.
Qed.

Lemma nibbles r :
  0 <= r < 0x10000 →
  hex4 (Z.land (Z.shiftr r 12) 0x0f) (Z.land (Z.shiftr r 8) 0x0f)
       (Z.land (Z.shiftr r 4) 0x0f) (Z.land r 0x0f) = r ∧
  0 <= Z.land (Z.shiftr r 12) 0x0f < 16 ∧ 0 <= Z.land (Z.shiftr r 8) 0x0f < 16 ∧
  0 <= Z.land (Z.shiftr r 4) 0x0f < 16 ∧ 0 <= Z.land r 0x0f < 16.
Proof.
  intros Hr. unfold hex4. change 0x0f with (Z.ones 4).
  rewrite !Z.land_ones, !Z.shiftr_div_pow2 by lia.
  change (2 ^ 12) with 4096. change (2 ^ 8) with 256. change (2 ^ 4) with 16.
  Z.to_euclidean_division_equations. lia.
Qed.

(** The escape of a rune of the basic plane is read as the rune, when no
    surrogate is pending. *)
Lemma toStringHexEscapeSequence_read r :
  0 <= r < 0x10000 →
  ∃ char0 char1 char2 char3 b0 b1 b2 b3,
    toStringHexEscapeSequence r = [BACKSLASH; "u"%rune; char0; char1; char2; char3] ∧
    hexValue char0 = Some b0 ∧ hexValue char1 = Some b1 ∧
    hexValue char2 = Some b2 ∧ hexValue char3 = Some b3 ∧
    hex4 b0 b1 b2 b3 = r.
Proof.
  intros Hr. destruct (nibbles r Hr) as (Hhex & H0 & H1 & H2 & H3).
  unfold toStringHexEscapeSequence. do 8 eexists.
  split; [reflexivity|]. rewrite !hexTable_hexValue by done. done.
Qed.

Lemma shorthand_lookup char :
  shorthandStringCharacterEscapeSequences !! char =
  if char =? DQUOTE then Some [BACKSLASH; DQUOTE]
  else if char =? BACKSLASH then Some [BACKSLASH; BACKSLASH]
  else if char =? "/"%rune then Some [BACKSLASH; "/"%rune]
  else if char =? BACKSPACE then Some [BACKSLASH; "b"%rune]
  else if char =? FORMFEED then Some [BACKSLASH; "f"%rune]
  else if char =? NEWLINE then Some [BACKSLASH; "n"%rune]
  else if char =? CARRIAGERETURN then Some [BACKSLASH; "r"%rune]
  else if char =? TAB then Some [BACKSLASH; "t"%rune]
  else None.
Proof.
  unfold shorthandStringCharacterEscapeSequences. cbn [list_to_map foldr fst snd uncurry].
  repeat (match goal with |- context [char =? ?k] => destruct (Z.eqb_spec char k) as [->|?] end;
          [by rewrite ?lookup_insert_ne, ?lookup_insert_eq by done|]).
  rewrite ?lookup_insert_ne by done. apply lookup_empty.
Qed.

(** The escape of a rune of the basic plane that is no surrogate. *)
Lemma parseString_loop_hex char r b :
  0 <= char < 0x10000 → ¬ (0xD800 <= char < 0xE000) →
  parseString_loop (toStringHexEscapeSequence char ++ r) b 0
  = parseString_loop r (b ++ [char]) 0.
Proof.
  intros Hchar Hsurrogate.
  destruct (toStringHexEscapeSequence_read char Hchar)
    as (c0 & c1 & c2 & c3 & b0 & b1 & b2 & b3 & -> & H0 & H1 & H2 & H3 & Hhex).
  cbn [app parseString_loop]. simpl (_ =? _). simpl (0 >? 0).
  rewrite H0, H1, H2, H3. cbv iota beta.
  rewrite (hex_decoded b0 b1 b2 b3) by eauto using hexValue_bounds. rewrite Hhex.
  unfold utf16.IsSurrogate, utf16.surr1, utf16.surr3.
  replace ((55296 <=? char) && (char <? 57344)) with false by lia.
  by rewrite WriteRune_valid by lia.
Qed.

(** The two escapes of a rune outside the basic plane. *)
Lemma parseString_loop_pair char r b :
  0x10000 <= char <= 0x10FFFF →
  parseString_loop
    (toStringHexEscapeSequence (utf16.EncodeRune char).1 ++
     toStringHexEscapeSequence (utf16.EncodeRune char).2 ++ r) b 0
  = parseString_loop r (b ++ [char]) 0.
Proof.
  intros Hchar.
  unfold utf16.EncodeRune, utf16.surrSelf, unicode.MaxRune, utf16.surr1, utf16.surr2.
  replace ((char <? 65536) || (char >? 1114111)) with false by lia. cbn [fst snd].
  set (hi := 55296 + Z.land (Z.shiftr (char - 65536) 10) 1023).
  set (lo := 56320 + Z.land (char - 65536) 1023).
  assert (0xD800 <= hi < 0xDC00 ∧ 0xDC00 <= lo < 0xE000 ∧ surrogate_pair hi lo = char)
    as (Hhi & Hlo & Hpair).
  { unfold hi, lo, surrogate_pair. change 1023 with (Z.ones 10).
    rewrite !Z.land_ones, !Z.shiftr_div_pow2 by lia. change (2 ^ 10) with 1024.
    Z.to_euclidean_division_equations. lia. }
  destruct (toStringHexEscapeSequence_read hi)
    as (c0 & c1 & c2 & c3 & b0 & b1 & b2 & b3 & -> & H0 & H1 & H2 & H3 & Hhex); [lia|].
  cbn [app]. rewrite (parseString_loop_high b c0 c1 c2 c3 b0 b1 b2 b3) by (done || lia).
  rewrite Hhex.
  pose proof (parseString_loop_pending b hi (toStringHexEscapeSequence lo ++ r) Hhi) as Hpending.
  destruct (toStringHexEscapeSequence_read lo)
    as (d0 & d1 & d2 & d3 & e0 & e1 & e2 & e3 & Htext & G0 & G1 & G2 & G3 & Glo); [lia|].
  rewrite Htext in *. cbn [app low_surrogate_escape] in Hpending.
  simpl (_ =? _) in Hpending. cbn [andb] in Hpending.
  rewrite G0, G1, G2, G3 in Hpending. cbn [mbind option_bind] in Hpending.
  rewrite Glo in Hpending.
  replace ((56320 <=? lo) && (lo <? 57344)) with true in Hpending by lia.
  cbn [app]. by rewrite Hpending, Hpair.
Qed.

(** One rune: what [encodeString] writes for it is read as the rune, unless
    the rune is a control character that the policy writes as it is. *)
Lemma parseString_loop_encoded_char policy char r b :
  utf8.ValidRune char = true →
  (0 <= char <= 0x1f → UseCharacter policy char = false) →
  parseString_loop (encodeString_char policy [] char ++ r) b 0
  = parseString_loop r (b ++ [char]) 0.
Proof.
  intros Hvalid Hcontrol.
  assert (0 <= char <= 0x10FFFF ∧ ¬ (0xD800 <= char < 0xE000)) as [Hrange Hsurrogate].
  { unfold utf8.ValidRune, unicode.MaxRune in Hvalid. repeat case_match; lia. }
  assert (parseString_loop
            ((if utf16.RuneLen char >? 1
              then let '(pair1, pair2) := utf16.EncodeRune char in
                   Builder.WriteString
                     (Builder.WriteString [] (toStringHexEscapeSequence pair1))
                     (toStringHexEscapeSequence pair2)
              else Builder.WriteString [] (toStringHexEscapeSequence char)) ++ r) b 0
          = parseString_loop r (b ++ [char]) 0) as Hhex.
  { unfold utf16.RuneLen, utf16.surr1, utf16.surr3, utf16.surrSelf, unicode.MaxRune,
      Builder.WriteString.
    destruct (Z.lt_ge_cases char 0x10000) as [Hbmp|Hsupplementary].
    - replace ((0 <=? char) && (char <? 55296) || (57344 <=? char) && (char <? 65536))
        with true by lia.
      cbn [Z.gtb Z.compare Pos.compare Pos.compare_cont app].
      apply parseString_loop_hex; lia.
    - replace ((0 <=? char) && (char <? 55296) || (57344 <=? char) && (char <? 65536))
        with false by lia.
      replace ((65536 <=? char) && (char <=? 1114111)) with true by lia.
      cbn [Z.gtb Z.compare Pos.compare Pos.compare_cont].
      pose proof (parseString_loop_pair char r b) as Hpair.
      destruct (utf16.EncodeRune char) as [pair1 pair2]. cbn [fst snd app] in *.
      rewrite <- app_assoc. apply Hpair. lia. }
  unfold encodeString_char. rewrite shorthand_lookup.
  destruct ((char >=? 0) && (char <=? 31) && negb (char =? 34) && negb (char =? 92)) eqn:Hc.
  { rewrite Hcontrol by lia. unfold Builder.WriteString.
    repeat (match goal with |- context [char =? ?k] => destruct (Z.eqb_spec char k) as [->|?] end;
            [destruct (UseShorthandEscapeSequence policy _); [reflexivity|exact Hhex]|]).
    exact Hhex. }
  unfold Builder.WriteString.
  repeat (match goal with |- context [char =? ?k] => destruct (Z.eqb_spec char k) as [->|?] end;
          [destruct (UseShorthandEscapeSequence policy _); [reflexivity|exact Hhex]|]).
  exact Hhex.
Qed.

Lemma encodeString_char_app policy b char :
  encodeString_char policy b char = b ++ encodeString_char policy [] char.
Proof.
  unfold encodeString_char, Builder.WriteString, Builder.WriteRune.
  destruct (utf16.EncodeRune char) as [pair1 pair2].
  repeat case_match; cbn [app]; by rewrite <- ?app_assoc.
Qed.

Lemma encodeString_foldl policy b s :
  foldl (encodeString_char policy) b s = b ++ foldl (encodeString_char policy) [] s.
Proof.
  revert b. induction s as [|char s IH]; intros b; cbn [foldl]; [by rewrite app_nil_r|].
  rewrite IH, (IH (encodeString_char _ [] _)), encodeString_char_app.
  by rewrite app_assoc.
Qed.

Lemma encodeString_text s policy :
  encodeString s policy = DQUOTE :: foldl (encodeString_char policy) [] s ++ [DQUOTE].
Proof.
  unfold encodeString. change (Builder.WriteRune [] 34) with [34].
  rewrite encodeString_foldl. reflexivity.
Qed.

(** The loop of [parseString] over the text that [encodeString] writes for
    [s]: it stops with "invalid character" at the first control character
    that the policy writes as it is, and returns [s] when there is none. *)
Lemma parseString_loop_encoded policy s rest b :
  forallb utf8.ValidRune s = true →
  parseString_loop (foldl (encodeString_char policy) [] s ++ DQUOTE :: rest) b 0 =
  if existsb (λ char, (0 <=? char) && (char <=? 0x1f) && UseCharacter policy char) s
  then Err InvalidCharacter
  else Ok (b ++ s, rest).
Proof.
  revert b. induction s as [|char s IH]; intros b Hvalid.
  { cbn. by rewrite app_nil_r. }
  cbn [forallb] in Hvalid. apply andb_prop in Hvalid as [Hchar Hvalid].
  cbn [foldl existsb]. rewrite encodeString_foldl, <- app_assoc.
  destruct ((0 <=? char) && (char <=? 31) && UseCharacter policy char) eqn:Hraw.
  - apply andb_prop in Hraw as [Hrange Huse].
    rewrite (encodeString_char_control policy [] char) by (done || lia).
    cbn [app parseString_loop orb].
    replace (char =? 34) with false by lia. replace (char =? 92) with false by lia.
    cbn [Z.gtb Z.compare]. by replace (char <? 32) with true by lia.
  - rewrite parseString_loop_encoded_char; [|done|].
    + cbn [orb]. rewrite IH by done. by rewrite <- app_assoc.
    + intros Hrange. destruct (UseCharacter policy char); [|done].
      replace ((0 <=? char) && (char <=? 31)) with true in Hraw by lia. done.
Qed.

(** A string of Unicode scalar values, encoded under a policy that writes
    none of its control characters as it is, is read back by [parseString],
    whatever follows the closing quote. *)
Theorem encodeString_parseString policy s rest :
  forallb utf8.ValidRune s = true →
  (∀ char, char ∈ s → 0 <= char <= 0x1f → UseCharacter policy char = false) →
  parseString (encodeString s policy ++ rest) = Ok (s, rest).
Proof.
  intros Hvalid Hcontrol. rewrite encodeString_text. cbn [app parseString].
  simpl (_ =? _). cbn [negb]. rewrite <- app_assoc. cbn [app].
  rewrite parseString_loop_encoded by done.
  replace (existsb _ s) with false; [done|].
  symmetry. apply not_true_is_false. intros (char & Hin & Hraw)%existsb_exists.
  apply andb_prop in Hraw as [Hrange Huse].
  rewrite Hcontrol in Huse; [done|by apply list_elem_of_In|lia].
Qed.

Lemma encodeString_parseString_witness :
  parseString (encodeString [0x1D11E; NEWLINE; DQUOTE; "a"%rune] hexOnlyBehavior ++ lit ":1}")
  = Ok ([0x1D11E; NEWLINE; DQUOTE; "a"%rune], lit ":1}").
Proof.
  apply (encodeString_parseString hexOnlyBehavior); [reflexivity|].
  intros char _ _. reflexivity.
Defined.

(** A string with a control character that the policy writes as it is, the
    minimal policy for one, is not read back: [parseString] rejects the
    text that [encodeString] wrote. *)
Theorem encodeString_raw_control policy s rest char :
  forallb utf8.ValidRune s = true →
  char ∈ s → 0 <= char <= 0x1f → UseCharacter policy char = true →
  parseString (encodeString s policy ++ rest) = Err InvalidCharacter.
Proof.
  intros Hvalid Hin Hrange Huse. rewrite encodeString_text. cbn [app parseString].
  simpl (_ =? _). cbn [negb]. rewrite <- app_assoc. cbn [app].
  rewrite parseString_loop_encoded by done.
  replace (existsb _ s) with true; [done|].
  symmetry. apply existsb_exists. exists char. split; [by apply list_elem_of_In|].
  rewrite Huse. lia.
Qed.

Lemma encodeString_raw_control_witness :
  parseString (encodeString (lit "a" ++ [TAB]) MinimalStringCharacterEscapingBehavior ++ [])
  = Err InvalidCharacter.
Proof.
  apply (encodeString_raw_control MinimalStringCharacterEscapingBehavior (lit "a" ++ [TAB]) [] TAB);
    [reflexivity| |lia|reflexivity].
  apply list_elem_of_In. right. left. reflexivity.
Defined.

(** ** The parser answers on every input *)

(** The parser terminates: with the fuel of the entry points the parse of
    no text runs out of fuel, and more fuel does not change the answer.
    Every call of [parseEmbeddedObject] and [parseEmbeddedArray] and every
    iteration of their loops reads at least one rune. *)
Theorem parser_terminates s :
  ParseObject s ≠ OutOfFuel ∧ ParseArray s ≠ OutOfFuel ∧
  (∀ more, parseEmbeddedObject (fuel_for s + more) s = parseEmbeddedObject (fuel_for s) s) ∧
  (∀ more, parseEmbeddedArray (fuel_for s + more) s = parseEmbeddedArray (fuel_for s) s).
Proof.
  split; [apply ParseObject_fuel|]. split; [apply ParseArray_fuel|].
  pose proof (parse_fuel (fuel_for s)) as (Hobject & _ & Harray & _).
  specialize (Hobject s). specialize (Harray s).
  split; intros more.
  - apply (parse_fuel_mono (fuel_for s) (fuel_for s + more)); [lia|].
    intros Hout. rewrite Hout in Hobject. apply Hobject. unfold fuel_for. lia.
  - apply (parse_fuel_mono (fuel_for s) (fuel_for s + more)); [lia|].
    intros Hout. rewrite Hout in Harray. apply Harray. unfold fuel_for. lia.
Qed.

(** ** Arrays that the parser returns *)

Lemma called_Add_zero :
  (∀ value, called (Array.AddJSONObject value Array.zero) = Panic nil_map_write) ∧
  (∀ value, called (Array.AddJSONArray value Array.zero) = Panic nil_map_write) ∧
  (∀ value, called (Array.AddString value Array.zero) = Panic nil_map_write) ∧
  (∀ value, called (Array.AddNumber value Array.zero) = Panic nil_map_write) ∧
  (∀ value, called (Array.AddBool value Array.zero) = Panic nil_map_write) ∧
  called (Array.AddNull Array.zero) = Panic nil_map_write.
Proof. repeat split. Qed.

Ltac invert_parse H :=
  unfold mbind, result_bind in H;
  lazymatch type of H with
  | ?X = Ok _ =>
      let x := head_scrutinee X in
      lazymatch x with
      | called (Array.AddJSONObject _ Array.zero) =>
          rewrite (proj1 called_Add_zero) in H; discriminate H
      | called (Array.AddJSONArray _ Array.zero) =>
          rewrite (proj1 (proj2 called_Add_zero)) in H; discriminate H
      | called (Array.AddString _ Array.zero) =>
          rewrite (proj1 (proj2 (proj2 called_Add_zero))) in H; discriminate H
      | called (Array.AddNumber _ Array.zero) =>
          rewrite (proj1 (proj2 (proj2 (proj2 called_Add_zero)))) in H; discriminate H
      | called (Array.AddBool _ Array.zero) =>
          rewrite (proj1 (proj2 (proj2 (proj2 (proj2 called_Add_zero))))) in H; discriminate H
      | called (Array.AddNull Array.zero) =>
          rewrite (proj2 (proj2 (proj2 (proj2 (proj2 called_Add_zero))))) in H; discriminate H
      | Ok _ => fail
      | (_, _) => cbv iota beta in H
      | _ :: _ => cbv iota beta in H
      | [] => cbv iota beta in H
      | _ => let E := fresh "E" in destruct x eqn:E; try discriminate H
      end
  end.

(** The loop of [parseEmbeddedArray] starts from the zero value of
    [ArrayStruct], whose maps are nil: the first element that is read is
    added to a nil map.  So the loop returns no array but the zero value. *)
Lemma parseEmbeddedArray_loop_zero fuel r array r' :
  parseEmbeddedArray_loop fuel Array.zero r = Ok (array, r') → array = Array.zero.
Proof.
  destruct fuel as [|fuel]; [done|]. cbn [parseEmbeddedArray_loop]. intros H.
  repeat invert_parse H.
  all: by injection H as <- <-.
Qed.

(** [ParseArray] returns no array but the empty one: the text of an array
    with an element is not parsed, since its first element is added to the
    nil map of the zero value. *)
Theorem ParseArray_empty s array :
  ParseArray s = Ok array →
  array = Array.zero ∧ Array.Length array = 0 ∧
  ParseArray (lit "[1]") = Panic nil_map_write ∧
  ParseObject (lit "{'a':[null]}") = Panic nil_map_write.
Proof.
  intros H. assert (array = Array.zero) as ->; [|by repeat split].
  unfold ParseArray, mbind, result_bind in H.
  destruct (parseEmbeddedArray (fuel_for s) s) as [[parsed r]| | |] eqn:Hparse; [|done..].
  destruct (parseEnd r); [|done..]. injection H as <-.
  destruct (fuel_for s) as [|fuel]; [done|]. cbn [parseEmbeddedArray] in Hparse.
  repeat invert_parse Hparse.
  injection Hparse as ->. by eapply parseEmbeddedArray_loop_zero.
Qed.

Lemma ParseArray_empty_witness :
  Array.zero = Array.zero ∧ Array.Length Array.zero = 0 ∧
  ParseArray (lit "[1]") = Panic nil_map_write ∧
  ParseObject (lit "{'a':[null]}") = Panic nil_map_write.
Proof. apply (ParseArray_empty (lit " [ ] ")). reflexivity. Defined.

(** ** Objects: the members that the getters see *)

Lemma Object_getters_gets key object :
  Object.GetString key object
    = from_option Ok (Err NoMatchingMember) (go_get (o_strings object) key) ∧
  Object.GetNumber key object
    = from_option Ok (Err NoMatchingMember) (go_get (o_numbers object) key) ∧
  Object.GetBool key object
    = from_option Ok (Err NoMatchingMember) (go_get (o_bools object) key) ∧
  Object.GetJSONObject key object
    = from_option Ok (Err NoMatchingMember) (go_get (o_objects object) key) ∧
  Object.GetJSONArray key object
    = from_option Ok (Err NoMatchingMember) (go_get (o_arrays object) key).
Proof.
  unfold Object.GetString, Object.GetNumber, Object.GetBool, Object.GetJSONObject,
    Object.GetJSONArray, go_get.
  repeat split; repeat case_match; simplify_eq; done.
Qed.

Lemma Object_gets_slot key object :
  Object_exclusive key object →
  Object_gets key object =
  match Object_slot key object with
  | Some s => gets_of_slot s
  | None => (None, None, None, None, None, None)
  end.
Proof.
  unfold Object_exclusive, Object_slot.
  destruct (Object_gets key object) as [[[[[[?|] [?|]] [?|]] [[]|]] [?|]] [?|]]; done.
Qed.

(** An object made by [Set*] calls on the zero value answers as the map
    from each key to the value of the last call for the key: the getter of
    the kind of that value returns it, and the getters of the other kinds
    return "no matching member", as every getter does for a key that no call
    has set. *)
Theorem Object_getters calls key :
  let object := Object_of_calls calls in
  let last := last_value calls key in
  Object.Has key object = bool_decide (is_Some last) ∧
  Object.GetString key object
    = match last with Some (VString value) => Ok value | _ => Err NoMatchingMember end ∧
  Object.GetNumber key object
    = match last with
      | Some (VNumber value) => Ok value
      | Some (VInt value) | Some (VInt64 value) | Some (VInt32 value) =>
          Ok (strconv.FormatInt value)
      | _ => Err NoMatchingMember
      end ∧
  Object.GetBool key object
    = match last with Some (VBool value) => Ok value | _ => Err NoMatchingMember end ∧
  Object.GetJSONObject key object
    = match last with Some (VJSONObject value) => Ok value | _ => Err NoMatchingMember end ∧
  Object.GetJSONArray key object
    = match last with Some (VJSONArray value) => Ok value | _ => Err NoMatchingMember end ∧
  Object.IsNull key object
    = match last with Some VNull => Ok true | _ => Err NoMatchingMember end ∧
  Object.ExistsAndIsNull key object
    = match last with Some VNull => true | _ => false end.
Proof.
  intros object last.
  pose proof (Object_of_calls_wf calls) as (Hexclusive & _ & _).
  pose proof (proj2 (Object_of_calls_model calls) key) as Hslot.
  pose proof (Object_gets_slot key object (Hexclusive key)) as Hgets.
  fold object in Hslot. rewrite Hslot in Hgets. fold last in Hgets.
  destruct (Object_getters_gets key object) as (-> & -> & -> & -> & ->).
  rewrite Has_gets. unfold Object.IsNull, Object.ExistsAndIsNull.
  unfold Object_gets in *.
  destruct last as [[]|]; cbn in Hgets; simplify_eq;
    repeat match goal with H : go_get _ _ = _ |- _ => rewrite H; clear H end;
    repeat split; done.
Qed.

(** ** Objects: integers *)

Lemma Object_GetInt_SetNumber key value object :
  Object.GetInt key (Object.SetNumber key value object) =
  match strconv.Atoi value with
  | (_, Some _) => Err NoMatchingMember
  | (parsed, None) => Ok parsed
  end ∧
  Object.GetInt64 key (Object.SetNumber key value object) =
  match strconv.ParseInt value 64 with
  | (_, Some _) => Err NoMatchingMember
  | (parsed, None) => Ok parsed
  end.
Proof.
  unfold Object.GetInt, Object.GetInt64, Object.SetNumber.
  destruct (Object.addKey key object) as [strings numbers bools nulls objects arrays keys].
  destruct numbers; simpl; by rewrite lookup_insert_eq.
Qed.

(** An [int] or [int64] that is set is the one that is got, in every
    object, and so is an [int32] that is not negative. *)
Theorem Object_integers key v object :
  - 2 ^ 63 <= v < 2 ^ 63 →
  Object.GetInt key (Object.SetInt key v object) = Ok v ∧
  Object.GetInt64 key (Object.SetInt64 key v object) = Ok v ∧
  Object.GetInt64 key (Object.SetInt key v object) = Ok v ∧
  (0 <= v < 2 ^ 31 → Object.GetInt32 key (Object.SetInt32 key v object) = Ok v).
Proof.
  intros Hv. unfold Object.SetInt, Object.SetInt64, Object.SetInt32.
  destruct (Object_GetInt_SetNumber key (strconv.FormatInt v) object) as [-> ->].
  unfold strconv.Atoi. rewrite (ParseInt_FormatInt v 64) by lia.
  split; [done|]. split; [done|]. split; [done|]. rewrite GetInt32_SetNumber.
  intros Hv32. unfold strconv.FormatInt. replace (v <? 0) with false by lia.
  rewrite (ParseUint_FormatUint (Z.to_N v) 32) by lia.
  rewrite int32_id by lia. f_equal. lia.
Qed.

Lemma Object_integers_witness :
  Object.GetInt (lit "n") (Object.SetInt (lit "n") 42 Object.zero) = Ok 42 ∧
  Object.GetInt64 (lit "n") (Object.SetInt64 (lit "n") 42 Object.zero) = Ok 42 ∧
  Object.GetInt64 (lit "n") (Object.SetInt (lit "n") 42 Object.zero) = Ok 42 ∧
  Object.GetInt32 (lit "n") (Object.SetInt32 (lit "n") 42 Object.zero) = Ok 42.
Proof.
  destruct (Object_integers (lit "n") 42 Object.zero) as (HInt & HInt64 & HInt' & HInt32);
    [lia|].
  split; [exact HInt|]. split; [exact HInt64|]. split; [exact HInt'|]. apply HInt32. lia.
Defined.

(** ** Arrays: the elements that the getters see *)

Lemma Array_of_calls_snoc values v :
  Array_of_calls (values ++ [v]) = (Array_Add v (Array_of_calls values)).1.
Proof. unfold Array_of_calls. by rewrite foldl_app. Qed.

(** The state of an array after [Add*] calls: nothing has panicked, the
    length is the number of calls, and each index holds what its call added. *)
Lemma Array_of_calls_model values :
  Z.of_nat (length values) < 2 ^ 63 →
  let array := Array_of_calls values in
  Array_allocated array ∧ a_length array = Z.of_nat (length values) ∧
  ∀ index, Array_gets index array =
    match value_at values index with
    | Some v => gets_of_slot (slot_of v)
    | None => (None, None, None, None, None, None)
    end.
Proof.
  induction values as [|v values IH] using rev_ind; intros Hlen array.
  { split; [unfold Array_allocated; simpl; eauto 10|]. split; [done|].
    intros index. unfold value_at. destruct (0 <=? index); done. }
  rewrite length_app in Hlen. simpl in Hlen.
  destruct IH as (Hallocated & Hlength & Hgets); [lia|].
  unfold array. rewrite Array_of_calls_snoc.
  split; [by apply Array_Add_allocated|].
  destruct (Array_of_calls values) as [strings numbers bools nulls objects arrays n].
  destruct Hallocated as (Hs & Hn & Hb & Hu & Ho & Ha). simpl in *.
  destruct Hs as [? ->], Hn as [? ->], Hb as [? ->], Hu as [? ->], Ho as [? ->], Ha as [? ->].
  subst n. rewrite length_app. simpl (length [_]).
  split.
  { destruct v; simpl; rewrite incr_int_small; lia. }
  intros index. specialize (Hgets index). unfold value_at in *.
  unfold Array_gets in *. simpl in Hgets.
  destruct (decide (index = Z.of_nat (length values))) as [->|Hne].
  - replace (0 <=? Z.of_nat (length values)) with true in * by lia.
    rewrite Nat2Z.id in *. rewrite lookup_app_r, Nat.sub_diag by lia.
    rewrite lookup_ge_None_2 in Hgets by lia. simplify_eq.
    destruct v; simpl; rewrite lookup_insert_eq; repeat f_equal; done.
  - destruct (0 <=? index) eqn:Hindex.
    + assert (Z.to_nat index ≠ length values) by lia.
      assert ((values ++ [v]) !! Z.to_nat index = values !! Z.to_nat index) as ->.
      { destruct (decide (Z.to_nat index < length values)%nat).
        - by rewrite lookup_app_l.
        - rewrite !lookup_ge_None_2; [done|lia|rewrite length_app; simpl; lia]. }
      rewrite <- Hgets. destruct v; simpl; rewrite ?lookup_insert_ne by done; done.
    + rewrite <- Hgets. destruct v; simpl; rewrite ?lookup_insert_ne by done; done.
Qed.

(** An array made by [NewArray()] and [Add*] calls answers as the sequence
    of the values added: its length is their number; at the index of a
    value the getter of its kind returns it and the getters of the other
    kinds return "no matching member", as every getter does at an index
    outside the sequence, a negative one included. *)
Theorem Array_getters values index :
  Z.of_nat (length values) < 2 ^ 63 →
  let array := Array_of_calls values in
  let element := value_at values index in
  Array.Length array = Z.of_nat (length values) ∧
  Array.GetString index array
    = match element with Some (VString value) => Ok value | _ => Err NoMatchingMember end ∧
  Array.GetNumber index array
    = match element with
      | Some (VNumber value) => Ok value
      | Some (VInt value) | Some (VInt64 value) | Some (VInt32 value) =>
          Ok (strconv.FormatInt value)
      | _ => Err NoMatchingMember
      end ∧
  Array.GetBool index array
    = match element with Some (VBool value) => Ok value | _ => Err NoMatchingMember end ∧
  Array.GetJSONObject index array
    = match element with Some (VJSONObject value) => Ok value | _ => Err NoMatchingMember end ∧
  Array.GetJSONArray index array
    = match element with Some (VJSONArray value) => Ok value | _ => Err NoMatchingMember end ∧
  Array.IsNull index array
    = match element with Some VNull => Ok true | _ => Err NoMatchingMember end ∧
  Array.ExistsAndIsNull index array
    = match element with Some VNull => true | _ => false end.
Proof.
  intros Hlen array element.
  destruct (Array_of_calls_model values Hlen) as (_ & Hlength & Hgets).
  specialize (Hgets index). fold array element in Hlength, Hgets.
  split; [done|].
  unfold Array.GetString, Array.GetNumber, Array.GetBool, Array.GetJSONObject,
    Array.GetJSONArray, Array.IsNull, Array.ExistsAndIsNull.
  unfold Array_gets in Hgets.
  destruct element as [[]|]; cbn in Hgets; simplify_eq;
    repeat match goal with H : go_get _ _ = _ |- _ => rewrite H; clear H end;
    repeat split; done.
Qed.

Lemma Array_getters_witness :
  let array := Array_of_calls [VString (lit "a"); VNull; VInt 7] in
  let element := value_at [VString (lit "a"); VNull; VInt 7] 2 in
  Array.Length array = Z.of_nat (length [VString (lit "a"); VNull; VInt 7]) ∧
  Array.GetString 2 array
    = match element with Some (VString value) => Ok value | _ => Err NoMatchingMember end ∧
  Array.GetNumber 2 array
    = match element with
      | Some (VNumber value) => Ok value
      | Some (VInt value) | Some (VInt64 value) | Some (VInt32 value) =>
          Ok (strconv.FormatInt value)
      | _ => Err NoMatchingMember
      end ∧
  Array.GetBool 2 array
    = match element with Some (VBool value) => Ok value | _ => Err NoMatchingMember end ∧
  Array.GetJSONObject 2 array
    = match element with Some (VJSONObject value) => Ok value | _ => Err NoMatchingMember end ∧
  Array.GetJSONArray 2 array
    = match element with Some (VJSONArray value) => Ok value | _ => Err NoMatchingMember end ∧
  Array.IsNull 2 array
    = match element with Some VNull => Ok true | _ => Err NoMatchingMember end ∧
  Array.ExistsAndIsNull 2 array
    = match element with Some VNull => true | _ => false end.
Proof. apply (Array_getters [VString (lit "a"); VNull; VInt 7] 2). by vm_compute. Defined.

(** An integer that is added to an array is the one that is got at its
    index, negative ones included: the getters of arrays parse the text
    with [ParseInt]. *)
Theorem Array_integers values index z :
  Z.of_nat (length values) < 2 ^ 63 →
  let array := Array_of_calls values in
  (value_at values index = Some (VInt z) → - 2 ^ 63 <= z < 2 ^ 63 →
   Array.GetInt index array = Ok z) ∧
  (value_at values index = Some (VInt64 z) → - 2 ^ 63 <= z < 2 ^ 63 →
   Array.GetInt64 index array = Ok z) ∧
  (value_at values index = Some (VInt32 z) → - 2 ^ 31 <= z < 2 ^ 31 →
   Array.GetInt32 index array = Ok z) ∧
  (value_at values index = None →
   Array.GetInt index array = Err (FailedToGetNumber NoMatchingMember) ∧
   Array.GetInt64 index array = Err (FailedToGetNumber NoMatchingMember) ∧
   Array.GetInt32 index array = Err (FailedToGetNumber NoMatchingMember)).
Proof.
  intros Hlen array.
  destruct (Array_of_calls_model values Hlen) as (_ & _ & Hgets).
  specialize (Hgets index). fold array in Hgets.
  unfold Array.GetInt, Array.GetInt64, Array.GetInt32, Array.GetNumber, strconv.Atoi.
  unfold Array_gets in Hgets.
  split; [|split; [|split]]; intros Helement; rewrite Helement in Hgets; cbn in Hgets;
    simplify_eq;
    repeat match goal with H : go_get _ _ = _ |- _ => rewrite H; clear H end;
    try done; intros Hz; cbn [wrap mbind result_bind];
    rewrite ParseInt_FormatInt by lia; by rewrite ?int32_id.
Qed.

Lemma Array_integers_witness :
  Array.GetInt32 1 (Array_of_calls [VNull; VInt32 (-5)]) = Ok (-5).
Proof.
  apply (proj1 (proj2 (proj2 (Array_integers [VNull; VInt32 (-5)] 1 (-5) ltac:(by vm_compute)))));
    [reflexivity|lia].
Defined.

(** ** Arrays: the text *)

Lemma ArrayStruct_String_unfold objectString policy array :
  ArrayStruct_String objectString policy array =
  ArrayBuilder.Done
    (foldl (ArrayStruct_String_element objectString policy array)
       (ArrayBuilder.NewArrayBuilder policy) (seqZ 0 (a_length array))).
Proof.
  destruct array as [strings numbers bools nulls objects arrays length].
  cbn [ArrayStruct_String a_length]. f_equal. apply foldl_ext_all. intros builder i.
  unfold ArrayStruct_String_element, Array_slot, Array_gets.
  cbn [a_strings a_numbers a_bools a_nulls a_objects a_arrays].
  rewrite !go_get_fmap.
  destruct (go_get strings i), (go_get numbers i), (go_get bools i),
    (go_get nulls i), (go_get objects i), (go_get arrays i); done.
Qed.

Lemma ArrayBuilder_AddJSON_after policy elements value :
  Z.of_nat (length elements) + 1 < 2 ^ 63 →
  ArrayBuilder.AddJSON value (ArrayBuilder_after policy elements)
  = ArrayBuilder_after policy (elements ++ [value]).
Proof.
  intros Hlen. unfold ArrayBuilder.AddJSON, ArrayBuilder_after.
  cbn [ab_b ab_stringCharacterEscapingBehavior elementCount].
  rewrite incr_int_small by lia. rewrite length_app. simpl (length [_]).
  replace (Z.of_nat (length elements) + 1) with (Z.of_nat (length elements + 1)) by lia.
  f_equal. unfold Builder.WriteString.
  destruct elements as [|first rest].
  - change (Builder.Len [] =? 0) with true. change (Z.of_nat (length []) >? 0) with false.
    cbv iota. rewrite (WriteRune_valid _ "["%rune) by lia. simpl. by rewrite app_nil_r.
  - cbn [length app]. rewrite Len_cons.
    replace (Z.of_nat (S (length rest)) >? 0) with true by (symmetry; apply Z.gtb_lt; lia).
    rewrite (WriteRune_valid _ ","%rune) by lia.
    rewrite fmap_app, concat_app. simpl. rewrite app_nil_r.
    by rewrite <- !app_assoc.
Qed.

Lemma ArrayBuilder_Done_after policy elements :
  ArrayBuilder.Done (ArrayBuilder_after policy elements) = elements_text elements.
Proof.
  destruct elements as [|first rest]; [done|].
  unfold ArrayBuilder.Done, ArrayBuilder_after, elements_text. cbn [ab_b].
  rewrite Len_cons. rewrite (WriteRune_valid _ "]"%rune) by lia. simpl.
  by rewrite <- !app_assoc.
Qed.

Lemma Array_of_calls_slot values index :
  Z.of_nat (length values) < 2 ^ 63 →
  Array_slot index (Array_of_calls values) = slot_of <$> value_at values index.
Proof.
  intros Hlen. destruct (Array_of_calls_model values Hlen) as (_ & _ & Hgets).
  unfold Array_slot. rewrite Hgets.
  by destruct (value_at values index) as [[]|].
Qed.

Lemma ArrayStruct_String_element_after objectString policy values elements index v :
  Z.of_nat (length values) < 2 ^ 63 → Z.of_nat (length elements) + 1 < 2 ^ 63 →
  value_at values index = Some v →
  ArrayStruct_String_element objectString policy (Array_of_calls values)
    (ArrayBuilder_after policy elements) index
  = ArrayBuilder_after policy (elements ++ [value_text objectString policy v]).
Proof.
  intros Hlen Helements Hv. unfold ArrayStruct_String_element.
  rewrite Array_of_calls_slot, Hv by done.
  destruct v as [| | | | |[]| | |]; simpl;
    unfold ArrayBuilder.AddString, ArrayBuilder.AddBool, ArrayBuilder.AddNull;
    by rewrite ArrayBuilder_AddJSON_after.
Qed.

Lemma ArrayStruct_String_foldl objectString policy values k :
  Z.of_nat (length values) < 2 ^ 63 → (k <= length values)%nat →
  foldl (ArrayStruct_String_element objectString policy (Array_of_calls values))
    (ArrayBuilder_after policy []) (seqZ 0 (Z.of_nat k))
  = ArrayBuilder_after policy (value_text objectString policy <$> take k values).
Proof.
  intros Hlen. induction k as [|k IH]; intros Hk; [done|].
  rewrite seqZ_S, foldl_app, IH by lia. cbn [foldl].
  destruct (lookup_lt_is_Some_2 values k) as [v Hv]; [lia|].
  rewrite (ArrayStruct_String_element_after objectString policy values _ _ v).
  - by rewrite (take_S_r _ _ v), fmap_app by done.
  - done.
  - rewrite length_fmap, length_take. lia.
  - unfold value_at. replace (0 <=? 0 + Z.of_nat k) with true by lia.
    by replace (Z.to_nat (0 + Z.of_nat k)) with k by lia.
Qed.

(** The text of an array made by [NewArray()] and [Add*] calls: the texts
    of the values added, in the order of the calls, between brackets and
    separated by commas. *)
Theorem Array_String objectString policy values :
  Z.of_nat (length values) < 2 ^ 63 →
  ArrayStruct_String objectString policy (Array_of_calls values)
  = elements_text (value_text objectString policy <$> values).
Proof.
  intros Hlen. rewrite ArrayStruct_String_unfold.
  destruct (Array_of_calls_model values Hlen) as (_ & -> & _).
  change (ArrayBuilder.NewArrayBuilder policy) with (ArrayBuilder_after policy []).
  rewrite ArrayStruct_String_foldl by done.
  by rewrite firstn_all, ArrayBuilder_Done_after.
Qed.

Lemma Array_String_witness :
  ArrayStruct_String (λ _ _, lit "{}") hexOnlyBehavior
    (Array_of_calls [VString (lit "a"); VNull; VInt (-7); VBool true;
                     VJSONObject Object.zero; VJSONArray Array.NewArray])
  = elements_text
      (value_text (λ _ _, lit "{}") hexOnlyBehavior <$>
         [VString (lit "a"); VNull; VInt (-7); VBool true;
          VJSONObject Object.zero; VJSONArray Array.NewArray]).
Proof. apply (Array_String (λ _ _, lit "{}") hexOnlyBehavior). by vm_compute. Defined.

(** ** The builders *)

Lemma ObjectBuilder_foldl policy members added :
  Z.of_nat (length added + length members) < 2 ^ 63 →
  foldl (λ builder m, builder ← builder; ObjectBuilder.AddJSON m.1 m.2 builder)
    (Ok (ObjectBuilder_after policy added)) members
  = Ok (ObjectBuilder_after policy (added ++ members)).
Proof.
  revert added. induction members as [|[name value] members IH]; intros added Hlen.
  - by rewrite app_nil_r.
  - cbn [foldl length fst snd mbind result_bind] in *.
    rewrite ObjectBuilder_AddJSON_after by lia.
    rewrite IH; [by rewrite <- app_assoc|]. rewrite length_app. simpl. lia.
Qed.

Lemma ArrayBuilder_foldl policy elements added :
  Z.of_nat (length added + length elements) < 2 ^ 63 →
  foldl (λ builder e, ArrayBuilder.AddJSON e builder)
    (ArrayBuilder_after policy added) elements
  = ArrayBuilder_after policy (added ++ elements).
Proof.
  revert added. induction elements as [|e elements IH]; intros added Hlen.
  - by rewrite app_nil_r.
  - cbn [foldl length] in *. rewrite ArrayBuilder_AddJSON_after by lia.
    rewrite IH; [by rewrite <- app_assoc|]. rewrite length_app. simpl. lia.
Qed.

(** What the builders return after [AddJSON] calls on a builder made by
    [NewObjectBuilder] or [NewArrayBuilder]: no call panics; the members,
    each an encoded name, a colon and the value as it was given, between
    braces and separated by commas, a name that was already added included;
    the elements as they were given, between brackets and separated by
    commas.  Without a call the texts are the empty object and the empty
    array. *)
Theorem builders_text policy members elements :
  Z.of_nat (length members) < 2 ^ 63 → Z.of_nat (length elements) < 2 ^ 63 →
  (foldl (λ builder m, builder ← builder; ObjectBuilder.AddJSON m.1 m.2 builder)
     (Ok (ObjectBuilder.NewObjectBuilder policy)) members
   ≫= ObjectBuilder.Done)
  = Ok (members_text policy members) ∧
  ArrayBuilder.Done
    (foldl (λ builder e, ArrayBuilder.AddJSON e builder)
       (ArrayBuilder.NewArrayBuilder policy) elements)
  = elements_text elements.
Proof.
  intros Hmembers Helements. split.
  - change (ObjectBuilder.NewObjectBuilder policy) with (ObjectBuilder_after policy []).
    rewrite ObjectBuilder_foldl by done. cbn [mbind result_bind app].
    apply ObjectBuilder_Done_after.
  - change (ArrayBuilder.NewArrayBuilder policy) with (ArrayBuilder_after policy []).
    by rewrite ArrayBuilder_foldl, ArrayBuilder_Done_after.
Qed.

Lemma builders_text_witness :
  (foldl (λ builder m, builder ← builder; ObjectBuilder.AddJSON m.1 m.2 builder)
     (Ok (ObjectBuilder.NewObjectBuilder hexOnlyBehavior))
     [(lit "a", lit "1"); (lit "a", lit "[]")]
   ≫= ObjectBuilder.Done)
  = Ok (members_text hexOnlyBehavior [(lit "a", lit "1"); (lit "a", lit "[]")]) ∧
  ArrayBuilder.Done
    (foldl (λ builder e, ArrayBuilder.AddJSON e builder)
       (ArrayBuilder.NewArrayBuilder hexOnlyBehavior) [lit "1"; lit "null"])
  = elements_text [lit "1"; lit "null"].
Proof. apply (builders_text hexOnlyBehavior); by vm_compute. Defined.

(** ** Flat objects: the text of a builder is read back *)

Lemma parseString_encodeString policy s rest :
  readable policy s = true → parseString (encodeString s policy ++ rest) = Ok (s, rest).
Proof.
  unfold readable. intros [Hvalid Hraw%negb_true_iff]%andb_prop.
  rewrite encodeString_text. cbn [app parseString].
  simpl (_ =? _). cbn [negb]. rewrite <- app_assoc. cbn [app].
  rewrite parseString_loop_encoded by done. unfold writes_raw in Hraw. by rewrite Hraw.
Qed.

Lemma encodeString_head s policy : ∃ tail, encodeString s policy = DQUOTE :: tail.
Proof. rewrite encodeString_text. eauto. Qed.

Lemma extractIdentifier_literal c rest :
  c = ","%rune ∨ c = "}"%rune →
  extractIdentifier (lit "true" ++ c :: rest) = Ok (lit "true", c :: rest) ∧
  extractIdentifier (lit "false" ++ c :: rest) = Ok (lit "false", c :: rest) ∧
  extractIdentifier (lit "null" ++ c :: rest) = Ok (lit "null", c :: rest).
Proof. intros [-> | ->]; repeat split. Qed.

Lemma extractNumber_number_ok N c rest :
  number_ok N = true → c = ","%rune ∨ c = "}"%rune →
  extractNumber (N ++ c :: rest) = Ok (N, c :: rest) ∧
  ∃ d tail, N = d :: tail ∧ isDigitCharacter d = true.
Proof.
  unfold number_ok. intros [(p & Hok & ->)%number_grammar_parts Hhead]%andb_prop Hc.
  split.
  - apply extractNumber_parts; [by apply parts_ok_strict|]. by destruct Hc as [-> | ->].
  - destruct (parts_text p) as [|d tail]; [done|]. eauto.
Qed.

Ltac member_eval :=
  cbn [parseEmbeddedObject_loop skipWhitespace parseEnd app
       mbind result_bind wrap negb andb orb isWhitespace isDigitCharacter
       Z.eqb Z.leb Z.ltb Z.gtb Z.geb Z.compare Pos.eqb Pos.compare Pos.compare_cont
       CompOpp unicode.ReplacementChar].

(** One member in the loop of [parseEmbeddedObject]: the encoded name, a
    colon, the text of a flat slot, and a comma or the closing brace. *)
Lemma parseEmbeddedObject_loop_member objectString policy fuel object key s c rest :
  readable policy key = true → flat_slot policy s = true →
  Object.Has key object = false → c = ","%rune ∨ c = "}"%rune →
  parseEmbeddedObject_loop (S fuel) object
    (encodeString key policy ++ ":"%rune :: slot_text objectString policy s ++ c :: rest)
  = if c =? "}"%rune then Ok (Object_Set key (value_of_slot s) object, rest)
    else parseEmbeddedObject_loop fuel (Object_Set key (value_of_slot s) object) rest.
Proof.
  intros Hkey Hflat Hhas Hc.
  pose proof (parseString_encodeString policy key
                (":"%rune :: slot_text objectString policy s ++ c :: rest) Hkey) as Hname.
  destruct (encodeString_head key policy) as [tail Htail]. rewrite Htail in *.
  cbn [app] in Hname. member_eval. rewrite Hname. member_eval. rewrite Hhas. member_eval.
  destruct s as [value|value|[]| |value|value]; cbn [flat_slot] in Hflat; try done.
  - pose proof (parseString_encodeString policy value (c :: rest) Hflat) as Hvalue.
    cbn [slot_text]. destruct (encodeString_head value policy) as [tail' Htail'].
    rewrite Htail' in *. cbn [app] in Hvalue. member_eval. rewrite Hvalue.
    destruct Hc as [-> | ->]; member_eval; reflexivity.
  - destruct (extractNumber_number_ok value c rest Hflat Hc) as (Hvalue & d & tail' & -> & Hd).
    assert (d ≠ 65533 ∧ d ≠ 9 ∧ d ≠ 10 ∧ d ≠ 32 ∧ d ≠ 13 ∧ d ≠ 123 ∧ d ≠ 91 ∧ d ≠ 34)
      as (? & ? & ? & ? & ? & ? & ? & ?) by (unfold isDigitCharacter in Hd; lia).
    cbn [slot_text app] in *.
    cbn [skipWhitespace isWhitespace unicode.ReplacementChar mbind result_bind].
    rewrite !(proj2 (Z.eqb_neq d _)) by done.
    assert (isWhitespace d = false) as ->
      by (unfold isWhitespace; rewrite !(proj2 (Z.eqb_neq d _)) by done; done).
    cbn [mbind result_bind]. rewrite !(proj2 (Z.eqb_neq d _)) by done.
    rewrite Hd, Hvalue.
    destruct Hc as [-> | ->]; member_eval; reflexivity.
  - destruct (extractIdentifier_literal c rest Hc) as (Hvalue & _ & _).
    change (lit "true") with [116; 114; 117; 101] in *. cbn [slot_text app] in *.
    change (lit "true") with [116; 114; 117; 101]. member_eval. rewrite Hvalue. member_eval.
    rewrite decide_True by done.
    destruct Hc as [-> | ->]; member_eval; reflexivity.
  - destruct (extractIdentifier_literal c rest Hc) as (_ & Hvalue & _).
    change (lit "false") with [102; 97; 108; 115; 101] in *. cbn [slot_text app] in *.
    change (lit "false") with [102; 97; 108; 115; 101]. member_eval. rewrite Hvalue. member_eval.
    rewrite decide_False by done. rewrite decide_True by done.
    destruct Hc as [-> | ->]; member_eval; reflexivity.
  - destruct (extractIdentifier_literal c rest Hc) as (_ & _ & Hvalue).
    change (lit "null") with [110; 117; 108; 108] in *. cbn [slot_text app] in *.
    change (lit "null") with [110; 117; 108; 108]. member_eval. rewrite Hvalue. member_eval.
    rewrite decide_False by done. rewrite decide_False by done. rewrite decide_True by done.
    destruct Hc as [-> | ->]; member_eval; reflexivity.
Qed.

Lemma Object_Set_Has_ne key key' v object :
  key ≠ key' → Object.Has key' (Object_Set key v object) = Object.Has key' object.
Proof. intros Hne. by rewrite !Has_gets, Object_Set_gets_ne. Qed.

(** The members of an object in the loop of [parseEmbeddedObject]: flat
    members with distinct names that the object does not have yet are set
    one after the other, up to the closing brace, whether a comma stands
    before the brace or not. *)
Lemma parseEmbeddedObject_loop_members objectString policy (comma : bool) rest :
  ∀ first fuel object tail,
  (length rest + 1 < fuel)%nat → NoDup (first :: rest).*1 →
  Forall (λ m, readable policy m.1 = true ∧ flat_slot policy m.2 = true ∧
               Object.Has m.1 object = false) (first :: rest) →
  parseEmbeddedObject_loop fuel object
    (encodeString first.1 policy ++ ":"%rune :: slot_text objectString policy first.2 ++
     concat ((λ m, ","%rune :: encodeString m.1 policy ++ ":"%rune :: slot_text objectString policy m.2)
             <$> rest) ++ (if comma then [","%rune] else []) ++ "}"%rune :: tail)
  = Ok (foldl (λ o m, Object_Set m.1 (value_of_slot m.2) o) object (first :: rest), tail).
Proof.
  induction rest as [|m rest IH]; intros first fuel object tail Hfuel Hnodup Hall.
  - destruct fuel as [|[|fuel]]; [simpl in Hfuel; lia..|].
    apply Forall_cons in Hall as [(Hkey & Hflat & Hhas) _]. cbn [fmap list_fmap concat app].
    destruct comma; cbn [app]; rewrite parseEmbeddedObject_loop_member by auto; reflexivity.
  - destruct fuel as [|fuel]; [simpl in Hfuel; lia|].
    apply Forall_cons in Hall as [(Hkey & Hflat & Hhas) Hall].
    cbn [fmap list_fmap concat]. rewrite <- !app_assoc. cbn [app]. rewrite <- !app_assoc.
    rewrite parseEmbeddedObject_loop_member by auto. simpl (_ =? _). cbv iota.
    cbn [fmap list_fmap] in Hnodup. apply NoDup_cons in Hnodup as [Hfirst Hnodup].
    cbn [app]. rewrite IH; [done|simpl in Hfuel; lia|done|].
    apply Forall_forall. intros m' Hin.
    destruct (proj1 (Forall_forall _ _) Hall m' Hin) as (? & ? & Hhas').
    split; [done|]. split; [done|].
    destruct (decide (first.1 = m'.1)) as [Heq|Hne]; [|by rewrite Object_Set_Has_ne].
    exfalso. apply Hfirst. rewrite Heq.
    change (m'.1 ∈ (m :: rest).*1). apply list_elem_of_fmap. eauto.
Qed.

Lemma Object_zero_Has key : Object.Has key Object.zero = false.
Proof. reflexivity. Qed.

(** The text of flat members with distinct names is parsed to the object
    that the [Set*] calls for these members make. *)
Lemma ParseObject_members_text objectString policy ms :
  NoDup ms.*1 →
  Forall (λ m, readable policy m.1 = true ∧ flat_slot policy m.2 = true) ms →
  ParseObject (members_text policy ((λ m, (m.1, slot_text objectString policy m.2)) <$> ms))
  = Ok (Object_of_calls ((λ m, (m.1, value_of_slot m.2)) <$> ms)).
Proof.
  intros Hnodup Hall. destruct ms as [|first rest]; [reflexivity|].
  cbn [fmap list_fmap members_text fst snd].
  set (text := concat _ ++ _).
  assert (text =
          concat ((λ m, ","%rune :: encodeString m.1 policy ++ ":"%rune :: slot_text objectString policy m.2)
                  <$> rest) ++ "}"%rune :: []) as ->.
  { unfold text. f_equal. f_equal. by rewrite <- list_fmap_compose. }
  set (s := "{"%rune :: _).
  assert (parseEmbeddedObject (S (S (S (length rest)))) s
          = Ok (Object_of_calls ((λ m, (m.1, value_of_slot m.2)) <$> first :: rest), []))
    as Hparse.
  { unfold s. cbn [parseEmbeddedObject skipWhitespace isWhitespace mbind result_bind
                   Z.eqb Pos.eqb orb negb unicode.ReplacementChar].
    pose proof (parseEmbeddedObject_loop_members objectString policy false rest first
                  (S (S (length rest))) Object.zero []) as Hloop.
    cbn [app] in Hloop. rewrite Hloop; [|lia|done|].
    - unfold Object_of_calls. by rewrite foldl_fmap.
    - eapply Forall_impl; [exact Hall|]. intros m [? ?]. by rewrite Object_zero_Has. }
  unfold ParseObject. rewrite <- (parseEmbeddedObject_fuel_for _ s) by (by rewrite Hparse).
  by rewrite Hparse.
Qed.

Lemma filter_all {A} (P : A → Prop) `{∀ x, Decision (P x)} (l : list A) :
  Forall P l → filter P l = l.
Proof.
  induction 1 as [|x l Hx Hl IH]; [done|]. rewrite filter_cons, decide_True by done.
  by rewrite IH.
Qed.

Lemma first_occurrences_NoDup keys : NoDup keys → first_occurrences keys = keys.
Proof.
  induction 1 as [|key keys Hnotin Hnodup IH]; [done|]. cbn [first_occurrences].
  rewrite IH. f_equal. apply filter_all.
  apply Forall_forall. intros k Hin ->. done.
Qed.

Lemma last_value_elem_of calls key v :
  last_value calls key = Some v → (key, v) ∈ calls.
Proof.
  unfold last_value. destruct (last _) as [[key' v']|] eqn:Hlast; [|done].
  intros [= <-]. apply last_Some in Hlast as [l Hl].
  assert ((key', v') ∈ filter (λ call, call.1 = key) calls) as Hin.
  { rewrite Hl. apply elem_of_app. right. by apply list_elem_of_singleton. }
  apply list_elem_of_filter in Hin as [Hkey Hin]. simpl in Hkey. by subst.
Qed.

(** A call of the builder adds the member that [AddJSON] adds for the text
    of its value. *)
Lemma ObjectBuilder_Add_after objectString policy members name a :
  Z.of_nat (length members) + 1 < 2 ^ 63 →
  ObjectBuilder_Add name a (ObjectBuilder_after policy members)
  = Ok (ObjectBuilder_after policy
          (members ++ [(name, slot_text objectString policy (slot_of (value_of_added a)))])).
Proof.
  intros Hlen.
  destruct a as [value|value|value|value|value|[]|];
    cbn [ObjectBuilder_Add value_of_added slot_of slot_text];
    unfold ObjectBuilder.AddString, ObjectBuilder.AddInt, ObjectBuilder.AddInt32,
      ObjectBuilder.AddInt64, ObjectBuilder.AddBool, ObjectBuilder.AddNull;
    change (ob_stringCharacterEscapingBehavior (ObjectBuilder_after policy members))
      with (Some policy);
    cbn [encodeString_with mbind result_bind];
    by rewrite ObjectBuilder_AddJSON_after.
Qed.

Lemma ObjectBuilder_Add_foldl objectString policy calls added :
  Z.of_nat (length added + length calls) < 2 ^ 63 →
  foldl (λ objectBuilder call,
           objectBuilder ← objectBuilder; ObjectBuilder_Add call.1 call.2 objectBuilder)
    (Ok (ObjectBuilder_after policy added)) calls
  = Ok (ObjectBuilder_after policy
          (added ++ ((λ call, (call.1, slot_text objectString policy
                                         (slot_of (value_of_added call.2)))) <$> calls))).
Proof.
  revert added. induction calls as [|[name a] calls IH]; intros added Hlen.
  - by rewrite app_nil_r.
  - cbn [foldl length fst snd mbind result_bind fmap list_fmap] in *.
    rewrite (ObjectBuilder_Add_after objectString) by lia.
    rewrite IH; [by rewrite <- app_assoc|]. rewrite length_app. simpl. lia.
Qed.

(** The text that a builder made by [NewObjectBuilder] returns after typed
    calls: the members in the order of the calls. *)
Lemma ObjectBuilder_text_members objectString policy calls :
  Z.of_nat (length calls) < 2 ^ 63 →
  ObjectBuilder_text policy calls
  = Ok (members_text policy
          ((λ call, (call.1, slot_text objectString policy (slot_of (value_of_added call.2))))
             <$> calls)).
Proof.
  intros Hlen. unfold ObjectBuilder_text.
  change (ObjectBuilder.NewObjectBuilder policy) with (ObjectBuilder_after policy []).
  rewrite (ObjectBuilder_Add_foldl objectString) by done. cbn [mbind result_bind app].
  apply ObjectBuilder_Done_after.
Qed.

Lemma Object_Set_value_of_added key a object :
  Object_Set key (value_of_slot (slot_of (value_of_added a))) object
  = Object_Set key (value_of_added a) object.
Proof. by destruct a. Qed.

Lemma flat_added_Forall policy (calls : list (gostring * added)) :
  forallb (λ call, readable policy call.1 && flat_added policy call.2) calls = true →
  Forall (λ m : gostring * slot, readable policy m.1 = true ∧ flat_slot policy m.2 = true)
    ((λ call, (call.1, slot_of (value_of_added call.2))) <$> calls).
Proof.
  intros Hflat. apply Forall_fmap, Forall_forall. intros call Hin.
  rewrite forallb_forall in Hflat. apply list_elem_of_In, Hflat in Hin.
  by apply andb_prop in Hin.
Qed.

(** The text of a builder after typed calls with distinct readable names
    and flat values is parsed to the object that the [Set*] calls for the
    same names and values make. *)
Lemma ObjectBuilder_text_parsed policy calls :
  Z.of_nat (length calls) < 2 ^ 63 → NoDup calls.*1 →
  forallb (λ call, readable policy call.1 && flat_added policy call.2) calls = true →
  (text ← ObjectBuilder_text policy calls; ParseObject text)
  = Ok (Object_of_calls ((λ call, (call.1, value_of_added call.2)) <$> calls)).
Proof.
  intros Hlen Hnodup Hflat.
  set (objectString := λ (_ : StringCharacterEscapingBehaviorInterface) (_ : ObjectStruct),
                         ([] : gostring)).
  set (ms := (λ call : gostring * added, (call.1, slot_of (value_of_added call.2))) <$> calls).
  assert (ms.*1 = calls.*1) as Hnames by (unfold ms; by rewrite <- list_fmap_compose).
  assert (Object_of_calls ((λ m : gostring * slot, (m.1, value_of_slot m.2)) <$> ms)
          = Object_of_calls ((λ call, (call.1, value_of_added call.2)) <$> calls))
    as Hparsed.
  { unfold ms, Object_of_calls. rewrite <- list_fmap_compose, !foldl_fmap.
    apply foldl_ext_all. intros object call. apply Object_Set_value_of_added. }
  rewrite (ObjectBuilder_text_members objectString) by done. cbn [mbind result_bind].
  rewrite <- Hparsed.
  replace ((λ call : gostring * added,
              (call.1, slot_text objectString policy (slot_of (value_of_added call.2))))
             <$> calls)
    with ((λ m : gostring * slot, (m.1, slot_text objectString policy m.2)) <$> ms)
    by (unfold ms; by rewrite <- list_fmap_compose).
  apply ParseObject_members_text; [by rewrite Hnames|by apply flat_added_Forall].
Qed.

(** The round trip of flat objects through a builder.  A builder made by
    [NewObjectBuilder] is given typed calls with distinct readable names,
    whose values are readable strings, number texts of the grammar that
    start with a digit, integers that are not negative, booleans and
    nulls.  The text that [Done] returns is read back by [ParseObject] as
    the object that the [Set*] calls for the same names and values make on
    the zero value; its keys are the names in the order of the calls. *)
Theorem flat_object_round_trip policy calls :
  Z.of_nat (length calls) < 2 ^ 63 → NoDup calls.*1 →
  forallb (λ call, readable policy call.1 && flat_added policy call.2) calls = true →
  let parsed := Object_of_calls ((λ call, (call.1, value_of_added call.2)) <$> calls) in
  (text ← ObjectBuilder_text policy calls; ParseObject text) = Ok parsed ∧
  o_keys parsed = calls.*1.
Proof.
  intros Hlen Hnodup Hflat parsed. split.
  - by apply ObjectBuilder_text_parsed.
  - unfold parsed. rewrite (proj1 (Object_of_calls_model _)), <- list_fmap_compose.
    by apply first_occurrences_NoDup.
Qed.

Lemma flat_object_round_trip_witness :
  let calls := [(lit "b", AString (lit "x/y")); (lit "a", AInt 12); (lit "n", ANull);
                (lit "c", ABool false); (lit "d", AJSON (lit "1.50e+3"))] in
  let parsed := Object_of_calls ((λ call, (call.1, value_of_added call.2)) <$> calls) in
  (text ← ObjectBuilder_text MinimalStringCharacterEscapingBehavior calls; ParseObject text)
    = Ok parsed ∧
  o_keys parsed = calls.*1.
Proof.
  apply (flat_object_round_trip MinimalStringCharacterEscapingBehavior);
    [by vm_compute|by apply (bool_decide_unpack _)|by vm_compute].
Defined.

(** ** Strings that the parser returns *)

Lemma WriteRune_ValidRune b r :
  forallb utf8.ValidRune (Builder.WriteRune b r) = forallb utf8.ValidRune b.
Proof.
  unfold Builder.WriteRune.
  destruct ((r <? 0) || (r >? unicode.MaxRune) || utf16.IsSurrogate r) eqn:Hr;
    rewrite forallb_app; cbn [forallb]; [by rewrite !andb_true_r|].
  assert (utf8.ValidRune r = true) as ->; [|by rewrite !andb_true_r].
  unfold utf8.ValidRune, utf16.IsSurrogate, unicode.MaxRune, utf16.surr1, utf16.surr3 in *.
  repeat case_match; lia.
Qed.

Lemma parseString_loop_ValidRune n r b prevHex s r' :
  (length r <= n)%nat → forallb utf8.ValidRune b = true →
  parseString_loop r b prevHex = Ok (s, r') → forallb utf8.ValidRune s = true.
Proof.
  revert r b prevHex. induction n as [|n IH]; intros r b prevHex Hn Hb.
  { destruct r; [done|simpl in Hn; lia]. }
  destruct r as [|char r]; [done|]. cbn [parseString_loop].
  repeat (case_match; simplify_eq); try done; simpl in *; intros Hparse;
    simplify_eq; try done;
    (eapply IH; [| |exact Hparse]; [lia|by rewrite ?WriteRune_ValidRune]).
Qed.

(** Every string that [parseString] returns is made of Unicode scalar
    values, whatever the escapes of the text are: no surrogate and no rune
    out of range is returned.  And [parseString] has read a part of the
    text. *)
Theorem parseString_ValidRune r s r' :
  parseString r = Ok (s, r') →
  forallb utf8.ValidRune s = true ∧ (length r' < length r)%nat.
Proof.
  intros Hparse. split.
  - destruct r as [|char r]; [done|]. cbn [parseString] in Hparse.
    repeat (case_match; simplify_eq); try done.
    apply (parseString_loop_ValidRune (length r) r [] 0 s r'); [lia|done|done].
  - pose proof (parseString_consumed r) as Hconsumed. by rewrite Hparse in Hconsumed.
Qed.

Lemma parseString_ValidRune_witness :
  forallb utf8.ValidRune [97; NEWLINE] = true ∧
  (length (lit ":1}") < length (lit "'a\n':1}"))%nat.
Proof. apply (parseString_ValidRune (lit "'a\n':1}")). reflexivity. Defined.

(** ** Objects that the parser returns *)

Lemma Has_Object_of_calls calls key :
  Object.Has key (Object_of_calls calls) = true ↔ key ∈ calls.*1.
Proof.
  pose proof (Object_of_calls_wf calls) as (_ & _ & Hkeys).
  rewrite <- Hkeys, (proj1 (Object_of_calls_model calls)).
  apply first_occurrences_elem_of.
Qed.

Ltac fold_Object_Set :=
  repeat match goal with
  | |- context [Object.SetString ?k ?v (Object_of_calls ?cs)] =>
      change (Object.SetString k v (Object_of_calls cs))
        with (Object_Set k (VString v) (Object_of_calls cs))
  | H : context [Object.SetString ?k ?v (Object_of_calls ?cs)] |- _ =>
      change (Object.SetString k v (Object_of_calls cs))
        with (Object_Set k (VString v) (Object_of_calls cs)) in H
  | |- context [Object.SetNumber ?k ?v (Object_of_calls ?cs)] =>
      change (Object.SetNumber k v (Object_of_calls cs))
        with (Object_Set k (VNumber v) (Object_of_calls cs))
  | H : context [Object.SetNumber ?k ?v (Object_of_calls ?cs)] |- _ =>
      change (Object.SetNumber k v (Object_of_calls cs))
        with (Object_Set k (VNumber v) (Object_of_calls cs)) in H
  | |- context [Object.SetBool ?k ?v (Object_of_calls ?cs)] =>
      change (Object.SetBool k v (Object_of_calls cs))
        with (Object_Set k (VBool v) (Object_of_calls cs))
  | H : context [Object.SetBool ?k ?v (Object_of_calls ?cs)] |- _ =>
      change (Object.SetBool k v (Object_of_calls cs))
        with (Object_Set k (VBool v) (Object_of_calls cs)) in H
  | |- context [Object.SetNull ?k (Object_of_calls ?cs)] =>
      change (Object.SetNull k (Object_of_calls cs))
        with (Object_Set k (VNull) (Object_of_calls cs))
  | H : context [Object.SetNull ?k (Object_of_calls ?cs)] |- _ =>
      change (Object.SetNull k (Object_of_calls cs))
        with (Object_Set k (VNull) (Object_of_calls cs)) in H
  | |- context [Object.SetJSONObject ?k ?v (Object_of_calls ?cs)] =>
      change (Object.SetJSONObject k v (Object_of_calls cs))
        with (Object_Set k (VJSONObject v) (Object_of_calls cs))
  | H : context [Object.SetJSONObject ?k ?v (Object_of_calls ?cs)] |- _ =>
      change (Object.SetJSONObject k v (Object_of_calls cs))
        with (Object_Set k (VJSONObject v) (Object_of_calls cs)) in H
  | |- context [Object.SetJSONArray ?k ?v (Object_of_calls ?cs)] =>
      change (Object.SetJSONArray k v (Object_of_calls cs))
        with (Object_Set k (VJSONArray v) (Object_of_calls cs))
  | H : context [Object.SetJSONArray ?k ?v (Object_of_calls ?cs)] |- _ =>
      change (Object.SetJSONArray k v (Object_of_calls cs))
        with (Object_Set k (VJSONArray v) (Object_of_calls cs)) in H
  end;
  rewrite <- ?Object_of_calls_snoc in *.

Lemma parseEmbeddedArray_zero fuel r array r' :
  parseEmbeddedArray fuel r = Ok (array, r') → array = Array.zero.
Proof.
  destruct fuel as [|fuel]; [done|]. cbn [parseEmbeddedArray]. intros H.
  repeat invert_parse H. injection H as ->. by eapply parseEmbeddedArray_loop_zero.
Qed.

Lemma wrap_Ok_inv {A} ctx (y : result A) a : wrap ctx y = Ok a → y = Ok a.
Proof. by destruct y. Qed.

Lemma parseString_valid r s r' :
  parseString r = Ok (s, r') → forallb utf8.ValidRune s = true.
Proof.
  intros Hparse. destruct r as [|char r]; [done|]. cbn [parseString] in Hparse.
  repeat (case_match; simplify_eq); try done.
  apply (parseString_loop_ValidRune (length r) r [] 0 s r'); [lia|done|done].
Qed.

(** A number that starts with a digit has no minus sign. *)
Lemma extractNumber_digit z r N r' :
  isDigitCharacter z = true → extractNumber (z :: r) = Ok (N, r') →
  ∃ p, parts_ok false p = true ∧ p_minus p = false ∧ N = parts_text p.
Proof.
  intros Hz (p & Hok & -> & Hr)%extractNumber_sound. exists p. split; [done|]. split; [|done].
  destruct (p_minus p) eqn:Hminus; [|done]. exfalso.
  unfold parts_text in Hr. rewrite Hminus in Hr. cbn [app] in Hr.
  injection Hr as -> _. done.
Qed.

Lemma NoDup_snoc_fst (calls : list (gostring * value)) key v :
  NoDup calls.*1 → key ∉ calls.*1 → NoDup (calls ++ [(key, v)]).*1.
Proof.
  intros Hnodup Hnotin. rewrite fmap_app. apply NoDup_app. split; [done|].
  split; [|apply NoDup_singleton]. by intros ? ? ->%list_elem_of_singleton.
Qed.

(** The loop of [parseEmbeddedObject] makes one [Set*] call for each
    member that it reads, and none for a name that the object has.  A name
    and a string are made of Unicode scalar values, a number is made of
    well-formed parts without sign, a nested object is one that
    [parseEmbeddedObject] returned, and an array is the zero value. *)
Lemma parseEmbeddedObject_loop_parsed (Q : ObjectStruct → Prop) fuel :
  (∀ fuel' r o r', (fuel' < fuel)%nat → parseEmbeddedObject fuel' r = Ok (o, r') → Q o) →
  ∀ calls r o r', NoDup calls.*1 →
  parseEmbeddedObject_loop fuel (Object_of_calls calls) r = Ok (o, r') →
  ∃ more, o = Object_of_calls (calls ++ more) ∧ NoDup (calls ++ more).*1 ∧
          Forall (λ call, forallb utf8.ValidRune call.1 = true ∧ value_parsed Q call.2) more.
Proof.
  induction fuel as [|fuel IH]; intros HQ calls r o r' Hnodup H; [done|].
  assert (∀ fuel' r o r', (fuel' < fuel)%nat →
            parseEmbeddedObject fuel' r = Ok (o, r') → Q o) as HQ'
    by (intros; eapply HQ; [|eassumption]; lia).
  specialize (IH HQ'). clear HQ'.
  cbn [parseEmbeddedObject_loop] in H.
  repeat invert_parse H.
  all: try (injection H as <- <-).
  all: try (exists []; by rewrite app_nil_r).
  all: repeat match goal with
       | E : wrap _ (parseString _) = Ok (_, _) |- _ =>
           apply wrap_Ok_inv, parseString_valid in E
       | HQ0 : (∀ fuel' r o r', (fuel' < _)%nat → parseEmbeddedObject fuel' r = _ → _),
         E : wrap _ (parseEmbeddedObject ?f _) = Ok (_, _) |- _ =>
           apply wrap_Ok_inv, (HQ0 f) in E; [|lia]
       | E : wrap _ (parseEmbeddedArray _ _) = Ok (?a, _) |- _ =>
           apply wrap_Ok_inv, parseEmbeddedArray_zero in E; subst a
       | E : wrap _ (extractNumber (?z :: _)) = Ok (_, _),
         D : isDigitCharacter ?z = true |- _ =>
           apply wrap_Ok_inv, (extractNumber_digit _ _ _ _ D) in E
       end.
  all: fold_Object_Set.
  all: match goal with
       | E : Object.Has ?k (Object_of_calls ?cs) = false |- _ =>
           assert (k ∉ cs.*1) as Hnotin
             by (intros Hin%Has_Object_of_calls; congruence)
       end.
  all: match goal with
       | Hn : NoDup ?cs.*1 |- ∃ more, Object_of_calls (?cs ++ [?call]) = _ ∧ _ =>
           exists [call]; split; [done|]; split; [by apply NoDup_snoc_fst|];
           apply Forall_singleton; split; [done|by constructor]
       | Hn : NoDup ?cs.*1,
         E : parseEmbeddedObject_loop _ (Object_of_calls (?cs ++ [?call])) _ = Ok ?a |- _ =>
           destruct a as [o' r'']; apply IH in E as (more & -> & Hmore & Hall);
           [exists (call :: more); injection H as <- <-;
            rewrite <- app_assoc in *; split; [done|]; split; [done|];
            apply Forall_cons; split; [split; [done|by constructor]|done]
           |by apply NoDup_snoc_fst]
       end.
Qed.

Lemma parseEmbeddedObject_parsed fuel :
  ∀ r o r', parseEmbeddedObject fuel r = Ok (o, r') → Object_parsed o.
Proof.
  induction fuel as [fuel IH] using lt_wf_ind. intros r o r' H.
  destruct fuel as [|fuel]; [done|]. cbn [parseEmbeddedObject] in H.
  repeat invert_parse H. change Object.zero with (Object_of_calls []) in *.
  match goal with
  | E : parseEmbeddedObject_loop _ _ _ = Ok ?a |- _ =>
      destruct a as [parsed r''];
        apply (parseEmbeddedObject_loop_parsed Object_parsed) in E
          as (calls & -> & Hnodup & Hall);
        [|intros ? ? ? ? ? ?; eapply IH; [|eassumption]; lia|apply NoDup_nil_2]
  end.
  injection H as <- _. by constructor.
Qed.

(** Every object that [ParseObject] returns is an object that [Set*]
    calls with distinct names make on the zero value, one call for each
    key and in the order of the keys.  Every name and every string is made
    of Unicode scalar values, every number is made of well-formed parts
    without sign, every array is the zero value of [ArrayStruct], and every
    nested object is again such an object. *)
Theorem ParseObject_calls s o :
  ParseObject s = Ok o →
  ∃ calls, o = Object_of_calls calls ∧ NoDup calls.*1 ∧ o_keys o = calls.*1 ∧
           Forall (λ call, forallb utf8.ValidRune call.1 = true ∧
                           value_parsed Object_parsed call.2) calls ∧
           ∀ key array, Object.GetJSONArray key o = Ok array → array = Array.zero.
Proof.
  intros H. unfold ParseObject, mbind, result_bind in H.
  destruct (parseEmbeddedObject (fuel_for s) s) as [[parsed r]| | |] eqn:Hparse; [|done..].
  destruct (parseEnd r); [|done..]. injection H as <-.
  apply parseEmbeddedObject_parsed in Hparse. destruct Hparse as [calls Hnodup Hall].
  exists calls. split; [done|]. split; [done|]. split; [|split; [done|]].
  - rewrite (proj1 (Object_of_calls_model _)). by apply first_occurrences_NoDup.
  - intros key array Hget.
    pose proof (proj2 (Object_of_calls_model calls) key) as Hslot.
    pose proof (Object_gets_slot key _ (proj1 (Object_of_calls_wf calls) key)) as Hgets.
    rewrite Hslot in Hgets.
    destruct (Object_getters_gets key (Object_of_calls calls)) as (_ & _ & _ & _ & Harray).
    rewrite Harray in Hget. unfold Object_gets in Hgets.
    destruct (last_value calls key) as [v|] eqn:Hlast; [destruct v|];
      cbn in Hgets; injection Hgets as _ _ _ _ _ Hlookup;
      rewrite Hlookup in Hget; cbn in Hget; try done.
    injection Hget as <-. apply last_value_elem_of in Hlast.
    destruct (proj1 (Forall_forall _ _) Hall _ Hlast) as [_ Hvalue].
    by inversion Hvalue.
Qed.

Lemma ParseObject_calls_witness :
  let o := Object.SetJSONObject (lit "b")
             (Object.SetJSONArray (lit "c") Array.zero Object.zero)
             (Object.SetNumber (lit "a") (lit "1") Object.zero) in
  ∃ calls, o = Object_of_calls calls ∧ NoDup calls.*1 ∧ o_keys o = calls.*1 ∧
           Forall (λ call, forallb utf8.ValidRune call.1 = true ∧
                           value_parsed Object_parsed call.2) calls ∧
           ∀ key array, Object.GetJSONArray key o = Ok array → array = Array.zero.
Proof. apply (ParseObject_calls (lit "{'a':1, 'b':{'c':[]}}")). reflexivity. Defined.

(** ** Arrays: [Set*] at an index that holds a value *)







(** ** Integers through the text *)

Lemma uint_runes_digits d : forallb isDigitCharacter (strconv.uint_runes d) = true.
Proof. induction d; cbn [strconv.uint_runes forallb]; by rewrite ?IHd. Qed.

Lemma grammar_digits_all digits :
  forallb isDigitCharacter digits = true → grammar_digits digits = [].
Proof.
  intros Hdigits. rewrite <- (app_nil_r digits). by rewrite grammar_digits_app.
Qed.

Lemma nzhead_not_zero d : ∀ d', Decimal.nzhead d ≠ Decimal.D0 d'.
Proof. induction d; cbn [Decimal.nzhead]; done. Qed.

Lemma number_ok_unorm d : number_ok (strconv.uint_runes (Decimal.unorm d)) = true.
Proof.
  unfold Decimal.unorm. pose proof (nzhead_not_zero d) as Hzero.
  destruct (Decimal.nzhead d) as [|d'|d'|d'|d'|d'|d'|d'|d'|d'|d'] eqn:Hhead;
    [reflexivity|by destruct (Hzero d')|..];
    unfold number_ok, number_grammar; cbn [strconv.uint_runes grammar_sign grammar_integer];
    simpl (_ =? _); simpl (_ && _); cbv iota;
    rewrite (grammar_digits_all _ (uint_runes_digits d')); reflexivity.
Qed.

(** The decimal text of an integer that is not negative is a number of
    the grammar that starts with a digit. *)
Lemma number_ok_FormatInt z : 0 <= z → number_ok (strconv.FormatInt z) = true.
Proof.
  intros Hz. unfold strconv.FormatInt. replace (z <? 0) with false by lia.
  rewrite <- (DecimalN.Unsigned.of_to (Z.to_N z)) at 1.
  rewrite DecimalN.Unsigned.to_of. apply number_ok_unorm.
Qed.

(** A member whose value starts with a minus sign: the value is not
    dispatched to [extractNumber], and the parse fails at the sign. *)
Lemma parseEmbeddedObject_loop_minus policy fuel object key rest :
  readable policy key = true → Object.Has key object = false →
  parseEmbeddedObject_loop (S fuel) object
    (encodeString key policy ++ ":"%rune :: "-"%rune :: rest)
  = Err (FailedToExtractIdentifier (UnexpectedCharacter "-"%rune)).
Proof.
  intros Hkey Hhas.
  pose proof (parseString_encodeString policy key (":"%rune :: "-"%rune :: rest) Hkey) as Hname.
  destruct (encodeString_head key policy) as [tail Htail]. rewrite Htail in *.
  cbn [app] in Hname. member_eval. rewrite Hname. member_eval. rewrite Hhas. member_eval.
  reflexivity.
Qed.

Lemma ObjectBuilder_text_AddInt policy key z :
  ObjectBuilder_text policy [(key, AInt z)]
  = Ok ("{"%rune :: encodeString key policy ++ ":"%rune :: strconv.FormatInt z ++ ["}"%rune]).
Proof.
  rewrite (ObjectBuilder_text_members (λ _ _, [])) by (by vm_compute). reflexivity.
Qed.

(** An integer through the text.  [AddInt] on a builder made by
    [NewObjectBuilder], [Done], [ParseObject] and [GetInt] return the
    integer when it is not negative.  When it is negative the text is not
    parsed: the parse fails at the minus sign. *)
Theorem Object_integer_round_trip policy key z :
  readable policy key = true → - 2 ^ 63 <= z < 2 ^ 63 →
  let text := ObjectBuilder_text policy [(key, AInt z)] in
  (0 <= z →
   (text ← text; object ← ParseObject text; Object.GetInt key object) = Ok z) ∧
  (z < 0 →
   (text ← text; ParseObject text)
   = Err (FailedToExtractIdentifier (UnexpectedCharacter "-"%rune))).
Proof.
  intros Hkey Hz text. split; intros Hsign.
  - assert (forallb (λ call, readable policy call.1 && flat_added policy call.2)
              [(key, AInt z)] = true) as Hflat.
    { cbn [forallb fst snd]. rewrite Hkey. unfold flat_added.
      cbn [value_of_added slot_of flat_slot]. by rewrite number_ok_FormatInt. }
    assert (Z.of_nat (length [(key, AInt z)]) < 2 ^ 63) as Hlen by (by vm_compute).
    pose proof (ObjectBuilder_text_parsed policy [(key, AInt z)] Hlen
                  (NoDup_singleton _) Hflat) as Hparse.
    unfold text. unfold mbind, result_bind in *.
    destruct (ObjectBuilder_text policy [(key, AInt z)]); [|done..].
    rewrite Hparse. cbn [fmap list_fmap fst snd value_of_added].
    change (Object_of_calls [(key, VInt z)])
      with (Object.SetNumber key (strconv.FormatInt z) Object.zero).
    rewrite (proj1 (Object_GetInt_SetNumber _ _ _)).
    unfold strconv.Atoi. by rewrite ParseInt_FormatInt by lia.
  - unfold text. rewrite ObjectBuilder_text_AddInt. cbn [mbind result_bind].
    destruct (FormatInt_negative z Hsign) as [digits ->].
    unfold ParseObject.
    match goal with |- context [fuel_for ?s] =>
      assert (2 <= fuel_for s)%nat as Hfuel by (unfold fuel_for; simpl; lia);
      destruct (fuel_for s) as [|[|fuel]]; [lia..|clear Hfuel]
    end.
    cbn [parseEmbeddedObject skipWhitespace isWhitespace mbind result_bind
         Z.eqb Pos.eqb orb negb unicode.ReplacementChar].
    cbn [app]. by rewrite parseEmbeddedObject_loop_minus.
Qed.

Lemma Object_integer_round_trip_witness :
  let text := ObjectBuilder_text MinimalStringCharacterEscapingBehavior [(lit "n", AInt 1500)] in
  (text ← text; object ← ParseObject text; Object.GetInt (lit "n") object) = Ok 1500.
Proof.
  apply (Object_integer_round_trip MinimalStringCharacterEscapingBehavior (lit "n") 1500);
    [reflexivity|lia|lia].
Defined.

(** ** A comma before the closing brace *)

Lemma ParseObject_members objectString policy (comma : bool) first rest :
  NoDup (first :: rest).*1 →
  Forall (λ m, readable policy m.1 = true ∧ flat_slot policy m.2 = true) (first :: rest) →
  ParseObject
    ("{"%rune :: encodeString first.1 policy ++ ":"%rune ::
     slot_text objectString policy first.2 ++
     concat ((λ m, ","%rune :: encodeString m.1 policy ++ ":"%rune ::
                    slot_text objectString policy m.2)
             <$> rest) ++ (if comma then [","%rune] else []) ++ ["}"%rune])
  = Ok (Object_of_calls ((λ m, (m.1, value_of_slot m.2)) <$> first :: rest)).
Proof.
  intros Hnodup Hall. set (s := "{"%rune :: _).
  assert (parseEmbeddedObject (S (S (S (length rest)))) s
          = Ok (Object_of_calls ((λ m, (m.1, value_of_slot m.2)) <$> first :: rest), []))
    as Hparse.
  { unfold s. cbn [parseEmbeddedObject skipWhitespace isWhitespace mbind result_bind
                   Z.eqb Pos.eqb orb negb unicode.ReplacementChar].
    rewrite (parseEmbeddedObject_loop_members objectString policy comma); [|lia|done|].
    - unfold Object_of_calls. by rewrite foldl_fmap.
    - eapply Forall_impl; [exact Hall|]. intros m [? ?]. by rewrite Object_zero_Has. }
  unfold ParseObject. rewrite <- (parseEmbeddedObject_fuel_for _ s) by (by rewrite Hparse).
  by rewrite Hparse.
Qed.

(** The parser accepts a comma before the closing brace.  For the text
    that a builder returns after at least one call, under the conditions
    of [flat_object_round_trip], the text and the same text with a comma
    put before its closing brace are parsed to the same object, the one
    that the [Set*] calls for the same names and values make. *)
Theorem ParseObject_trailing_comma policy calls body :
  Z.of_nat (length calls) < 2 ^ 63 → calls ≠ [] → NoDup calls.*1 →
  forallb (λ call, readable policy call.1 && flat_added policy call.2) calls = true →
  ObjectBuilder_text policy calls = Ok (body ++ lit "}") →
  let parsed := Object_of_calls ((λ call, (call.1, value_of_added call.2)) <$> calls) in
  ParseObject (body ++ lit "}") = Ok parsed ∧
  ParseObject (body ++ lit ",}") = Ok parsed.
Proof.
  intros Hlen Hcalls Hnodup Hflat Htext parsed.
  set (objectString := λ (_ : StringCharacterEscapingBehaviorInterface) (_ : ObjectStruct),
                         ([] : gostring)).
  set (ms := (λ call : gostring * added, (call.1, slot_of (value_of_added call.2))) <$> calls).
  assert (ms.*1 = calls.*1) as Hnames by (unfold ms; by rewrite <- list_fmap_compose).
  assert (Object_of_calls ((λ m : gostring * slot, (m.1, value_of_slot m.2)) <$> ms) = parsed)
    as Hparsed.
  { unfold ms, parsed, Object_of_calls. rewrite <- list_fmap_compose, !foldl_fmap.
    apply foldl_ext_all. intros object call. apply Object_Set_value_of_added. }
  pose proof (flat_added_Forall policy calls Hflat) as Hms. fold ms in Hms.
  rewrite (ObjectBuilder_text_members objectString) in Htext by done.
  injection Htext as Htext.
  replace ((λ call : gostring * added,
              (call.1, slot_text objectString policy (slot_of (value_of_added call.2))))
             <$> calls)
    with ((λ m : gostring * slot, (m.1, slot_text objectString policy m.2)) <$> ms) in Htext
    by (unfold ms; by rewrite <- list_fmap_compose).
  rewrite <- Hnames in Hnodup. rewrite <- Hparsed. clear Hparsed.
  destruct ms as [|first rest] eqn:Hms_eq.
  { destruct calls; [done|discriminate Hms_eq]. }
  pose proof (ParseObject_members objectString policy false first rest Hnodup Hms) as Hplain.
  pose proof (ParseObject_members objectString policy true first rest Hnodup Hms) as Hcomma.
  cbn [fmap list_fmap members_text fst snd] in Htext.
  rewrite <- list_fmap_compose in Htext.
  change (lit "}") with ["}"%rune] in *. change (lit ",}") with [","%rune; "}"%rune].
  assert (body ++ ["}"%rune] =
          ("{"%rune :: encodeString first.1 policy ++ ":"%rune ::
           slot_text objectString policy first.2 ++
           concat ((λ m, ","%rune :: encodeString m.1 policy ++ ":"%rune ::
                          slot_text objectString policy m.2) <$> rest)) ++ ["}"%rune]) as Hbody.
  { rewrite <- Htext. cbn [app]. rewrite <- !app_assoc. cbn [app].
    by rewrite <- !app_assoc. }
  apply app_inj_tail in Hbody as [-> _].
  cbn [app] in *. rewrite <- !app_assoc. cbn [app]. rewrite <- !app_assoc.
  split; [apply Hplain|apply Hcomma].
Qed.

Lemma ParseObject_trailing_comma_witness :
  let parsed := Object_of_calls [(lit "a", VInt 1); (lit "b", VBool true)] in
  ParseObject (lit "{'\u0061':1,'\u0062':true" ++ lit "}") = Ok parsed ∧
  ParseObject (lit "{'\u0061':1,'\u0062':true" ++ lit ",}") = Ok parsed.
Proof.
  apply (ParseObject_trailing_comma hexOnlyBehavior
           [(lit "a", AInt 1); (lit "b", ABool true)]);
    [by vm_compute|done|by apply (bool_decide_unpack _)|reflexivity|reflexivity].
Defined.

(** ** Whitespace around the text, and what follows it *)

Lemma isWhitespace_not_replacement c :
  isWhitespace c = true → (c =? unicode.ReplacementChar) = false.
Proof. unfold isWhitespace, unicode.ReplacementChar. lia. Qed.

Lemma skipWhitespace_whitespace ws r :
  forallb isWhitespace ws = true → skipWhitespace (ws ++ r) = skipWhitespace r.
Proof.
  induction ws as [|c ws IH]; [done|]. cbn [forallb app skipWhitespace].
  intros [Hc Hws]%andb_prop. by rewrite (isWhitespace_not_replacement c Hc), Hc, IH.
Qed.

Lemma parseEnd_whitespace ws r :
  forallb isWhitespace ws = true → parseEnd (ws ++ r) = parseEnd r.
Proof.
  induction ws as [|c ws IH]; [done|]. cbn [forallb app parseEnd].
  intros [Hc Hws]%andb_prop. by rewrite (isWhitespace_not_replacement c Hc), Hc, IH.
Qed.

Lemma parseEnd_Ok r : parseEnd r = Ok () → forallb isWhitespace r = true.
Proof.
  induction r as [|c r IH]; [done|]. cbn [parseEnd forallb].
  destruct (c =? unicode.ReplacementChar); [done|].
  destruct (isWhitespace c); [|done]. exact IH.
Qed.

Lemma parseEmbedded_whitespace fuel ws r :
  forallb isWhitespace ws = true →
  parseEmbeddedObject fuel (ws ++ r) = parseEmbeddedObject fuel r ∧
  parseEmbeddedArray fuel (ws ++ r) = parseEmbeddedArray fuel r.
Proof.
  intros Hws. destruct fuel as [|fuel]; [done|].
  cbn [parseEmbeddedObject parseEmbeddedArray]. by rewrite skipWhitespace_whitespace.
Qed.

Lemma parseEmbedded_more_fuel s more :
  parseEmbeddedObject (fuel_for s + more) s = parseEmbeddedObject (fuel_for s) s ∧
  parseEmbeddedArray (fuel_for s + more) s = parseEmbeddedArray (fuel_for s) s.
Proof.
  pose proof (parse_fuel (fuel_for s)) as (Hobject & _ & Harray & _).
  specialize (Hobject s). specialize (Harray s). split.
  - apply (parse_fuel_mono (fuel_for s) (fuel_for s + more)); [lia|].
    intros Hout. rewrite Hout in Hobject. apply Hobject. unfold fuel_for. lia.
  - apply (parse_fuel_mono (fuel_for s) (fuel_for s + more)); [lia|].
    intros Hout. rewrite Hout in Harray. apply Harray. unfold fuel_for. lia.
Qed.

Lemma fuel_for_app s x : fuel_for (s ++ x) = (fuel_for s + 2 * length x)%nat.
Proof. unfold fuel_for. rewrite length_app. lia. Qed.

(** Whitespace before the text changes nothing: [ParseObject] and
    [ParseArray] answer on the text with whitespace before it as they do on
    the text. *)
Theorem leading_whitespace ws s :
  forallb isWhitespace ws = true →
  ParseObject (ws ++ s) = ParseObject s ∧ ParseArray (ws ++ s) = ParseArray s.
Proof.
  intros Hws. unfold ParseObject, ParseArray.
  destruct (parseEmbedded_whitespace (fuel_for (ws ++ s)) ws s Hws) as [-> ->].
  replace (fuel_for (ws ++ s)) with (fuel_for s + 2 * length ws)%nat
    by (unfold fuel_for; rewrite length_app; lia).
  by destruct (parseEmbedded_more_fuel s (2 * length ws)) as [-> ->].
Qed.

Lemma leading_whitespace_witness :
  ParseObject ([TAB; NEWLINE; " "%rune] ++ lit "{'a':1}") = ParseObject (lit "{'a':1}") ∧
  ParseArray ([TAB; NEWLINE; " "%rune] ++ lit "{'a':1}") = ParseArray (lit "{'a':1}").
Proof. apply (leading_whitespace [TAB; NEWLINE; " "%rune]). reflexivity. Defined.

(** *** More text after what a parser has read *)

Lemma skipWhitespace_frame r c r' x :
  skipWhitespace r = Ok (c :: r') → skipWhitespace (r ++ x) = Ok (c :: r' ++ x).
Proof.
  induction r as [|char r IH]; [done|]. cbn [app skipWhitespace].
  destruct (char =? unicode.ReplacementChar); [done|].
  destruct (isWhitespace char); [exact IH|]. by intros [= -> ->].
Qed.

Lemma skipWhitespace_head r c r' :
  skipWhitespace r = Ok (c :: r') →
  isWhitespace c = false ∧ c ≠ unicode.ReplacementChar ∧
  ∃ ws, r = ws ++ c :: r' ∧ forallb isWhitespace ws = true.
Proof.
  induction r as [|char r IH]; [done|]. cbn [skipWhitespace].
  destruct (char =? unicode.ReplacementChar) eqn:Hreplacement; [done|].
  destruct (isWhitespace char) eqn:Hchar.
  - intros (? & ? & ws & -> & Hws)%IH. split; [done|]. split; [done|].
    exists (char :: ws). cbn [forallb app]. by rewrite Hchar, Hws.
  - intros [= -> ->]. split; [done|]. split; [unfold unicode.ReplacementChar in *; lia|].
    by exists [].
Qed.

Lemma parseString_loop_frame n x :
  ∀ r b prevHex s r',
  (length r <= n)%nat → parseString_loop r b prevHex = Ok (s, r') →
  parseString_loop (r ++ x) b prevHex = Ok (s, r' ++ x).
Proof.
  induction n as [|n IH]; intros r b prevHex s r' Hn.
  { destruct r; [done|simpl in Hn; lia]. }
  destruct r as [|char r]; [done|]. cbn [parseString_loop]. intros H.
  repeat invert_parse H.
  all: cbn [app parseString_loop].
  all: repeat match goal with
       | E : ?t = _ |- context [?t] => rewrite E
       end.
  all: cbv iota beta.
  all: try (injection H as <- <-; done).
  all: injection H as ->; apply IH; [simpl in Hn; lia|assumption].
Qed.

Lemma parseString_frame r s r' x :
  parseString r = Ok (s, r') → parseString (r ++ x) = Ok (s, r' ++ x).
Proof.
  destruct r as [|char r]; [done|]. cbn [app parseString].
  destruct (char =? unicode.ReplacementChar); [done|].
  destruct (negb (char =? 34)); [done|]. by apply (parseString_loop_frame (length r)).
Qed.

Lemma extractIdentifier_loop_frame r extracted id c r' x :
  extractIdentifier_loop r extracted = Ok (id, c :: r') →
  extractIdentifier_loop (r ++ x) extracted = Ok (id, c :: r' ++ x).
Proof.
  revert extracted. induction r as [|char r IH]; intros extracted; [done|].
  cbn [app extractIdentifier_loop].
  destruct (char =? unicode.ReplacementChar); [done|].
  destruct (negb (isIdentifierCharacter char)); [by intros [= -> -> ->]|]. apply IH.
Qed.

Lemma extractIdentifier_frame r id c r' x :
  extractIdentifier r = Ok (id, c :: r') →
  extractIdentifier (r ++ x) = Ok (id, c :: r' ++ x).
Proof.
  destruct r as [|char r]; [done|]. cbn [app extractIdentifier].
  destruct (char =? unicode.ReplacementChar); [done|].
  destruct (negb (isIdentifierCharacter char)); [done|]. apply extractIdentifier_loop_frame.
Qed.

Lemma extractNumber_frame r N r1 c r2 x :
  extractNumber r = Ok (N, r1) → skipWhitespace r1 = Ok (c :: r2) →
  c = "}"%rune ∨ c = ","%rune ∨ c = "]"%rune →
  extractNumber (r ++ x) = Ok (N, r1 ++ x).
Proof.
  intros (p & Hok & -> & ->)%extractNumber_sound Hskip Hc.
  apply skipWhitespace_head in Hskip as (_ & _ & ws & -> & Hws).
  rewrite <- !app_assoc.
  destruct ws as [|w ws]; cbn [app].
  - apply extractNumber_parts; [done|]. by destruct Hc as [->|[->| ->]].
  - apply extractNumber_parts; [done|]. cbn [forallb] in Hws.
    apply andb_prop in Hws as [Hw _]. unfold ends_number, isWhitespace, isDigitCharacter,
      unicode.ReplacementChar in *. lia.
Qed.

Lemma extractIdentifier_frame_skip r id r1 c r2 x :
  extractIdentifier r = Ok (id, r1) → skipWhitespace r1 = Ok (c :: r2) →
  extractIdentifier (r ++ x) = Ok (id, r1 ++ x).
Proof.
  intros Hid Hskip. destruct r1 as [|c1 r1]; [done|]. by apply extractIdentifier_frame.
Qed.

(** The facts about the text [r] that a parse has read, restated for the
    text [r ++ x]. *)
Ltac frame_hyps x IHo IHol IHa IHal :=
  repeat match goal with
  | a : (_ * _)%type |- _ => destruct a
  end;
  repeat match goal with
  | E : wrap _ _ = Ok _ |- _ => apply wrap_Ok_inv in E
  end;
  repeat match goal with
  | E : extractNumber ?r = Ok (?N, ?r1), S : skipWhitespace ?r1 = Ok (?c :: ?r2) |- _ =>
      apply (extractNumber_frame r N r1 c r2 x) in E; [|exact S|lia];
      cbn [app] in E; revert E
  | E : extractIdentifier ?r = Ok (?id, ?r1), S : skipWhitespace ?r1 = Ok (?c :: ?r2) |- _ =>
      apply (extractIdentifier_frame_skip r id r1 c r2 x) in E; [|exact S];
      cbn [app] in E; revert E
  end;
  repeat match goal with
  | E : skipWhitespace ?r = Ok (?c :: ?r') |- _ =>
      apply (skipWhitespace_frame r c r' x) in E; cbn [app] in E; revert E
  | E : parseString ?r = Ok (?s, ?r') |- _ =>
      apply (parseString_frame r s r' x) in E; cbn [app] in E; revert E
  | E : parseEmbeddedObject _ ?r = Ok (?o, ?r') |- _ =>
      apply IHo in E; cbn [app] in E; revert E
  | E : parseEmbeddedObject_loop _ _ ?r = Ok (?o, ?r') |- _ =>
      apply IHol in E; cbn [app] in E; revert E
  | E : parseEmbeddedArray _ ?r = Ok (?o, ?r') |- _ =>
      apply IHa in E; cbn [app] in E; revert E
  | E : parseEmbeddedArray_loop _ _ ?r = Ok (?o, ?r') |- _ =>
      apply IHal in E; cbn [app] in E; revert E
  end;
  intros.

Ltac frame_replay :=
  repeat (unfold mbind, result_bind;
          cbn [app wrap];
          first [ match goal with
                  | E : ?t = _ |- context [?t] => rewrite E
                  end
                | progress cbv iota beta ]).

Lemma parse_frame fuel x :
  (∀ r o r', parseEmbeddedObject fuel r = Ok (o, r') →
     parseEmbeddedObject fuel (r ++ x) = Ok (o, r' ++ x)) ∧
  (∀ object r o r', parseEmbeddedObject_loop fuel object r = Ok (o, r') →
     parseEmbeddedObject_loop fuel object (r ++ x) = Ok (o, r' ++ x)) ∧
  (∀ r a r', parseEmbeddedArray fuel r = Ok (a, r') →
     parseEmbeddedArray fuel (r ++ x) = Ok (a, r' ++ x)) ∧
  (∀ array r a r', parseEmbeddedArray_loop fuel array r = Ok (a, r') →
     parseEmbeddedArray_loop fuel array (r ++ x) = Ok (a, r' ++ x)).
Proof.
  induction fuel as [|fuel (IHo & IHol & IHa & IHal)]; [done|].
  split; [|split; [|split]].
  - intros r o r' H. cbn [parseEmbeddedObject] in H. repeat invert_parse H.
    frame_hyps x IHo IHol IHa IHal. cbn [parseEmbeddedObject]. frame_replay.
    by simplify_eq.
  - intros object r o r' H. cbn [parseEmbeddedObject_loop] in H. repeat invert_parse H.
    all: frame_hyps x IHo IHol IHa IHal.
    all: cbn [parseEmbeddedObject_loop]; frame_replay.
    all: by simplify_eq.
  - intros r a r' H. cbn [parseEmbeddedArray] in H. repeat invert_parse H.
    frame_hyps x IHo IHol IHa IHal. cbn [parseEmbeddedArray]. frame_replay.
    by simplify_eq.
  - intros array r a r' H. cbn [parseEmbeddedArray_loop] in H. repeat invert_parse H.
    all: frame_hyps x IHo IHol IHa IHal.
    all: cbn [parseEmbeddedArray_loop]; frame_replay.
    all: by simplify_eq.
Qed.

Lemma ParseObject_Ok_inv s o :
  ParseObject s = Ok o →
  ∃ r', parseEmbeddedObject (fuel_for s) s = Ok (o, r') ∧ forallb isWhitespace r' = true.
Proof.
  unfold ParseObject, mbind, result_bind.
  destruct (parseEmbeddedObject (fuel_for s) s) as [[parsed r']| | |]; [|done..].
  destruct (parseEnd r') as [[]| | |] eqn:Hend; [|done..]. intros [= <-].
  exists r'. split; [done|]. by apply parseEnd_Ok.
Qed.

Lemma ParseArray_Ok_inv s a :
  ParseArray s = Ok a →
  ∃ r', parseEmbeddedArray (fuel_for s) s = Ok (a, r') ∧ forallb isWhitespace r' = true.
Proof.
  unfold ParseArray, mbind, result_bind.
  destruct (parseEmbeddedArray (fuel_for s) s) as [[parsed r']| | |]; [|done..].
  destruct (parseEnd r') as [[]| | |] eqn:Hend; [|done..]. intros [= <-].
  exists r'. split; [done|]. by apply parseEnd_Ok.
Qed.

Lemma parseEnd_trailing ws c rest :
  forallb isWhitespace ws = true → isWhitespace c = false →
  parseEnd ws = Ok () ∧
  parseEnd (ws ++ c :: rest)
  = Err (if c =? unicode.ReplacementChar then InvalidEncoding else UnexpectedTrailingCharacter).
Proof.
  intros Hws Hc. split.
  - rewrite <- (app_nil_r ws). by rewrite parseEnd_whitespace.
  - rewrite parseEnd_whitespace by done. cbn [parseEnd]. rewrite Hc. by case_match.
Qed.

(** What follows the text.  When [ParseObject] or [ParseArray] returns a
    value for a text, it returns the same value for the text followed by
    whitespace, and it returns an error for the text followed by anything
    else: "unexpected character" at the first rune that is not whitespace,
    or "invalid encoding" when this rune is U+FFFD. *)
Theorem trailing_text s :
  (∀ o, ParseObject s = Ok o →
     (∀ ws, forallb isWhitespace ws = true → ParseObject (s ++ ws) = Ok o) ∧
     (∀ ws c rest, forallb isWhitespace ws = true → isWhitespace c = false →
        ParseObject (s ++ ws ++ c :: rest)
        = Err (if c =? unicode.ReplacementChar then InvalidEncoding
               else UnexpectedTrailingCharacter))) ∧
  (∀ a, ParseArray s = Ok a →
     (∀ ws, forallb isWhitespace ws = true → ParseArray (s ++ ws) = Ok a) ∧
     (∀ ws c rest, forallb isWhitespace ws = true → isWhitespace c = false →
        ParseArray (s ++ ws ++ c :: rest)
        = Err (if c =? unicode.ReplacementChar then InvalidEncoding
               else UnexpectedTrailingCharacter))).
Proof.
  split.
  - intros o (r' & Hparse & Hr')%ParseObject_Ok_inv.
    assert (∀ x, parseEmbeddedObject (fuel_for (s ++ x)) (s ++ x) = Ok (o, r' ++ x)) as Hframe.
    { intros x. rewrite fuel_for_app.
      apply (proj1 (parse_frame _ x)) in Hparse as Hx.
      rewrite <- Hx. apply (parse_fuel_mono (fuel_for s)); [lia|by rewrite Hx]. }
    split.
    + intros ws Hws. unfold ParseObject. rewrite Hframe. cbn [mbind result_bind].
      rewrite parseEnd_whitespace by done.
      by rewrite (proj1 (parseEnd_trailing ws 0 [] Hws eq_refl)).
    + intros ws c rest Hws Hc. unfold ParseObject. rewrite Hframe. cbn [mbind result_bind].
      rewrite parseEnd_whitespace by done.
      by rewrite (proj2 (parseEnd_trailing ws c rest Hws Hc)).
  - intros a (r' & Hparse & Hr')%ParseArray_Ok_inv.
    assert (∀ x, parseEmbeddedArray (fuel_for (s ++ x)) (s ++ x) = Ok (a, r' ++ x)) as Hframe.
    { intros x. rewrite fuel_for_app.
      apply (proj1 (proj2 (proj2 (parse_frame _ x)))) in Hparse as Hx.
      rewrite <- Hx. apply (parse_fuel_mono (fuel_for s)); [lia|by rewrite Hx]. }
    split.
    + intros ws Hws. unfold ParseArray. rewrite Hframe. cbn [mbind result_bind].
      rewrite parseEnd_whitespace by done.
      by rewrite (proj1 (parseEnd_trailing ws 0 [] Hws eq_refl)).
    + intros ws c rest Hws Hc. unfold ParseArray. rewrite Hframe. cbn [mbind result_bind].
      rewrite parseEnd_whitespace by done.
      by rewrite (proj2 (parseEnd_trailing ws c rest Hws Hc)).
Qed.

Lemma trailing_text_witness :
  ParseObject (lit "{'a':1}" ++ [NEWLINE] ++ "x"%rune :: lit "{}")
  = Err (if "x"%rune =? unicode.ReplacementChar then InvalidEncoding
         else UnexpectedTrailingCharacter).
Proof.
  refine (proj2 (proj1 (trailing_text (lit "{'a':1}")) _ _) [NEWLINE] "x"%rune (lit "{}") _ _);
    reflexivity.
Defined.

(** ** The earlier [encodeString] *)

Lemma v1_encodeString_char_app encoded char :
  v1.encodeString_char encoded char = encoded ++ v1.encodeString_char [] char.
Proof. unfold v1.encodeString_char. repeat case_match; by rewrite ?app_nil_r. Qed.

Lemma v1_encodeString_foldl encoded s :
  foldl v1.encodeString_char encoded s = encoded ++ foldl v1.encodeString_char [] s.
Proof.
  revert encoded. induction s as [|char s IH]; intros encoded; cbn [foldl];
    [by rewrite app_nil_r|].
  rewrite IH, (IH (v1.encodeString_char [] _)), v1_encodeString_char_app.
  by rewrite app_assoc.
Qed.

Lemma v1_string_of_runes_valid runes :
  forallb utf8.ValidRune runes = true → v1.string_of_runes runes = runes.
Proof.
  unfold v1.string_of_runes. induction runes as [|r runes IH]; [done|].
  cbn [forallb fmap list_fmap]. intros [-> Hrunes]%andb_prop. f_equal. by apply IH.
Qed.

Lemma v1_encodeString_char_valid char :
  utf8.ValidRune char = true → forallb utf8.ValidRune (v1.encodeString_char [] char) = true.
Proof.
  intros Hchar. unfold v1.encodeString_char.
  repeat case_match; cbn [app forallb]; rewrite ?Hchar; done.
Qed.

Lemma v1_encodeString_foldl_valid s :
  forallb utf8.ValidRune s = true →
  forallb utf8.ValidRune (foldl v1.encodeString_char [] s) = true.
Proof.
  induction s as [|char s IH]; [done|]. cbn [forallb foldl].
  intros [Hchar Hs]%andb_prop. rewrite v1_encodeString_foldl, forallb_app.
  by rewrite v1_encodeString_char_valid, IH.
Qed.

Lemma parseString_loop_v1_char char r b :
  utf8.ValidRune char = true →
  parseString_loop (v1.encodeString_char [] char ++ r) b 0
  = parseString_loop r (if v1.written char then b ++ [char] else b) 0.
Proof.
  intros Hvalid.
  assert (0 <= char <= 0x10FFFF ∧ ¬ (0xD800 <= char < 0xE000)) as [Hrange Hsurrogate].
  { unfold utf8.ValidRune, unicode.MaxRune in Hvalid. repeat case_match; lia. }
  unfold v1.encodeString_char, v1.written.
  repeat (match goal with |- context [char =? ?k] => destruct (Z.eqb_spec char k) as [->|?] end;
          [reflexivity|]).
  cbn [orb]. destruct (Z.leb_spec 32 char) as [Hchar|Hchar].
  - replace ((char >=? 32) && (char <=? 1114111)) with true by lia.
    cbn [app parseString_loop orb].
    rewrite ?(proj2 (Z.eqb_neq char _)) by done.
    replace ((char <? 32) || (char >? 1114111)) with false by lia.
    by rewrite WriteRune_valid by lia.
  - replace ((char >=? 32) && (char <=? 1114111)) with false by lia.
    rewrite ?(proj2 (Z.eqb_neq char _)) by done. reflexivity.
Qed.

Lemma parseString_loop_v1 s rest b :
  forallb utf8.ValidRune s = true →
  parseString_loop (foldl v1.encodeString_char [] s ++ DQUOTE :: rest) b 0
  = Ok (b ++ List.filter v1.written s, rest).
Proof.
  revert b. induction s as [|char s IH]; intros b Hvalid.
  { cbn. by rewrite app_nil_r. }
  cbn [forallb] in Hvalid. apply andb_prop in Hvalid as [Hchar Hvalid].
  cbn [foldl List.filter]. rewrite v1_encodeString_foldl, <- app_assoc.
  rewrite parseString_loop_v1_char, IH by done.
  destruct (v1.written char); by rewrite <- ?app_assoc.
Qed.

(** The earlier [encodeString] and [parseString]: the text written for a
    string of Unicode scalar values is read back as the string without its
    control characters other than backspace, form feed, newline, carriage
    return and tab, which are left out when the text is written. *)
Theorem v1_encodeString_parseString s rest :
  forallb utf8.ValidRune s = true →
  parseString (v1.encodeString s ++ rest) = Ok (List.filter v1.written s, rest).
Proof.
  intros Hvalid. unfold v1.encodeString.
  rewrite v1_string_of_runes_valid.
  - rewrite v1_encodeString_foldl. cbn [app parseString].
    simpl (_ =? _). cbn [negb]. rewrite <- app_assoc. cbn [app].
    by rewrite parseString_loop_v1.
  - rewrite forallb_app, v1_encodeString_foldl, forallb_app.
    by rewrite v1_encodeString_foldl_valid.
Qed.

Lemma v1_encodeString_parseString_witness :
  parseString (v1.encodeString [DQUOTE; 0x01; NEWLINE; "a"%rune; 0x1D11E] ++ lit ",")
  = Ok (List.filter v1.written [DQUOTE; 0x01; NEWLINE; "a"%rune; 0x1D11E], lit ",").
Proof. apply v1_encodeString_parseString. reflexivity. Defined.
